(** * solbot: the RPC failover executor and the pump.fun NATS listener

    A shallow embedding of two modules of the bot:

    - [SolanaService]: the module-level connection handle, the endpoint
      rotation [switchToNextRpc] and the retry / failover loop
      [executeRpcCall];
    - [PumpFunListener]: the NATS-over-WebSocket session, its event
      handlers, the MSG frame handler [handleNatsMsg], [start] and [stop];
    - [SolanaQueries]: the queries of the service built on the executor;
    - [Config]: the pool of endpoints read from SOLANA_RPC_ENDPOINTS.

    JavaScript strings are modelled as [string] (code units restricted to
    one byte), JavaScript numbers read by [parseInt] as [Z], module-level
    and instance state as records threaded through a small state and
    exception monad, and calls that leave the module (the action given
    to the executor, timers, the socket, the logger, consumer callbacks)
    as events appended to a trace. *)

From Stdlib Require Import ZArith List String Ascii Bool Lia PeanoNat Floats.
Import ListNotations.
Open Scope string_scope.
Open Scope list_scope.
Set Warnings "-register-all".

(** ** A state and exception monad

    [Exec S X A]: a computation over a store [S] which either returns an
    [A] or throws an [X]; the store survives a throw, as module state does
    in JavaScript. *)

Module ExecMonad.

Inductive Outcome (X A : Type) : Type :=
| Returned (a : A)
| Threw (x : X).
Arguments Returned {X A} a.
Arguments Threw {X A} x.

Definition Exec (S X A : Type) : Type := S -> Outcome X A * S.

Definition ret {S X A} (a : A) : Exec S X A := fun s => (Returned a, s).

Definition throw {S X A} (x : X) : Exec S X A := fun s => (Threw x, s).

Definition bind {S X A B} (m : Exec S X A) (k : A -> Exec S X B) : Exec S X B :=
  fun s =>
    match m s with
    | (Returned a, s') => k a s'
    | (Threw x, s') => (Threw x, s')
    end.

Definition gets {S X A} (f : S -> A) : Exec S X A := fun s => (Returned (f s), s).

Definition modify {S X} (f : S -> S) : Exec S X unit := fun s => (Returned tt, f s).

(** [try m handler]: a JavaScript [try { m } catch (x) { handler x }]. *)
Definition try {S X A} (m : Exec S X A) (handler : X -> Exec S X A) : Exec S X A :=
  fun s =>
    match m s with
    | (Returned a, s') => (Returned a, s')
    | (Threw x, s') => handler x s'
    end.

Module Notations.
Declare Scope exec_scope.
Delimit Scope exec_scope with exec.
Notation "x <- m ;; k" := (bind m (fun x => k))
  (at level 61, m at next level, right associativity) : exec_scope.
Notation "m ;; k" := (bind m (fun _ => k))
  (at level 61, right associativity) : exec_scope.
End Notations.

End ExecMonad.

Import ExecMonad ExecMonad.Notations.

(** ** JavaScript strings and values

    A string is a sequence of code units; the model keeps the code units
    below 256.  White space is what [\s] and [trim] recognise there:
    TAB, LF, VT, FF, CR, SPACE and NBSP. *)

Module Js.

Definition CR : ascii := "013"%char.
Definition LF : ascii := "010"%char.
Definition CRLF : string := String CR (String LF EmptyString).
Definition DQUOTE : string := String "034"%char EmptyString.

Definition isWhiteSpace (c : ascii) : bool :=
  let n := nat_of_ascii c in
  ((9 <=? n) && (n <=? 13) || (n =? 32) || (n =? 160))%nat.

Definition lowerChar (c : ascii) : ascii :=
  let n := nat_of_ascii c in
  if ((65 <=? n) && (n <=? 90)
      || (192 <=? n) && (n <=? 222) && negb (n =? 215))%nat
  then ascii_of_nat (n + 32) else c.

Fixpoint toLowerCase (s : string) : string :=
  match s with
  | EmptyString => EmptyString
  | String c s' => String (lowerChar c) (toLowerCase s')
  end.

Fixpoint startsWith (s prefix : string) {struct prefix} : bool :=
  match prefix, s with
  | EmptyString, _ => true
  | String p prefix', String c s' => Ascii.eqb p c && startsWith s' prefix'
  | String _ _, EmptyString => false
  end.

Fixpoint includes (s sub : string) : bool :=
  startsWith s sub ||
  match s with
  | EmptyString => false
  | String _ s' => includes s' sub
  end.

(** [s.indexOf(sub)], with [-1] when [sub] does not occur. *)
Fixpoint indexOfFrom (s sub : string) (i : Z) : Z :=
  if startsWith s sub then i
  else match s with
       | EmptyString => (-1)%Z
       | String _ s' => indexOfFrom s' sub (i + 1)%Z
       end.

Definition indexOf (s sub : string) : Z := indexOfFrom s sub 0.

Fixpoint drop (n : nat) (s : string) : string :=
  match n, s with
  | O, _ => s
  | S n', String _ s' => drop n' s'
  | S _, EmptyString => EmptyString
  end.

(** [s.substring(start)]: a negative [start] counts as 0. *)
Definition substring (s : string) (start : Z) : string := drop (Z.to_nat start) s.

Fixpoint trimStart (s : string) : string :=
  match s with
  | String c s' => if isWhiteSpace c then trimStart s' else s
  | EmptyString => EmptyString
  end.

Fixpoint trimEnd (s : string) : string :=
  match s with
  | EmptyString => EmptyString
  | String c s' =>
      match trimEnd s' with
      | EmptyString => if isWhiteSpace c then EmptyString else String c EmptyString
      | rest => String c rest
      end
  end.

Definition trim (s : string) : string := trimEnd (trimStart s).

(** [s.split(/\s+/)]: [cur] is the field being read, [inSep] tells that
    the previous code unit was white space. *)
Fixpoint splitWhiteSpaceFrom (s cur : string) (inSep : bool) : list string :=
  match s with
  | EmptyString => [cur]
  | String c s' =>
      if isWhiteSpace c then
        if inSep then splitWhiteSpaceFrom s' cur true
        else cur :: splitWhiteSpaceFrom s' EmptyString true
      else splitWhiteSpaceFrom s' (cur ++ String c EmptyString)%string false
  end.

Definition splitWhiteSpace (s : string) : list string :=
  splitWhiteSpaceFrom s EmptyString false.

(** Values: what [JSON.parse] can return, and [undefined], which reading
    a missing property gives. *)
Inductive JsValue : Type :=
| JsUndefined
| JsNull
| JsBool (b : bool)
| JsNumber (x : float)
| JsString (s : string)
| JsArray (items : list JsValue)
| JsObject (fields : list (string * JsValue)).

(** ToBoolean. *)
Definition truthy (v : JsValue) : bool :=
  match v with
  | JsUndefined | JsNull => false
  | JsBool b => b
  | JsNumber x => negb (PrimFloat.eqb x 0%float || PrimFloat.is_nan x)
  | JsString s => negb (s =? "")%string
  | JsArray _ | JsObject _ => true
  end.

Fixpoint lookup (fields : list (string * JsValue)) (name : string) : option JsValue :=
  match fields with
  | [] => None
  | (k, v) :: rest => if (k =? name)%string then Some v else lookup rest name
  end.

(** ToString, as a template literal applies it: whether it returns.  On
    an object it calls [toString]: the one of [Object.prototype], which
    returns, unless the object has an own property of that name; what
    [JSON.parse] builds is never callable and the inherited [valueOf]
    gives the object back, so ToString then throws a [TypeError].  On an
    array it calls [join], which applies ToString to the elements. *)
Fixpoint stringifies (v : JsValue) : bool :=
  match v with
  | JsObject fields =>
      match lookup fields "toString" with
      | Some _ => false
      | None => true
      end
  | JsArray items =>
      (fix all (l : list JsValue) : bool :=
         match l with
         | [] => true
         | x :: rest => stringifies x && all rest
         end) items
  | _ => true
  end.

Inductive JsException : Type :=
| SyntaxError                 (* JSON.parse rejected its input *)
| TypeError                   (* a property of null or undefined was read,
                                 or ToString failed *)
| Raised (what : JsValue)     (* thrown by a consumer callback *)
| UnhandledError.             (* an 'error' event emitted with no listener *)

(** [v.name] for a [name] that no prototype defines (none of the alias
    names read by the listener is one): an own property of an object,
    [undefined] on any other value, a [TypeError] on [null] and
    [undefined].  An object lists each of its keys once. *)
Definition getProperty (v : JsValue) (name : string) : JsException + JsValue :=
  match v with
  | JsUndefined | JsNull => inl TypeError
  | JsObject fields =>
      match lookup fields name with
      | Some x => inr x
      | None => inr JsUndefined
      end
  | _ => inr JsUndefined
  end.

End Js.

(** ** The Solana RPC service (connection pool and failover executor) *)

Module SolanaService.
Import Js.

(** The part of [appConfig] the service reads.  [rpcRetryAttempts] and
    [rpcRetryDelayMs] come from [parseInt]; a [NaN] there makes every
    comparison of the loops false, like a value [<= 0]. *)
Record AppConfig : Type := {
  rpcEndpoints : list string;
  rpcRetryAttempts : Z;
  rpcRetryDelayMs : Z
}.

(** A web3 [Connection], known to this module by its [rpcEndpoint]. *)
Record Connection : Type := { rpcEndpoint : string }.

(** The module-level variables [currentConnection] and [currentRpcIndex]. *)
Record RpcState : Type := {
  currentConnection : option Connection;
  currentRpcIndex : nat
}.

Definition initialRpcState : RpcState :=
  {| currentConnection := None; currentRpcIndex := 0 |}.

(** What a run does outside the module. *)
Inductive Event : Type :=
| EvAttempt (conn : Connection)   (* action(conn) was called *)
| EvSleep (ms : Z)                (* setTimeout(resolve, ms) was awaited *)
| EvSwitch (index : nat).         (* switchToNextRpc moved the pool to index *)

Definition isAttempt (ev : Event) : bool :=
  match ev with EvAttempt _ => true | _ => false end.

Definition isSwitch (ev : Event) : bool :=
  match ev with EvSwitch _ => true | _ => false end.

Section Executor.

(** [T]: results of the action, [E]: the values it throws (objects, so
    that reading [error.message] for the log does not throw), [W]: the
    state of the world the action talks to.  The calls of the logger are
    left out of this module's model: they do not steer the loops. *)
Variables T E W : Type.

(** [validEndpoint url]: whether the constructor of the web3 package,
    [new Connection(url, ...)], returns on [url].  It throws a
    [TypeError] on a string that is not an http(s) URL, and the
    configuration accepts any text as an endpoint. *)
Variable validEndpoint : string -> bool.
Variable appConfig : AppConfig.

(** A value thrown out of the executor: what the action threw, an
    [Error] made by this module, or the [TypeError] of the constructor
    of [Connection]. *)
Inductive Thrown : Type :=
| ActionError (e : E)
| JsError (message : string)
| JsTypeError.

Record Machine : Type := {
  rpc : RpcState;
  world : W;
  totalAttemptsAcrossRpcs : nat;
  events : list Event
}.

Definition M (A : Type) : Type := Exec Machine Thrown A.

Definition emit (ev : Event) : M unit :=
  modify (fun m => {| rpc := rpc m; world := world m;
                      totalAttemptsAcrossRpcs := totalAttemptsAcrossRpcs m;
                      events := events m ++ [ev] |}).

Definition setRpc (r : RpcState) : M unit :=
  modify (fun m => {| rpc := r; world := world m;
                      totalAttemptsAcrossRpcs := totalAttemptsAcrossRpcs m;
                      events := events m |}).

Definition N : Z := Z.of_nat (List.length (rpcEndpoints appConfig)).

(** [new Connection(rpcUrl, ...)]: the constructor throws on an endpoint
    it does not accept; reading the pool outside its bounds gives
    [undefined], which it rejects as well. *)
Definition createConnection (rpcUrl : option string) : M Connection :=
  match rpcUrl with
  | Some url =>
      if validEndpoint url then ret {| rpcEndpoint := url |} else throw JsTypeError
  | None => throw JsTypeError
  end.

Definition getSolanaConnection : M Connection :=
  (r <- gets rpc ;;
   match currentConnection r with
   | Some conn => ret conn
   | None =>
       if (List.length (rpcEndpoints appConfig) =? 0)%nat
       then throw (JsError "No RPC endpoints configured.")
       else
         conn <- createConnection (nth_error (rpcEndpoints appConfig) (currentRpcIndex r)) ;;
         setRpc {| currentConnection := Some conn;
                   currentRpcIndex := currentRpcIndex r |} ;;
         ret conn
   end)%exec.

(** With an empty pool the JavaScript index becomes [NaN] and the read
    is [undefined]; the index is left as it was here. *)
Definition switchToNextRpc : M Connection :=
  (r <- gets rpc ;;
   if (List.length (rpcEndpoints appConfig) =? 0)%nat
   then createConnection None
   else
     let index := ((currentRpcIndex r + 1) mod List.length (rpcEndpoints appConfig))%nat in
     setRpc {| currentConnection := currentConnection r; currentRpcIndex := index |} ;;
     emit (EvSwitch index) ;;
     conn <- createConnection (nth_error (rpcEndpoints appConfig) index) ;;
     setRpc {| currentConnection := Some conn; currentRpcIndex := index |} ;;
     ret conn)%exec.

Variable action : Connection -> W -> (T + E) * W.
Variable isFailoverErrorCheck : E -> bool.

(** [totalAttemptsAcrossRpcs++; await action(conn)] *)
Definition attemptAction (conn : Connection) : M (T + E) :=
  fun m =>
    let (r, w') := action conn (world m) in
    (Returned r,
     {| rpc := rpc m; world := w';
        totalAttemptsAcrossRpcs := S (totalAttemptsAcrossRpcs m);
        events := events m ++ [EvAttempt conn] |}).

(** How one run of the inner [for] loop ends when it does not throw. *)
Inductive Flow : Type :=
| FlowReturn (v : T)   (* return await action(conn) *)
| FlowBreak            (* break *)
| FlowDone.            (* the guard attempt < rpcRetryAttempts failed *)

(** [for (let attempt = 0; attempt < appConfig.rpcRetryAttempts; attempt++)]:
    [remaining] is the number of iterations the guard still allows. *)
Fixpoint attemptLoop (remaining : nat) (attempt cycle : Z) (conn : Connection)
  : M Flow :=
  match remaining with
  | O => ret FlowDone
  | S remaining' =>
      (r <- attemptAction conn ;;
       match r with
       | inl v => ret (FlowReturn v)
       | inr error =>
           if (attempt <? rpcRetryAttempts appConfig - 1)%Z then
             if isFailoverErrorCheck error then
               emit (EvSleep (rpcRetryDelayMs appConfig)) ;;
               attemptLoop remaining' (attempt + 1)%Z cycle conn
             else throw (ActionError error)
           else if isFailoverErrorCheck error && (cycle <? N - 1)%Z then
             ret FlowBreak
           else throw (ActionError error)
       end)%exec
  end.

(** [for (let cycle = 0; cycle < appConfig.rpcEndpoints.length; cycle++)],
    followed by the fallback throw. *)
Fixpoint cycleLoop (remaining : nat) (cycle : Z) : M T :=
  match remaining with
  | O => throw (JsError "SolanaService: Exhausted all RPC failover attempts.")
  | S remaining' =>
      (conn <- getSolanaConnection ;;
       flow <- attemptLoop (Z.to_nat (rpcRetryAttempts appConfig)) 0 cycle conn ;;
       match flow with
       | FlowReturn v => ret v
       | FlowBreak | FlowDone =>
           (if (cycle <? N - 1)%Z
            then (_ <- switchToNextRpc ;; ret tt)
            else ret tt) ;;
           cycleLoop remaining' (cycle + 1)%Z
       end)%exec
  end.

Definition executeRpcCall : M T :=
  fun m =>
    cycleLoop (List.length (rpcEndpoints appConfig)) 0
      {| rpc := rpc m; world := world m;
         totalAttemptsAcrossRpcs := 0; events := events m |}.

(** A fresh run: no event yet. *)
Definition machine (r : RpcState) (w : W) : Machine :=
  {| rpc := r; world := w; totalAttemptsAcrossRpcs := 0; events := [] |}.

Definition attempts (m : Machine) : nat :=
  List.length (filter isAttempt (events m)).

Definition rotations (m : Machine) : nat :=
  List.length (filter isSwitch (events m)).

(** The connection [getSolanaConnection] hands out in a given state:
    the one the module holds, or else a new one for the endpoint at the
    index, provided the constructor accepts that endpoint ([None] when
    it throws). *)
Definition currentEndpoint (r : RpcState) : option Connection :=
  match currentConnection r with
  | Some conn => Some conn
  | None =>
      match nth_error (rpcEndpoints appConfig) (currentRpcIndex r) with
      | Some url => if validEndpoint url then Some {| rpcEndpoint := url |} else None
      | None => None
      end
  end.

(** The constructor accepts every endpoint of the pool. *)
Definition poolAccepted : Prop :=
  Forall (fun url => validEndpoint url = true) (rpcEndpoints appConfig).

(** The action fails on every call with an error the check accepts. *)
Definition alwaysFailsRetriable : Prop :=
  forall conn w, exists e,
    fst (action conn w) = inr e /\ isFailoverErrorCheck e = true.

End Executor.

Arguments ActionError {E} e.
Arguments JsError {E} message.
Arguments JsTypeError {E}.
Arguments Build_Machine {W} _ _ _ _.
Arguments rpc {W} _.
Arguments world {W} _.
Arguments totalAttemptsAcrossRpcs {W} _.
Arguments events {W} _.
Arguments machine {W} r w.
Arguments attempts {W} m.
Arguments rotations {W} m.
Arguments getSolanaConnection {E W} validEndpoint appConfig _.
Arguments switchToNextRpc {E W} validEndpoint appConfig _.
Arguments attemptAction {T E W} action conn _.
Arguments attemptLoop {T E W} appConfig action isFailoverErrorCheck remaining attempt cycle conn _.
Arguments cycleLoop {T E W} validEndpoint appConfig action isFailoverErrorCheck
  remaining cycle _.
Arguments executeRpcCall {T E W} validEndpoint appConfig action isFailoverErrorCheck _.
Arguments emit {E W} ev _.
Arguments setRpc {E W} r _.
Arguments createConnection {E W} validEndpoint rpcUrl _.
Arguments FlowReturn {T} v.
Arguments FlowBreak {T}.
Arguments FlowDone {T}.
Arguments alwaysFailsRetriable {T E W} action isFailoverErrorCheck.

Definition ExhaustedFailoverError {E} : Thrown E :=
  JsError "SolanaService: Exhausted all RPC failover attempts.".

(** *** The default failover check

    An error value as [isRpcFailoverError] looks at it: [error.message]
    and [error.code] ([None] when the property is missing; a code that is
    not a string never equals one of the four names). *)
Record RpcError : Type := {
  message : option string;
  code : option string
}.

Definition isRpcFailoverError (error : RpcError) : bool :=
  let errorMessage :=
    match message error with
    | Some msg => toLowerCase msg
    | None => ""
    end in
  includes errorMessage "failed to fetch"
  || includes errorMessage "network request failed"
  || includes errorMessage "timeout"
  || includes errorMessage "econnrefused"
  || includes errorMessage "econnreset"
  || includes errorMessage "enotfound"
  || includes errorMessage "esockettimedout"
  || includes errorMessage "service unavailable"
  || match code error with
     | Some c =>
         negb (c =? "")%string
         && ((c =? "ECONNRESET") || (c =? "ECONNREFUSED")
             || (c =? "ENOTFOUND") || (c =? "ESOCKETTIMEDOUT"))%string
     | None => false
     end.

(** *** Sample configurations and actions *)

(** The test at the head of the constructor of [Connection]: the
    endpoint starts with http: or https:. *)
Definition httpEndpoint (url : string) : bool :=
  startsWith url "http:" || startsWith url "https:".

Definition defaultConfig (endpoints : list string) : AppConfig :=
  {| rpcEndpoints := endpoints; rpcRetryAttempts := 3; rpcRetryDelayMs := 1000 |}.

Definition timeoutError : RpcError :=
  {| message := Some "Request Timeout"; code := None |}.

Definition invalidParamError : RpcError :=
  {| message := Some "Invalid param: WrongSize"; code := None |}.

(** An action that never reaches its endpoint. *)
Definition unreachable (conn : Connection) (w : unit) : (nat + RpcError) * unit :=
  (inr timeoutError, w).

(** An action the node rejects as malformed. *)
Definition rejected (conn : Connection) (w : unit) : (nat + RpcError) * unit :=
  (inr invalidParamError, w).

(** An action that only the endpoint [good] answers. *)
Definition answeredBy (good : string) (conn : Connection) (w : unit)
  : (nat + RpcError) * unit :=
  if (rpcEndpoint conn =? good)%string then (inl 42%nat, w)
  else (inr timeoutError, w).

End SolanaService.

(** ** The pump.fun listener: a NATS session over a WebSocket *)

Module PumpFunListener.
Import Js.

Definition SID_COIN_IMAGE_UPDATED : string := "1".
Definition SID_ADVANCED_COIN_GRADUATED : string := "2".
Definition SID_ADVANCED_NEW_COIN_CREATED : string := "3".

Inductive NatsState : Type :=
| DISCONNECTED
| CONNECTING
| CONNECTED_WAITING_FOR_INFO_OR_PING
| CONNECTED_AWAITING_PONG
| SUBSCRIBING
| OPERATIONAL.

Definition NatsState_eqb (a b : NatsState) : bool :=
  match a, b with
  | DISCONNECTED, DISCONNECTED
  | CONNECTING, CONNECTING
  | CONNECTED_WAITING_FOR_INFO_OR_PING, CONNECTED_WAITING_FOR_INFO_OR_PING
  | CONNECTED_AWAITING_PONG, CONNECTED_AWAITING_PONG
  | SUBSCRIBING, SUBSCRIBING
  | OPERATIONAL, OPERATIONAL => true
  | _, _ => false
  end.

(** [readyState] of a socket of the [ws] package. *)
Inductive ReadyState : Type := WS_CONNECTING | WS_OPEN | WS_CLOSING | WS_CLOSED.

(** A socket object: its state and whether the 'close' and 'error'
    listeners registered by [connect] are still attached (the 'open' and
    'message' listeners are never removed). *)
Record WebSocket : Type := {
  readyState : ReadyState;
  closeListener : bool;
  errorListener : bool
}.

(** A consumer either returns or throws. *)
Inductive CallbackResult : Type :=
| CbReturned
| CbThrew (what : JsValue).

Definition NewTokenCallback : Type := JsValue -> JsValue -> CallbackResult.

Inductive LogLevel : Type := LDebug | LInfo | LWarn | LError.

(** What the listener does to its environment.  A log entry keeps the
    fixed part of the message. *)
Inductive Effect : Type :=
| Log (level : LogLevel) (text : string)
| NewWebSocket (id : nat) (url : string)
| Send (id : nat) (data : string)
| Close (id : nat)
| RemoveAllListeners (id : nat) (event : string)
| SetInterval (timer : nat) (ms : Z)
| ClearInterval (timer : nat)
| SetTimeout (ms : Z)
| JsonParse (text : string)
| Invoke (index : nat) (address data : JsValue).

(** The listener object ([ws] names a socket of [sockets]) together with
    the runtime around it: the sockets created so far, the interval
    timers that are active, the number of reconnect timeouts that have
    been set and have not fired yet, and the trace of effects. *)
Record Session : Type := {
  ws : option nat;
  natsState : NatsState;
  newTokenCallbacks : list NewTokenCallback;
  pingIntervalId : option nat;
  clientKeepAliveIntervalId : option nat;
  sockets : list WebSocket;
  intervals : list nat;
  reconnectTimers : nat;
  nextTimer : nat;
  effects : list Effect
}.

Definition reconnectInterval : Z := 5000.
Definition serverPingInterval : Z := 20000.
Definition clientKeepAliveIntervalMs : Z := 15000.

(** A listener as its constructor leaves it. *)
Definition newListener : Session :=
  {| ws := None; natsState := DISCONNECTED; newTokenCallbacks := [];
     pingIntervalId := None; clientKeepAliveIntervalId := None;
     sockets := []; intervals := []; reconnectTimers := 0; nextTimer := 0;
     effects := [] |}.

Definition L (A : Type) : Type := Exec Session JsException A.

Definition set_ws (v : option nat) (s : Session) : Session :=
  {| ws := v; natsState := natsState s; newTokenCallbacks := newTokenCallbacks s;
     pingIntervalId := pingIntervalId s;
     clientKeepAliveIntervalId := clientKeepAliveIntervalId s;
     sockets := sockets s; intervals := intervals s;
     reconnectTimers := reconnectTimers s; nextTimer := nextTimer s;
     effects := effects s |}.

Definition set_natsState (v : NatsState) (s : Session) : Session :=
  {| ws := ws s; natsState := v; newTokenCallbacks := newTokenCallbacks s;
     pingIntervalId := pingIntervalId s;
     clientKeepAliveIntervalId := clientKeepAliveIntervalId s;
     sockets := sockets s; intervals := intervals s;
     reconnectTimers := reconnectTimers s; nextTimer := nextTimer s;
     effects := effects s |}.

Definition set_newTokenCallbacks (v : list NewTokenCallback) (s : Session) : Session :=
  {| ws := ws s; natsState := natsState s; newTokenCallbacks := v;
     pingIntervalId := pingIntervalId s;
     clientKeepAliveIntervalId := clientKeepAliveIntervalId s;
     sockets := sockets s; intervals := intervals s;
     reconnectTimers := reconnectTimers s; nextTimer := nextTimer s;
     effects := effects s |}.

Definition set_clientKeepAliveIntervalId (v : option nat) (s : Session) : Session :=
  {| ws := ws s; natsState := natsState s; newTokenCallbacks := newTokenCallbacks s;
     pingIntervalId := pingIntervalId s;
     clientKeepAliveIntervalId := v;
     sockets := sockets s; intervals := intervals s;
     reconnectTimers := reconnectTimers s; nextTimer := nextTimer s;
     effects := effects s |}.

Definition set_sockets (v : list WebSocket) (s : Session) : Session :=
  {| ws := ws s; natsState := natsState s; newTokenCallbacks := newTokenCallbacks s;
     pingIntervalId := pingIntervalId s;
     clientKeepAliveIntervalId := clientKeepAliveIntervalId s;
     sockets := v; intervals := intervals s;
     reconnectTimers := reconnectTimers s; nextTimer := nextTimer s;
     effects := effects s |}.

Definition set_timers (active : list nat) (pending next : nat) (s : Session) : Session :=
  {| ws := ws s; natsState := natsState s; newTokenCallbacks := newTokenCallbacks s;
     pingIntervalId := pingIntervalId s;
     clientKeepAliveIntervalId := clientKeepAliveIntervalId s;
     sockets := sockets s; intervals := active;
     reconnectTimers := pending; nextTimer := next;
     effects := effects s |}.

Definition add_effect (e : Effect) (s : Session) : Session :=
  {| ws := ws s; natsState := natsState s; newTokenCallbacks := newTokenCallbacks s;
     pingIntervalId := pingIntervalId s;
     clientKeepAliveIntervalId := clientKeepAliveIntervalId s;
     sockets := sockets s; intervals := intervals s;
     reconnectTimers := reconnectTimers s; nextTimer := nextTimer s;
     effects := effects s ++ [e] |}.

Definition effect (e : Effect) : L unit := modify (add_effect e).

Definition log (level : LogLevel) (text : string) : L unit := effect (Log level text).

(** *** The runtime: sockets and timers *)

Fixpoint updateSocket (id : nat) (f : WebSocket -> WebSocket) (l : list WebSocket)
  : list WebSocket :=
  match l, id with
  | [], _ => []
  | sock :: rest, O => f sock :: rest
  | sock :: rest, S id' => sock :: updateSocket id' f rest
  end.

Definition socket (id : nat) (s : Session) : option WebSocket :=
  nth_error (sockets s) id.

Definition setReadyState (id : nat) (r : ReadyState) : L unit :=
  modify (fun s =>
    set_sockets
      (updateSocket id
         (fun sock => {| readyState := r; closeListener := closeListener sock;
                         errorListener := errorListener sock |})
         (sockets s)) s).

(** [new WebSocket(url)] followed by the four [on] registrations.  The
    listener's URL is taken to be one that the constructor accepts (a
    ws: or wss: URL); on any other text the constructor throws a
    SyntaxError out of [connect], which this model leaves out. *)
Definition newWebSocket (url : string) : L nat :=
  (id <- gets (fun s => List.length (sockets s)) ;;
   modify (fun s =>
     set_sockets
       (sockets s ++ [{| readyState := WS_CONNECTING; closeListener := true;
                         errorListener := true |}]) s) ;;
   effect (NewWebSocket id url) ;;
   ret id)%exec.

(** [ws.removeAllListeners('close')] and [ws.removeAllListeners('error')] *)
Definition removeCloseAndErrorListeners (id : nat) : L unit :=
  (effect (RemoveAllListeners id "close") ;;
   effect (RemoveAllListeners id "error") ;;
   modify (fun s =>
     set_sockets
       (updateSocket id
          (fun sock => {| readyState := readyState sock; closeListener := false;
                          errorListener := false |})
          (sockets s)) s))%exec.

(** [ws.close()] on a socket that is open or connecting. *)
Definition wsClose (id : nat) : L unit :=
  (effect (Close id) ;; setReadyState id WS_CLOSING)%exec.

Definition setInterval (ms : Z) : L nat :=
  (timer <- gets nextTimer ;;
   modify (fun s => set_timers (timer :: intervals s) (reconnectTimers s) (S timer) s) ;;
   effect (SetInterval timer ms) ;;
   ret timer)%exec.

Definition clearInterval (timer : nat) : L unit :=
  (modify (fun s =>
     set_timers (filter (fun t => negb (t =? timer)%nat) (intervals s))
       (reconnectTimers s) (nextTimer s) s) ;;
   effect (ClearInterval timer))%exec.

(** [setTimeout(() => this.connect(), ms)]: the handle is dropped. *)
Definition setReconnectTimeout (ms : Z) : L unit :=
  (modify (fun s => set_timers (intervals s) (S (reconnectTimers s)) (nextTimer s) s) ;;
   effect (SetTimeout ms))%exec.

Section Listener.

(** [appConfig.pumpFunWebsocketUrl] and [JSON.parse] ([None]: it throws). *)
Variable pumpFunWebsocketUrl : string.
Variable JSON_parse : string -> option JsValue.

Definition addTokenCallback (callback : NewTokenCallback) : L unit :=
  modify (fun s => set_newTokenCallbacks (newTokenCallbacks s ++ [callback]) s).

Definition wsIsOpen (s : Session) : option nat :=
  match ws s with
  | Some id =>
      match socket id s with
      | Some {| readyState := WS_OPEN |} => Some id
      | _ => None
      end
  | None => None
  end.

Definition sendNatsCommand (command : string) : L unit :=
  (open <- gets wsIsOpen ;;
   match open with
   | Some id =>
       log LDebug "PumpFunListener: Sending NATS command" ;;
       effect (Send id (command ++ CRLF)%string)
   | None => log LWarn "PumpFunListener: WebSocket not open, cannot send NATS command."
   end)%exec.

Definition stopClientKeepAlive : L unit :=
  (timer <- gets clientKeepAliveIntervalId ;;
   match timer with
   | Some t =>
       clearInterval t ;;
       modify (set_clientKeepAliveIntervalId None)
   | None => ret tt
   end)%exec.

Definition startClientKeepAlive : L unit :=
  (stopClientKeepAlive ;;
   t <- setInterval clientKeepAliveIntervalMs ;;
   modify (set_clientKeepAliveIntervalId (Some t)))%exec.

(** The body of the keep-alive interval callback. *)
Definition clientKeepAlive : L unit :=
  (open <- gets wsIsOpen ;;
   st <- gets natsState ;;
   match open with
   | Some _ =>
       if NatsState_eqb st OPERATIONAL || NatsState_eqb st SUBSCRIBING
          || NatsState_eqb st CONNECTED_AWAITING_PONG
       then log LDebug "PumpFunListener: Sending client PING for keep-alive." ;;
            sendNatsCommand "PING"
       else ret tt
   | None => ret tt
   end)%exec.

(** [if (this.pingIntervalId) clearInterval(this.pingIntervalId)] *)
Definition clearPingInterval : L unit :=
  (timer <- gets pingIntervalId ;;
   match timer with
   | Some t => clearInterval t
   | None => ret tt
   end)%exec.

Definition subscribeToTopics : L unit :=
  (log LInfo "PumpFunListener: Subscribing to NATS topics as per user specification..." ;;
   modify (set_natsState SUBSCRIBING) ;;
   sendNatsCommand ("SUB coinImageUpdated.> " ++ SID_COIN_IMAGE_UPDATED)%string ;;
   sendNatsCommand ("SUB advancedCoinGraduated " ++ SID_ADVANCED_COIN_GRADUATED)%string ;;
   sendNatsCommand ("SUB advancedNewCoinCreated " ++ SID_ADVANCED_NEW_COIN_CREATED)%string ;;
   log LInfo "Subscribed to")%exec.

Definition connect : L unit :=
  (if (pumpFunWebsocketUrl =? "")%string then
     log LError "PumpFunListener: Cannot connect, PUMPFUN_WEBSOCKET_URL is not configured." ;;
     modify (set_natsState DISCONNECTED)
   else
     log LInfo "PumpFunListener: Connecting" ;;
     modify (set_natsState CONNECTING) ;;
     id <- newWebSocket pumpFunWebsocketUrl ;;
     modify (set_ws (Some id)))%exec.

(** *** The MSG frame handler *)

Definition parts (messageStr : string) : list string := splitWhiteSpace messageStr.

Definition payloadIndex (messageStr : string) : Z := indexOf messageStr CRLF.

Definition payloadStr (messageStr : string) : string :=
  substring messageStr (payloadIndex messageStr + 2).

Definition jsonParse (text : string) : L JsValue :=
  (effect (JsonParse text) ;;
   match JSON_parse text with
   | Some v => ret v
   | None => throw SyntaxError
   end)%exec.

(** [let parsedPayload = JSON.parse(payloadStr)] and the second parse of
    a payload that was a string. *)
Definition parsedPayload (payload : string) : L JsValue :=
  (first <- jsonParse payload ;;
   match first with
   | JsString inner =>
       log LDebug "PumpFunListener: Payload was a string, attempting second JSON.parse()." ;;
       jsonParse inner
   | _ => ret first
   end)%exec.

(** The calls of [JSON.parse] that [parsedPayload] makes, in order. *)
Definition passes (payload : string) : list Effect :=
  JsonParse payload
  :: match JSON_parse payload with
     | Some (JsString inner) => [JsonParse inner]
     | _ => []
     end.

Definition readProperty (v : JsValue) (name : string) : L JsValue :=
  match getProperty v name with
  | inr x => ret x
  | inl exn => throw exn
  end.

(** [a || b], where reading [b] may throw. *)
Definition orElse (a : JsValue) (b : L JsValue) : L JsValue :=
  if truthy a then ret a else b.

(** [tokenData.coinMint || tokenData.mint || tokenData.token_address
     || tokenData.address] *)
Definition tokenAddress (tokenData : JsValue) : L JsValue :=
  (a <- readProperty tokenData "coinMint" ;;
   orElse a
     (b <- readProperty tokenData "mint" ;;
      orElse b
        (c <- readProperty tokenData "token_address" ;;
         orElse c (readProperty tokenData "address"))))%exec.

(** [this.newTokenCallbacks.forEach(cb => cb(tokenAddress, tokenData))] *)
Fixpoint forEachCallback (callbacks : list NewTokenCallback) (index : nat)
    (address data : JsValue) : L unit :=
  match callbacks with
  | [] => ret tt
  | cb :: rest =>
      (effect (Invoke index address data) ;;
       match cb address data with
       | CbReturned => forEachCallback rest (S index) address data
       | CbThrew what => throw (Raised what)
       end)%exec
  end.

(** [`... ${v}`]: the value is converted to a string before the text is
    given to the logger. *)
Definition interpolate (v : JsValue) : L unit :=
  if stringifies v then ret tt else throw TypeError.

(** The body of the [try] block. *)
Definition decodeAndDispatch (payload : string) : L unit :=
  (tokenData <- parsedPayload payload ;;
   address <- tokenAddress tokenData ;;
   if truthy address then
     interpolate address ;;
     log LInfo "PumpFunListener: New 'advancedCoinGraduated' token" ;;
     callbacks <- gets newTokenCallbacks ;;
     forEachCallback callbacks 0 address tokenData
   else
     log LWarn "PumpFunListener: 'advancedCoinGraduated' message missing token address.")%exec.

Definition handleNatsMsg (messageStr : string) : L unit :=
  (if (List.length (parts messageStr) <? 4)%nat then
     log LWarn "PumpFunListener: Malformed NATS MSG"
   else
     let subject := nth 1 (parts messageStr) "" in
     let sid := nth 2 (parts messageStr) "" in
     if (payloadIndex messageStr =? -1)%Z then
       log LWarn "PumpFunListener: NATS MSG missing payload separator"
     else
       log LDebug "PumpFunListener: NATS MSG" ;;
       if (sid =? SID_ADVANCED_COIN_GRADUATED)%string
          && (subject =? "advancedCoinGraduated")%string
       then
         try (decodeAndDispatch (payloadStr messageStr))
           (fun error =>
              log LError "PumpFunListener: Error parsing JSON payload for advancedCoinGraduated:")
       else ret tt)%exec.

(** *** The socket listeners registered by [connect] *)

Definition q (s : string) : string := (DQUOTE ++ s ++ DQUOTE)%string.

(** [JSON.stringify] of the CONNECT options. *)
Definition connectMsg : string :=
  ("{" ++ q "no_responders" ++ ":true," ++ q "protocol" ++ ":1,"
   ++ q "verbose" ++ ":false," ++ q "pedantic" ++ ":false,"
   ++ q "user" ++ ":" ++ q "subscriber" ++ ","
   ++ q "pass" ++ ":" ++ q "OktDhmZ2D3CtYUiM" ++ ","
   ++ q "lang" ++ ":" ++ q "nats.ws" ++ ","
   ++ q "version" ++ ":" ++ q "1.29.2" ++ ","
   ++ q "headers" ++ ":true}")%string.

Definition onOpen : L unit :=
  (log LInfo "PumpFunListener: WebSocket connection established." ;;
   modify (set_natsState CONNECTED_WAITING_FOR_INFO_OR_PING) ;;
   sendNatsCommand ("CONNECT " ++ connectMsg)%string ;;
   startClientKeepAlive)%exec.

Definition onMessage (data : string) : L unit :=
  (let messageStr := trim data in
   log LDebug "PumpFunListener: Received raw NATS message" ;;
   if startsWith messageStr "INFO" then
     log LInfo "PumpFunListener: Received NATS INFO" ;;
     st <- gets natsState ;;
     if NatsState_eqb st CONNECTED_WAITING_FOR_INFO_OR_PING
     then subscribeToTopics else ret tt
   else if (messageStr =? "PING")%string then
     log LDebug "PumpFunListener: Received PING from server." ;;
     sendNatsCommand "PONG" ;;
     st <- gets natsState ;;
     if NatsState_eqb st CONNECTED_WAITING_FOR_INFO_OR_PING
     then modify (set_natsState CONNECTED_AWAITING_PONG) ;; subscribeToTopics
     else ret tt
   else if startsWith messageStr "MSG" then
     handleNatsMsg messageStr
   else if (messageStr =? "+OK")%string then
     log LDebug "PumpFunListener: Received +OK (e.g., after SUB or PONG)." ;;
     st <- gets natsState ;;
     if NatsState_eqb st SUBSCRIBING
     then modify (set_natsState OPERATIONAL) ;;
          log LInfo "PumpFunListener: Subscriptions confirmed. Operational."
     else ret tt
   else if (messageStr =? "PONG")%string then
     log LDebug "PumpFunListener: Received PONG from server."
   else if startsWith messageStr "-ERR" then
     log LError "PumpFunListener: Received NATS Error"
   else
     log LWarn "PumpFunListener: Received unhandled NATS message")%exec.

Definition onError : L unit :=
  (log LError "PumpFunListener: WebSocket error:" ;;
   modify (set_natsState DISCONNECTED))%exec.

Definition onClose : L unit :=
  (log LInfo "PumpFunListener: WebSocket disconnected." ;;
   modify (set_natsState DISCONNECTED) ;;
   stopClientKeepAlive ;;
   clearPingInterval ;;
   log LInfo "Attempting to reconnect" ;;
   setReconnectTimeout reconnectInterval)%exec.

(** *** The public methods *)

Definition start : L unit :=
  (if (pumpFunWebsocketUrl =? "")%string then
     log LWarn "PumpFunListener: PUMPFUN_WEBSOCKET_URL is not set. Cannot start listener."
   else
     st <- gets natsState ;;
     if negb (NatsState_eqb st DISCONNECTED) then
       log LWarn "PumpFunListener: Already started or in a connecting state"
     else connect)%exec.

Definition stop : L unit :=
  (log LInfo "PumpFunListener: Stopping WebSocket connection..." ;;
   modify (set_natsState DISCONNECTED) ;;
   stopClientKeepAlive ;;
   clearPingInterval ;;
   current <- gets ws ;;
   match current with
   | Some id =>
       removeCloseAndErrorListeners id ;;
       sock <- gets (socket id) ;;
       match sock with
       | Some {| readyState := WS_OPEN |}
       | Some {| readyState := WS_CONNECTING |} => wsClose id
       | _ => ret tt
       end ;;
       modify (set_ws None)
   | None => ret tt
   end ;;
   log LInfo "PumpFunListener: Stopped.")%exec.

(** *** Events

    What can happen to a session: a call of a public method, an event of
    one of the sockets it created, or a timer that fires.  The socket
    package moves [readyState] before it calls a listener: to OPEN on
    'open', to CLOSING on 'error', to CLOSED on 'close'.  The 'message'
    listener is never removed and does not look at [readyState]: a frame
    reaches it on a socket that is open or closing, whether or not the
    listener still holds that socket.  An 'error' event on a socket
    whose 'error' listener was removed is thrown by the emitter.  An
    event that cannot occur in the current state (no such socket, a
    socket already closed, no timer pending) leaves the session as it
    is. *)
Inductive Input : Type :=
| CallStart
| CallStop
| CallAddTokenCallback (callback : NewTokenCallback)
| SocketOpen (id : nat)
| SocketMessage (id : nat) (data : string)
| SocketError (id : nat)
| SocketClose (id : nat)
| ReconnectTimeout
| KeepAliveInterval (timer : nat).

Definition deliver (i : Input) : L unit :=
  match i with
  | CallStart => start
  | CallStop => stop
  | CallAddTokenCallback callback => addTokenCallback callback
  | SocketOpen id =>
      (sock <- gets (socket id) ;;
       match sock with
       | Some {| readyState := WS_CONNECTING |} => setReadyState id WS_OPEN ;; onOpen
       | _ => ret tt
       end)%exec
  | SocketMessage id data =>
      (sock <- gets (socket id) ;;
       match sock with
       | Some {| readyState := WS_OPEN |}
       | Some {| readyState := WS_CLOSING |} => onMessage data
       | _ => ret tt
       end)%exec
  | SocketError id =>
      (sock <- gets (socket id) ;;
       match sock with
       | None | Some {| readyState := WS_CLOSED |} => ret tt
       | Some sock =>
           setReadyState id WS_CLOSING ;;
           if errorListener sock then onError else throw UnhandledError
       end)%exec
  | SocketClose id =>
      (sock <- gets (socket id) ;;
       match sock with
       | None | Some {| readyState := WS_CLOSED |} => ret tt
       | Some sock =>
           setReadyState id WS_CLOSED ;;
           if closeListener sock then onClose else ret tt
       end)%exec
  | ReconnectTimeout =>
      (pending <- gets reconnectTimers ;;
       match pending with
       | O => ret tt
       | S pending' =>
           modify (fun s => set_timers (intervals s) pending' (nextTimer s) s) ;;
           connect
       end)%exec
  | KeepAliveInterval timer =>
      (active <- gets intervals ;;
       if existsb (Nat.eqb timer) active then clientKeepAlive else ret tt)%exec
  end.

Definition step (s : Session) (i : Input) : Session := snd (deliver i s).

Definition run (inputs : list Input) (s : Session) : Session :=
  fold_left step inputs s.

End Listener.

(** *** Frames

    A frame this handler decodes: four fields or more, a delimiter,
    subscription id 2 on the subject advancedCoinGraduated. *)
Definition ofInterest (messageStr : string) : bool :=
  (4 <=? List.length (parts messageStr))%nat
  && negb (payloadIndex messageStr =? -1)%Z
  && (nth 2 (parts messageStr) "" =? SID_ADVANCED_COIN_GRADUATED)%string
  && (nth 1 (parts messageStr) "" =? "advancedCoinGraduated")%string.

Definition aliases : list string := ["coinMint"; "mint"; "token_address"; "address"].

Definition isInvoke (e : Effect) : bool :=
  match e with Invoke _ _ _ => true | _ => false end.

Definition isJsonParse (e : Effect) : bool :=
  match e with JsonParse _ => true | _ => false end.

Definition isSetTimeout (e : Effect) : bool :=
  match e with SetTimeout _ => true | _ => false end.

(** The consumer calls and the decode passes recorded in a trace. *)
Definition invocations (s : Session) : list Effect := filter isInvoke (effects s).
Definition decodePasses (s : Session) : nat :=
  List.length (filter isJsonParse (effects s)).

(** The texts given to [JSON.parse], in order. *)
Definition decoded (s : Session) : list Effect := filter isJsonParse (effects s).

(** A computation that does not call [JSON.parse]. *)
Definition parseFree {A} (m : L A) : Prop :=
  forall s, decoded (snd (m s)) = decoded s.

(** All of a session but its trace. *)
Definition forget (s : Session) : Session :=
  {| ws := ws s; natsState := natsState s; newTokenCallbacks := newTokenCallbacks s;
     pingIntervalId := pingIntervalId s;
     clientKeepAliveIntervalId := clientKeepAliveIntervalId s;
     sockets := sockets s; intervals := intervals s;
     reconnectTimers := reconnectTimers s; nextTimer := nextTimer s;
     effects := [] |}.

(** A computation that touches nothing of the session but its trace. *)
Definition quiet {A} (m : L A) : Prop := forall s, forget (snd (m s)) = forget s.

(** A computation that leaves the protocol state as it is, and one that
    leaves a disconnected session disconnected. *)
Definition keepsState {A} (m : L A) : Prop :=
  forall s, natsState (snd (m s)) = natsState s.

Definition staysDisconnected {A} (m : L A) : Prop :=
  forall s, natsState s = DISCONNECTED -> natsState (snd (m s)) = DISCONNECTED.

(** A computation that adds no consumer call to the trace. *)
Definition silent {A} (m : L A) : Prop :=
  forall s, invocations (snd (m s)) = invocations s.

(** *** The frame layout in the words of the specification

    The specification describes a data frame as a header line whose last
    field is a byte count, followed by exactly that many payload bytes.
    [payloadByDeclaredLength] reads a frame that way; it is compared with
    [payloadStr], which is what the handler does. *)
Fixpoint take (n : nat) (s : string) : string :=
  match n, s with
  | S n', String c s' => String c (take n' s')
  | _, _ => EmptyString
  end.

Definition digit (c : ascii) : option nat :=
  let n := nat_of_ascii c in
  if ((48 <=? n) && (n <=? 57))%nat then Some (n - 48)%nat else None.

Fixpoint parseDecimalFrom (s : string) (acc : nat) : option nat :=
  match s with
  | EmptyString => Some acc
  | String c s' =>
      match digit c with
      | Some d => parseDecimalFrom s' (10 * acc + d)
      | None => None
      end
  end.

Definition parseDecimal (s : string) : option nat :=
  match s with
  | EmptyString => None
  | _ => parseDecimalFrom s 0
  end.

Definition headerLine (frame : string) : string :=
  take (Z.to_nat (payloadIndex frame)) frame.

Definition declaredByteCount (frame : string) : option nat :=
  parseDecimal (last (splitWhiteSpace (headerLine frame)) "").

Definition payloadByDeclaredLength (frame : string) : option string :=
  if (payloadIndex frame =? -1)%Z then None
  else
    match declaredByteCount frame with
    | Some n =>
        if (n <=? String.length (payloadStr frame))%nat
        then Some (take n (payloadStr frame))
        else None
    | None => None
    end.

(** *** Sample payloads, a table of [JSON.parse] on them, sample sessions *)

Definition sampleUrl : string := "wss://prod.pump.example/nats".

(** {"mint":"X","address":"Y"} *)
Definition mintPayload : string :=
  ("{" ++ q "mint" ++ ":" ++ q "X" ++ "," ++ q "address" ++ ":" ++ q "Y" ++ "}")%string.

Definition mintObject : JsValue :=
  JsObject [("mint", JsString "X"); ("address", JsString "Y")].

(** {"coinMint":"","mint":"X"} *)
Definition emptyCoinMintPayload : string :=
  ("{" ++ q "coinMint" ++ ":" ++ q "" ++ "," ++ q "mint" ++ ":" ++ q "X" ++ "}")%string.

Definition emptyCoinMintObject : JsValue :=
  JsObject [("coinMint", JsString ""); ("mint", JsString "X")].

(** {"name":"pump","address":""} *)
Definition noAliasPayload : string :=
  ("{" ++ q "name" ++ ":" ++ q "pump" ++ "," ++ q "address" ++ ":" ++ q "" ++ "}")%string.

Definition noAliasObject : JsValue :=
  JsObject [("name", JsString "pump"); ("address", JsString "")].

Fixpoint escapeQuotes (s : string) : string :=
  match s with
  | EmptyString => EmptyString
  | String c s' =>
      if Ascii.eqb c "034"%char
      then String "092"%char (String c (escapeQuotes s'))
      else String c (escapeQuotes s')
  end.

(** The JSON string whose content is [mintPayload]. *)
Definition doubleEncodedPayload : string := q (escapeQuotes mintPayload).

(** [JSON.parse] on the sample texts; no other text below is valid JSON. *)
Definition sampleParse (text : string) : option JsValue :=
  if (text =? mintPayload)%string then Some mintObject
  else if (text =? emptyCoinMintPayload)%string then Some emptyCoinMintObject
  else if (text =? noAliasPayload)%string then Some noAliasObject
  else if (text =? doubleEncodedPayload)%string then Some (JsString mintPayload)
  else if (text =? "{}")%string then Some (JsObject [])
  else None.

Definition consumer : NewTokenCallback := fun _ _ => CbReturned.

(** MSG advancedCoinGraduated 2 <bytes>, the delimiter, the payload. *)
Definition graduatedHeader (bytes : string) : string :=
  ("MSG advancedCoinGraduated 2 " ++ bytes)%string.

Definition graduatedFrame (bytes payload : string) : string :=
  (graduatedHeader bytes ++ CRLF ++ payload)%string.

(** A listener with one consumer, brought to OPERATIONAL on socket 0. *)
Definition operationalSession : Session :=
  run sampleUrl sampleParse
    [CallAddTokenCallback consumer; CallStart; SocketOpen 0;
     SocketMessage 0 ("INFO {}" ++ CRLF)%string; SocketMessage 0 ("+OK" ++ CRLF)%string]
    newListener.

End PumpFunListener.

(** ** The pool and the executor: invariants and measures *)

Module PoolInvariant.
Import Js SolanaService.

(** The index points into the pool, and the connection in use, when there
    is one, was made for the endpoint at that index. *)
Definition consistent (pool : list string) (r : RpcState) : Prop :=
  (currentRpcIndex r < List.length pool)%nat
  /\ match currentConnection r with
     | Some conn => nth_error pool (currentRpcIndex r) = Some (rpcEndpoint conn)
     | None => True
     end.

Definition isSleep (ev : Event) : bool :=
  match ev with EvSleep _ => true | _ => false end.

(** The delays awaited in a run. *)
Definition sleeps {W} (m : Machine W) : list Event := filter isSleep (events m).

(** [switchToNextRpc] called [n] times in a row. *)
Fixpoint switchTimes {E W} (validEndpoint : string -> bool) (appConfig : AppConfig)
    (n : nat) : Exec (Machine W) (Thrown E) unit :=
  match n with
  | O => ret tt
  | S n' =>
      (_ <- switchToNextRpc validEndpoint appConfig ;;
       switchTimes validEndpoint appConfig n')%exec
  end.

End PoolInvariant.

(** ** The queries built on the executor *)

Module SolanaQueries.
Import Js SolanaService.

(** [LAMPORTS_PER_SOL] *)
Definition LAMPORTS_PER_SOL : float := 1000000000%float.

(** The [TokenAmount] of the RPC API: [uiAmount] is a number or [null]. *)
Record TokenAmount : Type := {
  uiAmount : option float;
  decimals : Z
}.

(** [x > 0] for a number or [null]. *)
Definition positive (x : option float) : bool :=
  match x with
  | Some v => PrimFloat.ltb 0%float v
  | None => false
  end.

Section Queries.

(** [W]: the state of the network the calls talk to.  [PublicKey],
    [AccountInfo], [ParsedAccountInfo]: values of the web3 package that
    the module only passes on.  [newPublicKey]: the constructor of
    [PublicKey] on a string, [None] when it throws. *)
Variable W : Type.
Variable validEndpoint : string -> bool.
Variable appConfig : AppConfig.
Variables PublicKey AccountInfo ParsedAccountInfo : Type.
Variable newPublicKey : string -> option PublicKey.

(** One entry of [getParsedTokenAccountsByOwner]: [tokenAmount] is [None]
    when a link of [account.data?.parsed?.info?.tokenAmount] is missing. *)
Record ParsedTokenAccount : Type := {
  entryPubkey : PublicKey;
  entryTokenAmount : option TokenAmount;
  entryMint : string
}.

Record TokenAccount : Type := {
  pubkey : PublicKey;
  mint : PublicKey;
  accountUiAmount : option float;
  accountDecimals : Z
}.

(** A method of [Connection]: a result or a thrown error, and the
    network after the call. *)
Definition Remote (A : Type) : Type := Connection -> W -> (A + RpcError) * W.

(** [conn.getAccountInfo], the [value] of [conn.getParsedAccountInfo],
    of [conn.getTokenSupply], of [conn.getTokenAccountBalance], of
    [conn.getParsedTokenAccountsByOwner], and [conn.getBalance]. *)
Variable conn_getAccountInfo : PublicKey -> Remote (option AccountInfo).
Variable conn_getParsedAccountInfo : PublicKey -> Remote (option ParsedAccountInfo).
Variable conn_getTokenSupply : PublicKey -> Remote TokenAmount.
Variable conn_getTokenAccountBalance : PublicKey -> Remote TokenAmount.
Variable conn_getBalance : PublicKey -> Remote float.
Variable conn_getParsedTokenAccountsByOwner :
  PublicKey -> Remote (option (list ParsedTokenAccount)).

Definition Q (A : Type) : Type := Exec (Machine W) (Thrown RpcError) A.

Definition getAccountInfo (publicKey : PublicKey) : Q (option AccountInfo) :=
  try (executeRpcCall validEndpoint appConfig (conn_getAccountInfo publicKey) isRpcFailoverError)
    (fun error => ret None).

Definition getParsedAccountInfo (publicKey : PublicKey) : Q (option ParsedAccountInfo) :=
  try
    (value <- executeRpcCall validEndpoint appConfig (conn_getParsedAccountInfo publicKey)
                isRpcFailoverError ;;
     match value with
     | None => ret None
     | Some accountData => ret (Some accountData)
     end)%exec
    (fun error => ret None).

Definition getTokenSupply (mintPublicKey : PublicKey) : Q (option float) :=
  try
    (supplyInfo <- executeRpcCall validEndpoint appConfig (conn_getTokenSupply mintPublicKey)
                     isRpcFailoverError ;;
     ret (uiAmount supplyInfo))%exec
    (fun error => ret None).

Definition getTokenAccountBalance (tokenAccountPublicKey : PublicKey) : Q (option float) :=
  try
    (balanceInfo <- executeRpcCall validEndpoint appConfig
                      (conn_getTokenAccountBalance tokenAccountPublicKey)
                      isRpcFailoverError ;;
     ret (uiAmount balanceInfo))%exec
    (fun error => ret None).

Definition getSolBalance (walletPublicKey : PublicKey) : Q (option float) :=
  try
    (lamports <- executeRpcCall validEndpoint appConfig (conn_getBalance walletPublicKey)
                   isRpcFailoverError ;;
     ret (Some (PrimFloat.div lamports LAMPORTS_PER_SOL)))%exec
    (fun error => ret None).

(** The [for ... of result.value] loop: entries with a positive
    [uiAmount] are pushed, in order; a mint that [PublicKey] rejects
    throws out of the loop. *)
Fixpoint collectAccounts (entries : list ParsedTokenAccount) (accounts : list TokenAccount)
  : Q (list TokenAccount) :=
  match entries with
  | [] => ret accounts
  | acc :: rest =>
      if positive (match entryTokenAmount acc with
                   | Some amount => uiAmount amount
                   | None => None
                   end)
      then
        match newPublicKey (entryMint acc), entryTokenAmount acc with
        | Some key, Some amount =>
            collectAccounts rest
              (accounts ++ [{| pubkey := entryPubkey acc; mint := key;
                               accountUiAmount := uiAmount amount;
                               accountDecimals := decimals amount |}])
        | _, _ => throw (JsError "Invalid public key input")
        end
      else collectAccounts rest accounts
  end.

Definition getTokenAccountsByOwner (ownerPublicKey : PublicKey) : Q (list TokenAccount) :=
  try
    (result <- executeRpcCall validEndpoint appConfig
                 (conn_getParsedTokenAccountsByOwner ownerPublicKey)
                 isRpcFailoverError ;;
     match result with
     | Some value => collectAccounts value []
     | None => ret []
     end)%exec
    (fun error => ret []).

(** What the loop amounts to when every mint it reads is a valid key. *)
Definition held (acc : ParsedTokenAccount) : bool :=
  positive (match entryTokenAmount acc with
            | Some amount => uiAmount amount
            | None => None
            end).

Definition toTokenAccount (acc : ParsedTokenAccount) : option TokenAccount :=
  match newPublicKey (entryMint acc), entryTokenAmount acc with
  | Some key, Some amount =>
      Some {| pubkey := entryPubkey acc; mint := key;
              accountUiAmount := uiAmount amount;
              accountDecimals := decimals amount |}
  | _, _ => None
  end.

Fixpoint allSome {A} (l : list (option A)) : option (list A) :=
  match l with
  | [] => Some []
  | Some a :: rest => option_map (cons a) (allSome rest)
  | None :: _ => None
  end.

End Queries.

Arguments entryPubkey {PublicKey} _.
Arguments entryTokenAmount {PublicKey} _.
Arguments entryMint {PublicKey} _.
Arguments pubkey {PublicKey} _.
Arguments mint {PublicKey} _.
Arguments accountUiAmount {PublicKey} _.
Arguments accountDecimals {PublicKey} _.
Arguments held {PublicKey} acc.

(** A query that gave up: it returned its default [d] after one full
    pass over the pool, that is after [limit] calls on each of the [N]
    endpoints and [N - 1] rotations. *)
Definition gaveUp {W A} (appConfig : AppConfig)
    (query : Exec (Machine W) (Thrown RpcError) A) (d : A) (m : Machine W) : Prop :=
  exists m',
    query m = (Returned d, m')
    /\ attempts m'
       = (attempts m
          + List.length (rpcEndpoints appConfig) * Z.to_nat (rpcRetryAttempts appConfig))%nat
    /\ rotations m' = (rotations m + (List.length (rpcEndpoints appConfig) - 1))%nat.

(** *** A sample network: keys are strings, a key is valid when it has 4
    code units; the first endpoint is down. *)
Definition sampleKey (text : string) : option string :=
  if (String.length text =? 4)%nat then Some text else None.

Definition sampleEntries : list (ParsedTokenAccount string) :=
  [ {| entryPubkey := "acc1";
       entryTokenAmount := Some {| uiAmount := Some 2.5%float; decimals := 6 |};
       entryMint := "mnt1" |};
    {| entryPubkey := "acc2";
       entryTokenAmount := Some {| uiAmount := Some 0%float; decimals := 6 |};
       entryMint := "mnt2" |};
    {| entryPubkey := "acc3"; entryTokenAmount := None; entryMint := "mnt3" |};
    {| entryPubkey := "acc4";
       entryTokenAmount := Some {| uiAmount := Some 7%float; decimals := 9 |};
       entryMint := "mnt4" |} ].

Definition sampleRemote {A} (answer : A) : Connection -> unit -> (A + RpcError) * unit :=
  fun conn w =>
    if (rpcEndpoint conn =? "https://a")%string then (inr timeoutError, w)
    else (inl answer, w).

Definition downRemote {A} : Connection -> unit -> (A + RpcError) * unit :=
  fun conn w => (inr timeoutError, w).

End SolanaQueries.

(** ** The configured pool of RPC endpoints *)

Module Config.
Import Js.

Definition primaryRpc : string :=
  "https://mainnet.helius-rpc.com/?api-key=767f42d9-06c2-46f8-8031-9869035d6ce4".

(** [s.split(sep)] for a separator of one code unit. *)
Fixpoint splitOnFrom (sep : ascii) (s cur : string) : list string :=
  match s with
  | EmptyString => [cur]
  | String c s' =>
      if Ascii.eqb c sep then cur :: splitOnFrom sep s' EmptyString
      else splitOnFrom sep s' (cur ++ String c EmptyString)%string
  end.

Definition splitOn (sep : ascii) (s : string) : list string :=
  splitOnFrom sep s EmptyString.

(** [list.join(sep)] *)
Fixpoint join (sep : string) (l : list string) : string :=
  match l with
  | [] => EmptyString
  | [a] => a
  | a :: rest => (a ++ sep ++ join sep rest)%string
  end.

Definition nonEmpty (s : string) : bool := negb (s =? "")%string.

(** [rpcEndpointsList], from the value of SOLANA_RPC_ENDPOINTS ([None]
    when the variable is not set). *)
Definition rpcEndpointsList (rpcEndpointsEnv : option string) : list string :=
  let parsed :=
    match rpcEndpointsEnv with
    | Some env =>
        if nonEmpty env && negb (trim env =? "")%string
        then filter nonEmpty (map trim (splitOn ","%char env))
        else [primaryRpc]
    | None => [primaryRpc]
    end in
  if (List.length parsed =? 0)%nat then [primaryRpc] else parsed.

(** An endpoint as the parser leaves it, and one that can be written in
    the variable: no comma inside. *)
Definition trimmed (url : string) : Prop := url <> "" /\ trim url = url.

Fixpoint hasChar (c : ascii) (s : string) : bool :=
  match s with
  | EmptyString => false
  | String d s' => Ascii.eqb d c || hasChar c s'
  end.

Definition startsClean (s : string) : Prop :=
  match s with
  | EmptyString => True
  | String c _ => isWhiteSpace c = false
  end.

Definition writable (url : string) : Prop :=
  trimmed url /\ hasChar ","%char url = false.

End Config.

(** ** The session: invariants and measures *)

Module SessionInvariant.
Import Js PumpFunListener.

(** A computation that does not throw. *)
Definition succeeds {A} (m : L A) : Prop :=
  forall s, exists a, fst (m s) = Returned a.

(** The timers of a session. *)
Definition timerFields (s : Session) : option nat * option nat * list nat * nat :=
  (pingIntervalId s, clientKeepAliveIntervalId s, intervals s, nextTimer s).

Definition keepsTimers {A} (m : L A) : Prop :=
  forall s, timerFields (snd (m s)) = timerFields s.

(** No interval is running but the keep-alive the listener knows of. *)
Definition tidyTimers (s : Session) : Prop :=
  pingIntervalId s = None
  /\ intervals s
     = match clientKeepAliveIntervalId s with
       | Some t => [t]
       | None => []
       end.

(** A computation under which tidy timers stay tidy. *)
Definition staysTidy {A} (m : L A) : Prop :=
  forall s, tidyTimers s -> tidyTimers (snd (m s)).

Definition isSend (e : Effect) : bool :=
  match e with Send _ _ => true | _ => false end.

(** What was written to the sockets. *)
Definition sent (s : Session) : list Effect := filter isSend (effects s).

(** The three SUB commands, as written to socket [id]. *)
Definition subscriptions (id : nat) : list Effect :=
  [Send id ("SUB coinImageUpdated.> 1" ++ CRLF)%string;
   Send id ("SUB advancedCoinGraduated 2" ++ CRLF)%string;
   Send id ("SUB advancedNewCoinCreated 3" ++ CRLF)%string].

(** A consumer that throws. *)
Definition failingConsumer : NewTokenCallback :=
  fun _ _ => CbThrew (JsString "consumer failed").

(** A listener with three consumers, the second of which throws, brought
    to OPERATIONAL on socket 0. *)
Definition crowdedSession : Session :=
  run sampleUrl sampleParse
    [CallAddTokenCallback consumer; CallAddTokenCallback failingConsumer;
     CallAddTokenCallback consumer; CallStart; SocketOpen 0;
     SocketMessage 0 ("INFO {}" ++ CRLF)%string; SocketMessage 0 ("+OK" ++ CRLF)%string]
    newListener.

(** A listener whose socket has just opened. *)
Definition waitingSession : Session :=
  run sampleUrl sampleParse [CallStart; SocketOpen 0] newListener.

End SessionInvariant.

(** * Properties of the failover executor *)

Module SolanaServiceProofs.
Import SolanaService.

Ltac exec_unfold :=
  unfold bind, ret, throw, gets, modify, emit, setRpc, attemptAction,
    createConnection in *.

Ltac count_events :=
  unfold attempts, rotations in *;
  cbn [events rpc world totalAttemptsAcrossRpcs] in *;
  repeat rewrite ?filter_app, ?length_app in *;
  cbn [filter isAttempt isSwitch List.length] in *;
  try lia.

Section ExecutorFacts.

Variables T E W : Type.
Variable validEndpoint : string -> bool.
Variable appConfig : AppConfig.
Variable action : Connection -> W -> (T + E) * W.
Variable isFailoverErrorCheck : E -> bool.

Local Notation "'Mach'" := (Machine W).
Local Notation "'R'" := (rpcRetryAttempts appConfig).
Local Notation "'pool'" := (rpcEndpoints appConfig).

Lemma attempts_snoc (m : Mach) ev rp (w : W) n :
  attempts {| rpc := rp; world := w; totalAttemptsAcrossRpcs := n;
              events := events m ++ [ev] |}
  = (attempts m + if isAttempt ev then 1 else 0)%nat.
Proof.
  unfold attempts; simpl. rewrite filter_app, length_app. simpl.
  destruct (isAttempt ev); reflexivity.
Qed.

Lemma rotations_snoc (m : Mach) ev rp (w : W) n :
  rotations {| rpc := rp; world := w; totalAttemptsAcrossRpcs := n;
               events := events m ++ [ev] |}
  = (rotations m + if isSwitch ev then 1 else 0)%nat.
Proof.
  unfold rotations; simpl. rewrite filter_app, length_app. simpl.
  destruct (isSwitch ev); reflexivity.
Qed.

Lemma getSolanaConnection_ok (m : Mach) conn :
  pool <> [] ->
  currentEndpoint validEndpoint appConfig (rpc m) = Some conn ->
  exists m',
    getSolanaConnection (E:=E) validEndpoint appConfig m = (Returned conn, m')
    /\ currentConnection (rpc m') = Some conn
    /\ currentRpcIndex (rpc m') = currentRpcIndex (rpc m)
    /\ world m' = world m
    /\ totalAttemptsAcrossRpcs m' = totalAttemptsAcrossRpcs m
    /\ events m' = events m.
Proof.
  intros Hne Hcur. unfold getSolanaConnection, currentEndpoint in *.
  exec_unfold.
  destruct (currentConnection (rpc m)) as [c|] eqn:Hc.
  - inversion Hcur; subst. exists m. repeat split; assumption.
  - destruct pool as [|u us] eqn:Hp; [congruence|]. simpl List.length. simpl Nat.eqb.
    destruct (nth_error (u :: us) (currentRpcIndex (rpc m))) as [url|]; [|discriminate].
    destruct (validEndpoint url); [|discriminate].
    inversion Hcur; subst.
    eexists; split; [reflexivity|]. simpl. repeat split.
Qed.

Lemma switchToNextRpc_ok (m : Mach) :
  pool <> [] ->
  poolAccepted validEndpoint appConfig ->
  exists url m',
    switchToNextRpc (E:=E) validEndpoint appConfig m = (Returned {| rpcEndpoint := url |}, m')
    /\ nth_error pool ((currentRpcIndex (rpc m) + 1) mod List.length pool) = Some url
    /\ rpc m' = {| currentConnection := Some {| rpcEndpoint := url |};
                   currentRpcIndex := (currentRpcIndex (rpc m) + 1) mod List.length pool |}
    /\ world m' = world m
    /\ totalAttemptsAcrossRpcs m' = totalAttemptsAcrossRpcs m
    /\ events m' = events m
         ++ [EvSwitch ((currentRpcIndex (rpc m) + 1) mod List.length pool)].
Proof.
  intros Hne Hok. unfold switchToNextRpc. exec_unfold.
  assert (Hpos : List.length pool <> 0%nat).
  { destruct pool; [congruence|discriminate]. }
  apply Nat.eqb_neq in Hpos as Hb. rewrite Hb.
  set (index := ((currentRpcIndex (rpc m) + 1) mod List.length pool)%nat).
  assert (Hlt : (index < List.length pool)%nat)
    by (apply Nat.mod_upper_bound; assumption).
  apply nth_error_Some in Hlt.
  destruct (nth_error pool index) as [url|] eqn:Hn; [|congruence].
  assert (Hurl : validEndpoint url = true).
  { unfold poolAccepted in Hok. rewrite Forall_forall in Hok.
    apply Hok. eapply nth_error_In. exact Hn. }
  rewrite Hurl.
  exists url. eexists. split; [reflexivity|].
  cbn [rpc world events totalAttemptsAcrossRpcs]. repeat split.
Qed.

Lemma attemptLoop_always_failing (k : nat) :
  alwaysFailsRetriable action isFailoverErrorCheck ->
  forall (attempt cycle : Z) (conn : Connection) (m : Mach),
    (attempt + Z.of_nat (S k) = R)%Z ->
    exists e m' w0,
      attemptLoop appConfig action isFailoverErrorCheck (S k) attempt cycle conn m
      = ((if (cycle <? N appConfig - 1)%Z
          then Returned FlowBreak else Threw (ActionError e)), m')
      /\ action conn w0 = (inr e, world m')
      /\ isFailoverErrorCheck e = true
      /\ rpc m' = rpc m
      /\ attempts m' = (attempts m + S k)%nat
      /\ totalAttemptsAcrossRpcs m' = (totalAttemptsAcrossRpcs m + S k)%nat
      /\ rotations m' = rotations m.
Proof.
  intros Hfail. induction k as [|k IH]; intros attempt cycle conn m Hk.
  - simpl. exec_unfold.
    destruct (Hfail conn (world m)) as [e [He Hr]].
    destruct (action conn (world m)) as [r w'] eqn:Ha. simpl in He. subst r.
    replace (attempt <? R - 1)%Z with false by (symmetry; apply Z.ltb_ge; lia).
    rewrite Hr. simpl andb.
    exists e. eexists. exists (world m).
    split.
    { destruct (cycle <? N appConfig - 1)%Z; reflexivity. }
    rewrite Ha. simpl. rewrite attempts_snoc, rotations_snoc. simpl.
    repeat split; auto; lia.
  - change (attemptLoop appConfig action isFailoverErrorCheck (S (S k)) attempt cycle conn m)
      with ((r <- attemptAction action conn ;;
             match r with
             | inl v => ret (FlowReturn v)
             | inr error =>
                 if (attempt <? R - 1)%Z then
                   if isFailoverErrorCheck error then
                     emit (EvSleep (rpcRetryDelayMs appConfig)) ;;
                     attemptLoop appConfig action isFailoverErrorCheck (S k)
                       (attempt + 1)%Z cycle conn
                   else throw (ActionError error)
                 else if isFailoverErrorCheck error && (cycle <? N appConfig - 1)%Z then
                   ret FlowBreak
                 else throw (ActionError error)
             end)%exec m).
    unfold bind at 1. unfold attemptAction.
    destruct (Hfail conn (world m)) as [e [He Hr]].
    destruct (action conn (world m)) as [r w'] eqn:Ha. simpl in He. subst r.
    replace (attempt <? R - 1)%Z with true by (symmetry; apply Z.ltb_lt; lia).
    rewrite Hr. unfold bind at 1. unfold emit, modify. 
    match goal with
    | |- context [attemptLoop _ _ _ (S k) ?a ?c ?cn ?mm] =>
        destruct (IH a c cn mm) as [e' [m' [w0 [Hrun [Hact [Hre [Hrpc [Hat [Htot Hrot]]]]]]]]];
          [lia|]
    end.
    exists e', m', w0. rewrite Hrun.
    rewrite Hat, Htot, Hrot, Hrpc.
    repeat split; auto; count_events.
Qed.

Lemma attemptLoop_non_retriable
    (n : nat) (attempt cycle : Z) (conn : Connection) (m : Mach) (e : E) :
  fst (action conn (world m)) = inr e ->
  isFailoverErrorCheck e = false ->
  attemptLoop appConfig action isFailoverErrorCheck (S n) attempt cycle conn m
  = (Threw (ActionError e),
     {| rpc := rpc m; world := snd (action conn (world m));
        totalAttemptsAcrossRpcs := S (totalAttemptsAcrossRpcs m);
        events := events m ++ [EvAttempt conn] |}).
Proof.
  intros Hact Hchk. cbn [attemptLoop]. unfold bind at 1. unfold attemptAction.
  destruct (action conn (world m)) as [res w'] eqn:Ha. cbn [fst] in Hact. subst res.
  rewrite Hchk. cbn [andb snd].
  destruct (attempt <? R - 1)%Z; reflexivity.
Qed.

Lemma cycleLoop_unfold (k : nat) (cycle : Z) (m : Mach) :
  cycleLoop validEndpoint appConfig action isFailoverErrorCheck (S k) cycle m
  = (conn <- getSolanaConnection validEndpoint appConfig ;;
     flow <- attemptLoop appConfig action isFailoverErrorCheck
               (Z.to_nat R) 0 cycle conn ;;
     match flow with
     | FlowReturn v => ret v
     | FlowBreak | FlowDone =>
         (if (cycle <? N appConfig - 1)%Z
          then (_ <- switchToNextRpc validEndpoint appConfig ;; ret tt)
          else ret tt) ;;
         cycleLoop validEndpoint appConfig action isFailoverErrorCheck k (cycle + 1)%Z
     end)%exec m.
Proof. reflexivity. Qed.

Lemma cycleLoop_always_failing (k : nat) :
  alwaysFailsRetriable action isFailoverErrorCheck ->
  pool <> [] ->
  poolAccepted validEndpoint appConfig ->
  (1 <= R)%Z ->
  forall (cycle : Z) (m : Mach) (conn : Connection),
    (cycle + Z.of_nat (S k) = N appConfig)%Z ->
    currentEndpoint validEndpoint appConfig (rpc m) = Some conn ->
    exists e m' c0 w0,
      cycleLoop validEndpoint appConfig action isFailoverErrorCheck (S k) cycle m
      = (Threw (ActionError e), m')
      /\ action c0 w0 = (inr e, world m')
      /\ isFailoverErrorCheck e = true
      /\ attempts m' = (attempts m + S k * Z.to_nat R)%nat
      /\ totalAttemptsAcrossRpcs m'
         = (totalAttemptsAcrossRpcs m + S k * Z.to_nat R)%nat
      /\ rotations m' = (rotations m + k)%nat.
Proof.
  intros Hfail Hne Hok HR.
  destruct (Z.to_nat R) as [|r] eqn:Hr; [lia|].
  induction k as [|k IH]; intros cycle m conn Hc Hcur; rewrite cycleLoop_unfold, Hr.
  - destruct (getSolanaConnection_ok m conn Hne Hcur)
      as [m1 [Hg [_ [_ [Hw1 [Ht1 He1]]]]]].
    unfold bind at 1. rewrite Hg.
    destruct (attemptLoop_always_failing r Hfail 0 cycle conn m1)
      as [e [m2 [w0 [Hrun [Hact [Hre [Hrpc [Hat [Htot Hrot]]]]]]]]]; [lia|].
    unfold bind at 1. rewrite Hrun.
    replace (cycle <? N appConfig - 1)%Z with false by (symmetry; apply Z.ltb_ge; lia).
    exists e, m2, conn, w0. split; [reflexivity|].
    repeat split; auto.
    + rewrite Hat. unfold attempts. rewrite He1. lia.
    + rewrite Htot, Ht1. lia.
    + rewrite Hrot. unfold rotations. rewrite He1. lia.
  - destruct (getSolanaConnection_ok m conn Hne Hcur)
      as [m1 [Hg [_ [_ [Hw1 [Ht1 He1]]]]]].
    unfold bind at 1. rewrite Hg.
    destruct (attemptLoop_always_failing r Hfail 0 cycle conn m1)
      as [e [m2 [w0 [Hrun [Hact [Hre [Hrpc [Hat [Htot Hrot]]]]]]]]]; [lia|].
    unfold bind at 1. rewrite Hrun.
    replace (cycle <? N appConfig - 1)%Z with true by (symmetry; apply Z.ltb_lt; lia).
    destruct (switchToNextRpc_ok m2 Hne Hok) as [url [m3 [Hsw [_ [Hrpc3 [Hw3 [Ht3 He3]]]]]]].
    unfold bind at 1. unfold bind at 1. rewrite Hsw. unfold ret at 1.
    destruct (IH (cycle + 1)%Z m3 {| rpcEndpoint := url |})
      as [e' [m4 [c0 [w1 [Hrun4 [Hact4 [Hre4 [Hat4 [Htot4 Hrot4]]]]]]]]].
    { lia. }
    { unfold currentEndpoint. rewrite Hrpc3. reflexivity. }
    rewrite Hrun4.
    exists e', m4, c0, w1. split; [reflexivity|].
    repeat split; auto.
    + rewrite Hat4. unfold attempts in *. rewrite He3.
      rewrite filter_app, length_app. cbn [filter isAttempt List.length].
      rewrite Hat, He1. lia.
    + rewrite Htot4, Ht3, Htot, Ht1. lia.
    + rewrite Hrot4. unfold rotations in *. rewrite He3.
      rewrite filter_app, length_app. cbn [filter isSwitch List.length].
      rewrite Hrot, He1. lia.
Qed.

Lemma cycleLoop_no_attempts (k : nat) :
  pool <> [] ->
  poolAccepted validEndpoint appConfig ->
  (R <= 0)%Z ->
  forall (cycle : Z) (m : Mach) (conn : Connection),
    (cycle + Z.of_nat k = N appConfig)%Z ->
    (k <> 0%nat -> currentEndpoint validEndpoint appConfig (rpc m) = Some conn) ->
    exists m',
      cycleLoop validEndpoint appConfig action isFailoverErrorCheck k cycle m
      = (Threw ExhaustedFailoverError, m')
      /\ attempts m' = attempts m
      /\ world m' = world m.
Proof.
  intros Hne Hok HR.
  assert (Hr : Z.to_nat R = 0%nat) by lia.
  induction k as [|k IH]; intros cycle m conn Hc Hcur.
  - exists m. repeat split.
  - rewrite cycleLoop_unfold, Hr.
    destruct (getSolanaConnection_ok m conn Hne (Hcur (Nat.neq_succ_0 k)))
      as [m1 [Hg [_ [_ [Hw1 [Ht1 He1]]]]]].
    unfold bind at 1. rewrite Hg.
    cbn [attemptLoop]. unfold bind at 1. unfold ret at 1.
    destruct (cycle <? N appConfig - 1)%Z eqn:Hlt.
    + destruct (switchToNextRpc_ok m1 Hne Hok) as [url [m3 [Hsw [_ [Hrpc3 [Hw3 [Ht3 He3]]]]]]].
      unfold bind at 1. unfold bind at 1. rewrite Hsw. unfold ret at 1.
      destruct (IH (cycle + 1)%Z m3 {| rpcEndpoint := url |}) as [m4 [Hrun [Hat Hw]]].
      { lia. }
      { intros _. unfold currentEndpoint. rewrite Hrpc3. reflexivity. }
      rewrite Hrun. exists m4. split; [reflexivity|]. split.
      * rewrite Hat. unfold attempts. rewrite He3, filter_app, length_app, He1.
        cbn [filter isAttempt List.length]. lia.
      * congruence.
    + (* the guard only fails on the last cycle *)
      apply Z.ltb_ge in Hlt.
      destruct k as [|k']; [|lia].
      unfold bind at 1. unfold ret at 1.
      exists m1. split; [reflexivity|]. split; [|assumption].
      unfold attempts. rewrite He1. reflexivity.
Qed.

(** With an attempt limit of zero or less no attempt is made, and the
    run ends in the fallback [ExhaustedFailoverError]. *)
Lemma executeRpcCall_without_attempts (r : RpcState) (w : W) (conn : Connection) :
  pool <> [] ->
  poolAccepted validEndpoint appConfig ->
  (R <= 0)%Z ->
  currentEndpoint validEndpoint appConfig r = Some conn ->
  exists m',
    executeRpcCall validEndpoint appConfig action isFailoverErrorCheck (machine r w)
    = (Threw ExhaustedFailoverError, m')
    /\ attempts m' = 0%nat.
Proof.
  intros Hne Hok HR Hcur. unfold executeRpcCall.
  destruct (cycleLoop_no_attempts (List.length pool) Hne Hok HR 0 (machine r w) conn)
    as [m' [Hrun [Hat _]]].
  - unfold N. lia.
  - intros _. exact Hcur.
  - exists m'. split; [exact Hrun|]. rewrite Hat. reflexivity.
Qed.

(** C1 (amended): with a non-empty pool of N endpoints, each of which
    the constructor of [Connection] accepts, and an attempt limit of at
    least 1, an action that fails on every attempt with a retriable error
    is tried exactly N * limit times, the pool is rotated N - 1 times,
    and the run then fails with the error thrown by the last attempt (not
    with the fallback error). *)
Theorem executeRpcCall_always_failing (r : RpcState) (w : W) (conn : Connection) :
  alwaysFailsRetriable action isFailoverErrorCheck ->
  pool <> [] ->
  poolAccepted validEndpoint appConfig ->
  (1 <= R)%Z ->
  currentEndpoint validEndpoint appConfig r = Some conn ->
  exists e m' c0 w0,
    executeRpcCall validEndpoint appConfig action isFailoverErrorCheck (machine r w)
    = (Threw (ActionError e), m')
    /\ action c0 w0 = (inr e, world m')
    /\ isFailoverErrorCheck e = true
    /\ attempts m' = (List.length pool * Z.to_nat R)%nat
    /\ totalAttemptsAcrossRpcs m' = (List.length pool * Z.to_nat R)%nat
    /\ rotations m' = (List.length pool - 1)%nat.
Proof.
  intros Hfail Hne Hok HR Hcur. unfold executeRpcCall.
  destruct (List.length pool) as [|k] eqn:Hlen.
  { destruct pool; [congruence|discriminate]. }
  destruct (cycleLoop_always_failing k Hfail Hne Hok HR 0 (machine r w) conn)
    as [e [m' [c0 [w0 [Hrun [Hact [Hre [Hat [Htot Hrot]]]]]]]]].
  - unfold N. rewrite Hlen. lia.
  - exact Hcur.
  - exists e, m', c0, w0. split; [exact Hrun|].
    repeat split; auto.
    + rewrite Hrot. simpl. lia.
Qed.

(** C5: when the first attempt of the action fails with an error the
    check rejects, the run throws that same error after exactly one
    attempt, on the current endpoint, without rotating the pool.  The
    first attempt exists when the pool is not empty, the limit is at
    least 1 and the module has a connection to make the attempt on:
    [currentEndpoint r = Some conn] says that it holds [conn] already or
    that the constructor of [Connection] accepts the endpoint at the
    index and returns [conn]. *)
Theorem executeRpcCall_non_retriable_first
    (r : RpcState) (w : W) (conn : Connection) (e : E) :
  pool <> [] ->
  (1 <= R)%Z ->
  currentEndpoint validEndpoint appConfig r = Some conn ->
  fst (action conn w) = inr e ->
  isFailoverErrorCheck e = false ->
  exists m',
    executeRpcCall validEndpoint appConfig action isFailoverErrorCheck (machine r w)
    = (Threw (ActionError e), m')
    /\ events m' = [EvAttempt conn]
    /\ attempts m' = 1%nat
    /\ rotations m' = 0%nat
    /\ currentRpcIndex (rpc m') = currentRpcIndex r
    /\ world m' = snd (action conn w).
Proof.
  intros Hne HR Hcur Hact Hchk. unfold executeRpcCall.
  destruct (List.length pool) as [|k] eqn:Hlen.
  { destruct pool; [congruence|discriminate]. }
  rewrite cycleLoop_unfold.
  destruct (getSolanaConnection_ok (machine r w) conn Hne Hcur)
    as [m1 [Hg [_ [Hi1 [Hw1 [Ht1 He1]]]]]].
  change {| rpc := rpc (machine r w); world := world (machine r w);
            totalAttemptsAcrossRpcs := 0; events := events (machine r w) |}
    with (machine r w).
  unfold bind at 1. rewrite Hg.
  destruct (Z.to_nat R) as [|n] eqn:Hn; [lia|].
  unfold bind at 1.
  rewrite (attemptLoop_non_retriable n 0 0 conn m1 e);
    [| rewrite Hw1; exact Hact | exact Hchk].
  eexists. split; [reflexivity|].
  unfold attempts, rotations. cbn [events rpc world].
  rewrite He1, Hw1. cbn [machine events world app filter isAttempt isSwitch List.length].
  repeat split; try reflexivity. exact Hi1.
Qed.

End ExecutorFacts.

(** C6: pool [A; B] of two endpoints the constructor of [Connection]
    accepts, two attempts per endpoint, a fresh module state; an action
    that fails with a retriable error whenever it is run against A and
    succeeds against B is attempted exactly three times (A, A, B), the
    pool ends on B, and the run returns the value of the third
    attempt. *)
Theorem executeRpcCall_failover_scenario
    (T E W : Type) (validEndpoint : string -> bool) (appConfig : AppConfig)
    (action : Connection -> W -> (T + E) * W)
    (isFailoverErrorCheck : E -> bool) (A B : string) (w : W) :
  rpcEndpoints appConfig = [A; B] ->
  validEndpoint A = true ->
  validEndpoint B = true ->
  rpcRetryAttempts appConfig = 2%Z ->
  (forall conn w, rpcEndpoint conn = A ->
     exists e, fst (action conn w) = inr e /\ isFailoverErrorCheck e = true) ->
  (forall conn w, rpcEndpoint conn = B -> exists v, fst (action conn w) = inl v) ->
  exists v m' w2,
    executeRpcCall validEndpoint appConfig action isFailoverErrorCheck (machine initialRpcState w)
    = (Returned v, m')
    /\ action {| rpcEndpoint := B |} w2 = (inl v, world m')
    /\ attempts m' = 3%nat
    /\ totalAttemptsAcrossRpcs m' = 3%nat
    /\ rpc m' = {| currentConnection := Some {| rpcEndpoint := B |};
                   currentRpcIndex := 1 |}
    /\ events m' = [EvAttempt {| rpcEndpoint := A |};
                    EvSleep (rpcRetryDelayMs appConfig);
                    EvAttempt {| rpcEndpoint := A |};
                    EvSwitch 1;
                    EvAttempt {| rpcEndpoint := B |}].
Proof.
  intros Hpool HvA HvB HR HA HB.
  destruct appConfig as [pool R delay]. cbn in Hpool, HR. subst pool R.
  destruct (HA {| rpcEndpoint := A |} w eq_refl) as [e1 [H1 Hc1]].
  destruct (action {| rpcEndpoint := A |} w) as [r1 w1] eqn:Ha1.
  cbn in H1. subst r1.
  destruct (HA {| rpcEndpoint := A |} w1 eq_refl) as [e2 [H2 Hc2]].
  destruct (action {| rpcEndpoint := A |} w1) as [r2 w2] eqn:Ha2.
  cbn in H2. subst r2.
  destruct (HB {| rpcEndpoint := B |} w2 eq_refl) as [v H3].
  destruct (action {| rpcEndpoint := B |} w2) as [r3 w3] eqn:Ha3.
  cbn in H3. subst r3.
  exists v. eexists. exists w2.
  split.
  { cbv. rewrite HvA. cbv. rewrite Ha1, Hc1. cbv. rewrite Ha2, Hc2. cbv.
    rewrite HvB. cbv. rewrite Ha3. reflexivity. }
  cbn. rewrite Ha3. repeat split.
Qed.

(** Witness of C6. *)
Lemma executeRpcCall_failover_scenario_witness :
  exists v m' w2,
    executeRpcCall
      httpEndpoint {| rpcEndpoints := ["https://a"; "https://b"];
         rpcRetryAttempts := 2; rpcRetryDelayMs := 1000 |}
      (answeredBy "https://b") isRpcFailoverError (machine initialRpcState tt)
    = (Returned v, m')
    /\ answeredBy "https://b" {| rpcEndpoint := "https://b" |} w2 = (inl v, world m')
    /\ attempts m' = 3%nat
    /\ totalAttemptsAcrossRpcs m' = 3%nat
    /\ rpc m' = {| currentConnection := Some {| rpcEndpoint := "https://b" |};
                   currentRpcIndex := 1 |}
    /\ events m' = [EvAttempt {| rpcEndpoint := "https://a" |};
                    EvSleep 1000;
                    EvAttempt {| rpcEndpoint := "https://a" |};
                    EvSwitch 1;
                    EvAttempt {| rpcEndpoint := "https://b" |}].
Proof.
  apply (executeRpcCall_failover_scenario nat RpcError unit httpEndpoint
           {| rpcEndpoints := ["https://a"; "https://b"];
              rpcRetryAttempts := 2; rpcRetryDelayMs := 1000 |}
           (answeredBy "https://b") isRpcFailoverError
           "https://a" "https://b" tt).
  - reflexivity.
  - reflexivity.
  - reflexivity.
  - reflexivity.
  - intros conn w Hc. exists timeoutError. unfold answeredBy. rewrite Hc.
    split; reflexivity.
  - intros conn w Hc. exists 42%nat. unfold answeredBy. rewrite Hc.
    reflexivity.
Defined.

(** Witness of C1 (amended): two endpoints, the default limit of 3. *)
Lemma executeRpcCall_always_failing_witness :
  exists e m' c0 w0,
    executeRpcCall httpEndpoint (defaultConfig ["https://a"; "https://b"]) unreachable
      isRpcFailoverError (machine initialRpcState tt)
    = (Threw (ActionError e), m')
    /\ unreachable c0 w0 = (inr e, world m')
    /\ isRpcFailoverError e = true
    /\ attempts m' = 6%nat
    /\ totalAttemptsAcrossRpcs m' = 6%nat
    /\ rotations m' = 1%nat.
Proof.
  apply (executeRpcCall_always_failing nat RpcError unit httpEndpoint
           (defaultConfig ["https://a"; "https://b"]) unreachable
           isRpcFailoverError initialRpcState tt
           {| rpcEndpoint := "https://a" |}).
  - intros conn w. exists timeoutError. split; reflexivity.
  - discriminate.
  - repeat constructor.
  - simpl. lia.
  - reflexivity.
Defined.

(** C1 as stated fails: with two endpoints and the default limit, the six
    attempts are made, but the run ends in the action's own error and not
    in [ExhaustedFailoverError]. *)
Lemma executeRpcCall_exhausted_counterexample :
  let run := executeRpcCall httpEndpoint (defaultConfig ["https://a"; "https://b"]) unreachable
               isRpcFailoverError (machine initialRpcState tt) in
  attempts (snd run) = 6%nat
  /\ fst run = Threw (ActionError timeoutError)
  /\ fst run <> Threw ExhaustedFailoverError.
Proof.
  vm_compute. repeat split. discriminate.
Qed.

(** Witness of C5. *)
Lemma executeRpcCall_non_retriable_first_witness :
  exists m',
    executeRpcCall httpEndpoint (defaultConfig ["https://a"; "https://b"]) rejected
      isRpcFailoverError (machine initialRpcState tt)
    = (Threw (ActionError invalidParamError), m')
    /\ events m' = [EvAttempt {| rpcEndpoint := "https://a" |}]
    /\ attempts m' = 1%nat
    /\ rotations m' = 0%nat
    /\ currentRpcIndex (rpc m') = 0%nat
    /\ world m' = tt.
Proof.
  apply (executeRpcCall_non_retriable_first nat RpcError unit httpEndpoint
           (defaultConfig ["https://a"; "https://b"]) rejected
           isRpcFailoverError initialRpcState tt
           {| rpcEndpoint := "https://a" |} invalidParamError).
  - discriminate.
  - simpl. lia.
  - reflexivity.
  - reflexivity.
  - reflexivity.
Defined.

End SolanaServiceProofs.

(** * Properties of the listener *)

Module PumpFunListenerProofs.
Import Js PumpFunListener.

(** ** Strings *)

Lemma startsWith_append (sub rest : string) :
  startsWith (sub ++ rest)%string sub = true.
Proof.
  induction sub as [|c sub IH]; [reflexivity|].
  simpl. rewrite Ascii.eqb_refl. exact IH.
Qed.

Lemma drop_append (h rest : string) :
  drop (String.length h) (h ++ rest)%string = rest.
Proof. induction h as [|c h IH]; [reflexivity|exact IH]. Qed.

(** A header without CRLF cannot make one with the delimiter behind it:
    the delimiter starts with CR, not LF. *)
Lemma indexOfFrom_first_delimiter (header rest : string) (i : Z) :
  includes header CRLF = false ->
  indexOfFrom (header ++ CRLF ++ rest)%string CRLF i
  = (i + Z.of_nat (String.length header))%Z.
Proof.
  revert i. induction header as [|c h IH]; intros i Hno.
  - simpl. unfold CR, LF. simpl. lia.
  - cbn [includes] in Hno. apply orb_false_iff in Hno as [Hs Hi].
    cbn [String.append indexOfFrom].
    assert (Hhead : startsWith (String c (h ++ CRLF ++ rest)) CRLF = false).
    { destruct h as [|d h'].
      - unfold CRLF. cbn [startsWith String.append].
        replace (Ascii.eqb LF CR) with false by reflexivity.
        apply andb_false_r.
      - unfold CRLF in *. cbn [startsWith String.append] in *. exact Hs. }
    rewrite Hhead, (IH (i + 1)%Z Hi).
    cbn [String.length]. lia.
Qed.

(** ** Where the payload of a frame starts and ends *)

Lemma payloadIndex_first_delimiter (header payload : string) :
  includes header CRLF = false ->
  payloadIndex (header ++ CRLF ++ payload)%string = Z.of_nat (String.length header).
Proof.
  intros Hno. unfold payloadIndex, indexOf.
  rewrite indexOfFrom_first_delimiter by assumption. lia.
Qed.

(** For a message made of a header line without CRLF, a CRLF and a
    payload, what follows the first CRLF is the payload, with every CRLF
    it contains. *)
Lemma payloadStr_after_first_delimiter (header payload : string) :
  includes header CRLF = false ->
  payloadIndex (header ++ CRLF ++ payload)%string = Z.of_nat (String.length header)
  /\ payloadStr (header ++ CRLF ++ payload)%string = payload
  /\ forall n, (String.length (payloadStr (header ++ CRLF ++ payload)%string) = n
                <-> String.length payload = n).
Proof.
  intros Hno.
  assert (Hp : payloadStr (header ++ CRLF ++ payload)%string = payload).
  { unfold payloadStr, substring.
    rewrite payloadIndex_first_delimiter by assumption.
    replace (Z.to_nat (Z.of_nat (String.length header) + 2))
      with (String.length (header ++ CRLF)%string).
    - replace (header ++ CRLF ++ payload)%string
        with ((header ++ CRLF) ++ payload)%string.
      + apply drop_append.
      + clear. induction header as [|c h IH]; [reflexivity|].
        cbn [String.append]. rewrite IH. reflexivity.
    - clear. induction header as [|c h IH]; [reflexivity|].
      cbn [String.append String.length]. rewrite IH. lia. }
  split; [apply payloadIndex_first_delimiter; assumption|].
  split; [exact Hp|].
  intros n. rewrite Hp. reflexivity.
Qed.


(** ** Computations that only write to the trace *)

Ltac l_unfold :=
  unfold log, effect, bind, ret, throw, gets, modify, try in *.

Lemma quiet_ret {A} (a : A) : quiet (ret a).
Proof. intros s. reflexivity. Qed.

Lemma quiet_throw {A} (x : JsException) : quiet (throw (A:=A) x).
Proof. intros s. reflexivity. Qed.

Lemma quiet_gets {A} (f : Session -> A) : quiet (gets f).
Proof. intros s. reflexivity. Qed.

Lemma quiet_effect (e : Effect) : quiet (effect e).
Proof. intros s. reflexivity. Qed.

Lemma quiet_log level text : quiet (log level text).
Proof. apply quiet_effect. Qed.

Lemma quiet_bind {A B} (m : L A) (k : A -> L B) :
  quiet m -> (forall a, quiet (k a)) -> quiet (bind m k).
Proof.
  intros Hm Hk s. unfold bind. specialize (Hm s).
  destruct (m s) as [[a|x] s1]; cbn [snd] in *.
  - rewrite (Hk a s1). exact Hm.
  - exact Hm.
Qed.

Lemma quiet_try {A} (m : L A) (h : JsException -> L A) :
  quiet m -> (forall x, quiet (h x)) -> quiet (try m h).
Proof.
  intros Hm Hh s. unfold try. specialize (Hm s).
  destruct (m s) as [[a|x] s1]; cbn [snd] in *.
  - exact Hm.
  - rewrite (Hh x s1). exact Hm.
Qed.

Lemma silent_ret {A} (a : A) : silent (ret a).
Proof. intros s. reflexivity. Qed.

Lemma silent_throw {A} (x : JsException) : silent (throw (A:=A) x).
Proof. intros s. reflexivity. Qed.

Lemma silent_gets {A} (f : Session -> A) : silent (gets f).
Proof. intros s. reflexivity. Qed.

Lemma invocations_add_effect (e : Effect) (s : Session) :
  isInvoke e = false -> invocations (add_effect e s) = invocations s.
Proof.
  intros He. unfold invocations. cbn. rewrite filter_app. cbn.
  rewrite He. apply app_nil_r.
Qed.

Lemma silent_effect (e : Effect) : isInvoke e = false -> silent (effect e).
Proof. intros He s. apply invocations_add_effect. exact He. Qed.

Lemma silent_log level text : silent (log level text).
Proof. apply silent_effect. reflexivity. Qed.

Lemma silent_bind {A B} (m : L A) (k : A -> L B) :
  silent m -> (forall a, silent (k a)) -> silent (bind m k).
Proof.
  intros Hm Hk s. unfold bind. specialize (Hm s).
  destruct (m s) as [[a|x] s1]; cbn [snd] in *.
  - rewrite (Hk a s1). exact Hm.
  - exact Hm.
Qed.

Create HintDb listener.

#[local] Hint Resolve quiet_ret quiet_throw quiet_gets quiet_effect quiet_log
  silent_ret silent_throw silent_gets silent_log : listener.

Section ListenerFacts.

Variable JSON_parse : string -> option JsValue.

Lemma jsonParse_quiet text : quiet (jsonParse JSON_parse text).
Proof.
  unfold jsonParse. apply quiet_bind; [auto with listener|].
  intros _. destruct (JSON_parse text); auto with listener.
Qed.

Lemma jsonParse_silent text : silent (jsonParse JSON_parse text).
Proof.
  unfold jsonParse. apply silent_bind; [apply silent_effect; reflexivity|].
  intros _. destruct (JSON_parse text); auto with listener.
Qed.

Lemma parsedPayload_quiet payload : quiet (parsedPayload JSON_parse payload).
Proof.
  unfold parsedPayload. apply quiet_bind; [apply jsonParse_quiet|].
  intros first. destruct first; auto with listener.
  apply quiet_bind; [auto with listener|]. intros _. apply jsonParse_quiet.
Qed.

Lemma parsedPayload_silent payload : silent (parsedPayload JSON_parse payload).
Proof.
  unfold parsedPayload. apply silent_bind; [apply jsonParse_silent|].
  intros first. destruct first; auto with listener.
  apply silent_bind; [auto with listener|]. intros _. apply jsonParse_silent.
Qed.

(** Reading the aliases leaves the session as it is. *)
Lemma tokenAddress_pure (tokenData : JsValue) (s : Session) :
  snd (tokenAddress tokenData s) = s.
Proof.
  unfold tokenAddress, readProperty, orElse. l_unfold.
  destruct (getProperty tokenData "coinMint") as [x|a]; [reflexivity|]. cbn.
  destruct (truthy a); [reflexivity|].
  destruct (getProperty tokenData "mint") as [x|b]; [reflexivity|]. cbn.
  destruct (truthy b); [reflexivity|].
  destruct (getProperty tokenData "token_address") as [x|c]; [reflexivity|]. cbn.
  destruct (truthy c); [reflexivity|].
  destruct (getProperty tokenData "address") as [x|d]; reflexivity.
Qed.

Lemma tokenAddress_state_independent (tokenData : JsValue) (s s' : Session) :
  fst (tokenAddress tokenData s) = fst (tokenAddress tokenData s').
Proof.
  unfold tokenAddress, readProperty, orElse. l_unfold.
  destruct (getProperty tokenData "coinMint") as [x|a]; [reflexivity|]. cbn.
  destruct (truthy a); [reflexivity|].
  destruct (getProperty tokenData "mint") as [x|b]; [reflexivity|]. cbn.
  destruct (truthy b); [reflexivity|].
  destruct (getProperty tokenData "token_address") as [x|c]; [reflexivity|]. cbn.
  destruct (truthy c); [reflexivity|].
  destruct (getProperty tokenData "address") as [x|d]; reflexivity.
Qed.

Lemma forEachCallback_quiet callbacks index address data :
  quiet (forEachCallback callbacks index address data).
Proof.
  revert index. induction callbacks as [|cb rest IH]; intros index; cbn [forEachCallback].
  - auto with listener.
  - apply quiet_bind; [auto with listener|]. intros _.
    destruct (cb address data); auto with listener.
Qed.

Lemma interpolate_quiet v : quiet (interpolate v).
Proof. unfold interpolate. destruct (stringifies v); auto with listener. Qed.

Lemma decodeAndDispatch_quiet payload : quiet (decodeAndDispatch JSON_parse payload).
Proof.
  unfold decodeAndDispatch. apply quiet_bind; [apply parsedPayload_quiet|].
  intros tokenData. apply quiet_bind.
  - intros s. rewrite tokenAddress_pure. reflexivity.
  - intros address. destruct (truthy address); [|auto with listener].
    apply quiet_bind; [apply interpolate_quiet|]. intros _.
    apply quiet_bind; [auto with listener|]. intros _.
    apply quiet_bind; [auto with listener|]. intros callbacks.
    apply forEachCallback_quiet.
Qed.

(** The frame handler changes nothing of the session but the trace: in
    particular the protocol state stays what it was. *)
Lemma handleNatsMsg_quiet messageStr : quiet (handleNatsMsg JSON_parse messageStr).
Proof.
  unfold handleNatsMsg.
  destruct (List.length (parts messageStr) <? 4)%nat; [auto with listener|].
  destruct (payloadIndex messageStr =? -1)%Z; [auto with listener|].
  apply quiet_bind; [auto with listener|]. intros _.
  destruct ((nth 2 (parts messageStr) "" =? SID_ADVANCED_COIN_GRADUATED)%string
            && (nth 1 (parts messageStr) "" =? "advancedCoinGraduated")%string);
    [|auto with listener].
  apply quiet_try; [apply decodeAndDispatch_quiet|].
  intros _. auto with listener.
Qed.

(** The frame handler never throws. *)
Lemma handleNatsMsg_returns messageStr s :
  fst (handleNatsMsg JSON_parse messageStr s) = Returned tt.
Proof.
  unfold handleNatsMsg.
  destruct (List.length (parts messageStr) <? 4)%nat; [reflexivity|].
  destruct (payloadIndex messageStr =? -1)%Z; [reflexivity|].
  unfold bind at 1. cbn [log effect modify].
  destruct ((nth 2 (parts messageStr) "" =? SID_ADVANCED_COIN_GRADUATED)%string
            && (nth 1 (parts messageStr) "" =? "advancedCoinGraduated")%string);
    [|reflexivity].
  unfold try.
  destruct (decodeAndDispatch JSON_parse (payloadStr messageStr) _) as [[[]|x] s1];
    reflexivity.
Qed.

Lemma handleNatsMsg_ofInterest messageStr s :
  ofInterest messageStr = true ->
  handleNatsMsg JSON_parse messageStr s
  = try (decodeAndDispatch JSON_parse (payloadStr messageStr))
      (fun _ => log LError
         "PumpFunListener: Error parsing JSON payload for advancedCoinGraduated:")
      (add_effect (Log LDebug "PumpFunListener: NATS MSG") s).
Proof.
  unfold ofInterest, handleNatsMsg. intros H.
  apply andb_true_iff in H as [H Hsubj]. apply andb_true_iff in H as [H Hsid].
  apply andb_true_iff in H as [Hlen Hidx].
  replace (List.length (parts messageStr) <? 4)%nat with false
    by (symmetry; apply Nat.ltb_ge; apply Nat.leb_le; exact Hlen).
  apply negb_true_iff in Hidx. rewrite Hidx, Hsid, Hsubj. reflexivity.
Qed.

(** ** C9: malformed frames and payloads that do not decode *)

Lemma handleNatsMsg_too_few_fields messageStr s :
  (List.length (parts messageStr) < 4)%nat ->
  handleNatsMsg JSON_parse messageStr s
  = (Returned tt, add_effect (Log LWarn "PumpFunListener: Malformed NATS MSG") s).
Proof.
  intros H. unfold handleNatsMsg.
  apply Nat.ltb_lt in H. rewrite H. reflexivity.
Qed.

Lemma handleNatsMsg_missing_separator messageStr s :
  (4 <= List.length (parts messageStr))%nat ->
  payloadIndex messageStr = (-1)%Z ->
  handleNatsMsg JSON_parse messageStr s
  = (Returned tt,
     add_effect (Log LWarn "PumpFunListener: NATS MSG missing payload separator") s).
Proof.
  intros Hlen Hidx. unfold handleNatsMsg.
  apply Nat.ltb_ge in Hlen. rewrite Hlen, Hidx. reflexivity.
Qed.

(** A payload that fails to decode, at the first or at the second pass:
    the error is caught and logged, no consumer is called. *)
Lemma handleNatsMsg_decode_failure messageStr s x s1 :
  ofInterest messageStr = true ->
  parsedPayload JSON_parse (payloadStr messageStr)
    (add_effect (Log LDebug "PumpFunListener: NATS MSG") s) = (Threw x, s1) ->
  handleNatsMsg JSON_parse messageStr s
  = (Returned tt,
     add_effect
       (Log LError "PumpFunListener: Error parsing JSON payload for advancedCoinGraduated:")
       s1)
  /\ invocations s1 = invocations s.
Proof.
  intros Hint Hdec. rewrite handleNatsMsg_ofInterest by assumption.
  unfold try, decodeAndDispatch. unfold bind at 1. rewrite Hdec.
  split; [reflexivity|].
  pose proof (parsedPayload_silent (payloadStr messageStr)
                (add_effect (Log LDebug "PumpFunListener: NATS MSG") s)) as Hs.
  rewrite Hdec in Hs. cbn [snd] in Hs. rewrite Hs.
  apply (silent_log LDebug "PumpFunListener: NATS MSG" s).
Qed.

(** ** One or two decode passes *)

(** When the first [JSON.parse] of a payload yields a string, exactly
    one more parse is run, on that string, and its result (or its
    failure) is the outcome; when it yields anything else, that value is
    the outcome and no second parse is run. *)
Lemma parsedPayload_decode_passes (payload : string) (first : JsValue) (s : Session) :
  JSON_parse payload = Some first ->
  match first with
  | JsString inner =>
      parsedPayload JSON_parse payload s
      = (match JSON_parse inner with
         | Some second => Returned second
         | None => Threw SyntaxError
         end,
         add_effect (JsonParse inner)
           (add_effect
              (Log LDebug
                 "PumpFunListener: Payload was a string, attempting second JSON.parse().")
              (add_effect (JsonParse payload) s)))
      /\ decodePasses (snd (parsedPayload JSON_parse payload s))
         = (decodePasses s + 2)%nat
  | _ =>
      parsedPayload JSON_parse payload s
      = (Returned first, add_effect (JsonParse payload) s)
      /\ decodePasses (snd (parsedPayload JSON_parse payload s))
         = (decodePasses s + 1)%nat
  end.
Proof.
  intros Hfirst.
  assert (Hcount : forall e s0, isJsonParse e = true ->
            decodePasses (add_effect e s0) = (decodePasses s0 + 1)%nat).
  { intros e s0 He. unfold decodePasses. cbn. rewrite filter_app, length_app.
    cbn. rewrite He. reflexivity. }
  assert (Hskip : forall e s0, isJsonParse e = false ->
            decodePasses (add_effect e s0) = decodePasses s0).
  { intros e s0 He. unfold decodePasses. cbn. rewrite filter_app, length_app.
    cbn. rewrite He. cbn. lia. }
  unfold parsedPayload, jsonParse. l_unfold. rewrite Hfirst.
  destruct first; cbn [snd];
    try (split; [reflexivity | apply Hcount; reflexivity]).
  destruct (JSON_parse s0); cbn [snd];
    (split; [reflexivity|]);
    rewrite Hcount, Hskip, Hcount by reflexivity; lia.
Qed.

(** ** The identifier of a decoded object *)

Lemma getProperty_object fields name :
  getProperty (JsObject fields) name
  = inr (match lookup fields name with Some x => x | None => JsUndefined end).
Proof. unfold getProperty. destruct (lookup fields name); reflexivity. Qed.

(** The first alias holding a truthy value wins; aliases before it that
    are absent or hold a falsy value are passed over. *)
Lemma tokenAddress_first_truthy fields before a after v s :
  aliases = before ++ a :: after ->
  (forall b x, In b before -> lookup fields b = Some x -> truthy x = false) ->
  lookup fields a = Some v ->
  truthy v = true ->
  tokenAddress (JsObject fields) s = (Returned v, s).
Proof.
  intros Hal Hbefore Ha Hv.
  assert (Hskip : forall b, In b before ->
            truthy (match lookup fields b with Some x => x | None => JsUndefined end)
            = false).
  { intros b Hb. destruct (lookup fields b) as [x|] eqn:Hx; [|reflexivity].
    exact (Hbefore b x Hb Hx). }
  unfold tokenAddress, readProperty, orElse. rewrite !getProperty_object. l_unfold.
  unfold aliases in Hal.
  destruct before as [|b0 [|b1 [|b2 [|b3 more]]]]; cbn [app] in Hal;
    inversion Hal; subst.
  - rewrite Ha, Hv. reflexivity.
  - rewrite (Hskip "coinMint") by (cbn; auto). rewrite Ha, Hv. reflexivity.
  - rewrite (Hskip "coinMint"), (Hskip "mint") by (cbn; auto).
    rewrite Ha, Hv. reflexivity.
  - rewrite (Hskip "coinMint"), (Hskip "mint"), (Hskip "token_address") by (cbn; auto).
    rewrite Ha. reflexivity.
  - destruct more; discriminate.
Qed.

(** When every alias is absent or falsy the chain ends on a falsy value. *)
Lemma tokenAddress_none_truthy fields s :
  (forall a x, In a aliases -> lookup fields a = Some x -> truthy x = false) ->
  exists v, tokenAddress (JsObject fields) s = (Returned v, s) /\ truthy v = false.
Proof.
  intros Hall.
  assert (Hskip : forall a, In a aliases ->
            truthy (match lookup fields a with Some x => x | None => JsUndefined end)
            = false).
  { intros a Hin. destruct (lookup fields a) as [x|] eqn:Hx; [|reflexivity].
    exact (Hall a x Hin Hx). }
  unfold tokenAddress, readProperty, orElse. rewrite !getProperty_object. l_unfold.
  rewrite (Hskip "coinMint"), (Hskip "mint"), (Hskip "token_address")
    by (cbn; auto).
  eexists. split; [reflexivity|]. apply Hskip. cbn; auto.
Qed.

(** A decoded value that yields no identifier: the frame is dropped with
    a diagnostic (a warning when the chain ends on a falsy value, the
    error of the [catch] when reading the aliases throws), no consumer is
    called, and nothing of the session changes but the trace. *)
Lemma handleNatsMsg_without_identifier messageStr tokenData s :
  ofInterest messageStr = true ->
  fst (parsedPayload JSON_parse (payloadStr messageStr)
         (add_effect (Log LDebug "PumpFunListener: NATS MSG") s)) = Returned tokenData ->
  (forall v, fst (tokenAddress tokenData s) = Returned v -> truthy v = false) ->
  fst (handleNatsMsg JSON_parse messageStr s) = Returned tt
  /\ invocations (snd (handleNatsMsg JSON_parse messageStr s)) = invocations s
  /\ (exists text,
        last (effects (snd (handleNatsMsg JSON_parse messageStr s))) (JsonParse "")
        = Log (match fst (tokenAddress tokenData s) with
               | Returned _ => LWarn
               | Threw _ => LError
               end) text)
  /\ forget (snd (handleNatsMsg JSON_parse messageStr s)) = forget s.
Proof.
  intros Hint Hdec Hfalsy.
  split; [apply handleNatsMsg_returns|].
  split; [|split; [|apply handleNatsMsg_quiet]].
  - rewrite handleNatsMsg_ofInterest by assumption.
    unfold try, decodeAndDispatch. unfold bind at 1.
    pose proof (parsedPayload_silent (payloadStr messageStr)
                  (add_effect (Log LDebug "PumpFunListener: NATS MSG") s)) as Hs.
    destruct (parsedPayload JSON_parse (payloadStr messageStr) _) as [[d|x] s1];
      cbn [fst snd] in *; [|discriminate].
    inversion Hdec; subst d.
    unfold bind at 1.
    pose proof (tokenAddress_pure tokenData s1) as Hp.
    pose proof (tokenAddress_state_independent tokenData s1 s) as Hi.
    destruct (tokenAddress tokenData s1) as [[v|x] s2]; cbn [fst snd] in *; subst s2.
    + rewrite (Hfalsy v) by (symmetry; exact Hi).
      unfold log, effect, modify. cbv beta iota. cbn [snd].
      rewrite invocations_add_effect, Hs by reflexivity.
      apply invocations_add_effect. reflexivity.
    + unfold log, effect, modify. cbv beta iota. cbn [snd].
      rewrite invocations_add_effect, Hs by reflexivity.
      apply invocations_add_effect. reflexivity.
  - rewrite handleNatsMsg_ofInterest by assumption.
    unfold try, decodeAndDispatch. unfold bind at 1.
    destruct (parsedPayload JSON_parse (payloadStr messageStr) _) as [[d|x] s1];
      cbn [fst snd] in *; [|discriminate].
    inversion Hdec; subst d.
    unfold bind at 1.
    pose proof (tokenAddress_pure tokenData s1) as Hp.
    pose proof (tokenAddress_state_independent tokenData s1 s) as Hi.
    destruct (tokenAddress tokenData s1) as [[v|x] s2]; cbn [fst snd] in *; subst s2;
      rewrite <- Hi.
    + rewrite (Hfalsy v) by (symmetry; exact Hi).
      unfold log, effect, modify. cbv beta iota. cbn [snd add_effect effects].
      eexists. apply last_last.
    + unfold log, effect, modify. cbv beta iota. cbn [snd add_effect effects].
      eexists. apply last_last.
Qed.

(** Consumers that return are called one after the other, in the order
    of registration, with the identifier and the decoded object. *)
Lemma forEachCallback_all_return callbacks index address data s :
  (forall cb, In cb callbacks -> cb address data = CbReturned) ->
  forEachCallback callbacks index address data s
  = (Returned tt,
     fold_left (fun acc i => add_effect (Invoke i address data) acc)
       (seq index (List.length callbacks)) s).
Proof.
  revert index s. induction callbacks as [|cb rest IH]; intros index s Hall.
  - reflexivity.
  - cbn [forEachCallback List.length seq fold_left]. l_unfold.
    rewrite (Hall cb) by (left; reflexivity).
    apply IH. intros cb' Hin. apply Hall. right. exact Hin.
Qed.

Lemma handleNatsMsg_dispatch messageStr tokenData address s s1 :
  ofInterest messageStr = true ->
  parsedPayload JSON_parse (payloadStr messageStr)
    (add_effect (Log LDebug "PumpFunListener: NATS MSG") s) = (Returned tokenData, s1) ->
  fst (tokenAddress tokenData s1) = Returned address ->
  truthy address = true ->
  stringifies address = true ->
  (forall cb, In cb (newTokenCallbacks s) -> cb address tokenData = CbReturned) ->
  handleNatsMsg JSON_parse messageStr s
  = (Returned tt,
     fold_left (fun acc i => add_effect (Invoke i address tokenData) acc)
       (seq 0 (List.length (newTokenCallbacks s)))
       (add_effect (Log LInfo "PumpFunListener: New 'advancedCoinGraduated' token") s1)).
Proof.
  intros Hint Hdec Haddr Htruthy Hstr Hall.
  rewrite handleNatsMsg_ofInterest by assumption.
  unfold try, decodeAndDispatch. unfold bind at 1. rewrite Hdec.
  unfold bind at 1.
  pose proof (tokenAddress_pure tokenData s1) as Hp.
  destruct (tokenAddress tokenData s1) as [[v|x] s2]; cbn [fst snd] in *;
    [|discriminate].
  inversion Haddr; subst v s2. rewrite Htruthy.
  unfold bind at 1. unfold interpolate. rewrite Hstr. unfold ret at 1.
  assert (Hcbs : newTokenCallbacks s1 = newTokenCallbacks s).
  { pose proof (parsedPayload_quiet (payloadStr messageStr)
                  (add_effect (Log LDebug "PumpFunListener: NATS MSG") s)) as Hq.
    rewrite Hdec in Hq. exact (f_equal newTokenCallbacks Hq). }
  unfold bind at 1. cbn [log effect modify].
  unfold bind at 1. unfold gets at 1. cbn [add_effect newTokenCallbacks].
  rewrite Hcbs, forEachCallback_all_return by assumption.
  reflexivity.
Qed.

End ListenerFacts.

(** ** The session: what each event does to the protocol state *)

Lemma keeps_ret {A} (a : A) : keepsState (ret a).
Proof. intros s. reflexivity. Qed.

Lemma keeps_throw {A} (x : JsException) : keepsState (throw (A:=A) x).
Proof. intros s. reflexivity. Qed.

Lemma keeps_gets {A} (f : Session -> A) : keepsState (gets f).
Proof. intros s. reflexivity. Qed.

Lemma keeps_effect (e : Effect) : keepsState (effect e).
Proof. intros s. reflexivity. Qed.

Lemma keeps_log level text : keepsState (log level text).
Proof. intros s. reflexivity. Qed.

Lemma keeps_modify (f : Session -> Session) :
  (forall s, natsState (f s) = natsState s) -> keepsState (modify f).
Proof. intros Hf s. apply Hf. Qed.

Lemma keeps_bind {A B} (m : L A) (k : A -> L B) :
  keepsState m -> (forall a, keepsState (k a)) -> keepsState (bind m k).
Proof.
  intros Hm Hk s. unfold bind. specialize (Hm s).
  destruct (m s) as [[a|x] s1]; cbn [snd] in *.
  - rewrite (Hk a s1). exact Hm.
  - exact Hm.
Qed.

Lemma quiet_keeps {A} (m : L A) : quiet m -> keepsState m.
Proof. intros Hq s. exact (f_equal natsState (Hq s)). Qed.

Lemma keeps_stays {A} (m : L A) : keepsState m -> staysDisconnected m.
Proof. intros Hk s Hs. rewrite (Hk s). exact Hs. Qed.

Lemma stays_bind {A B} (m : L A) (k : A -> L B) :
  staysDisconnected m -> (forall a, staysDisconnected (k a)) ->
  staysDisconnected (bind m k).
Proof.
  intros Hm Hk s Hs. unfold bind. specialize (Hm s Hs).
  destruct (m s) as [[a|x] s1]; cbn [snd] in *.
  - apply (Hk a s1). exact Hm.
  - exact Hm.
Qed.

(** A branch on the protocol state only needs its DISCONNECTED case. *)
Lemma stays_on_state {B} (k : NatsState -> L B) :
  staysDisconnected (k DISCONNECTED) -> staysDisconnected (bind (gets natsState) k).
Proof. intros Hk s Hs. unfold bind, gets. rewrite Hs. apply Hk. exact Hs. Qed.

(** After [modify (set_natsState st)], whatever keeps the state ends in [st]. *)
Lemma ends_in {B} (st : NatsState) (rest : L B) (s : Session) :
  keepsState rest ->
  natsState (snd (bind (modify (set_natsState st)) (fun _ => rest) s)) = st.
Proof. intros Hk. unfold bind, modify. rewrite (Hk _). reflexivity. Qed.

#[local] Hint Resolve keeps_ret keeps_throw keeps_gets keeps_effect keeps_log : listener.

Ltac keeps :=
  solve [ repeat first
            [ apply keeps_bind; [|intro]
            | apply keeps_modify; intros; reflexivity
            | solve [auto with listener] ] ].

Lemma clearInterval_keeps timer : keepsState (clearInterval timer).
Proof. unfold clearInterval. keeps. Qed.

Lemma setReadyState_keeps id r : keepsState (setReadyState id r).
Proof. unfold setReadyState. keeps. Qed.

Lemma setReconnectTimeout_keeps ms : keepsState (setReconnectTimeout ms).
Proof. unfold setReconnectTimeout. keeps. Qed.

Lemma sendNatsCommand_keeps command : keepsState (sendNatsCommand command).
Proof.
  unfold sendNatsCommand. apply keeps_bind; [keeps|].
  intros [id|]; keeps.
Qed.

Lemma stopClientKeepAlive_keeps : keepsState stopClientKeepAlive.
Proof.
  unfold stopClientKeepAlive. apply keeps_bind; [keeps|].
  intros [t|]; [|keeps].
  apply keeps_bind; [apply clearInterval_keeps|]. intros _. keeps.
Qed.

Lemma clearPingInterval_keeps : keepsState clearPingInterval.
Proof.
  unfold clearPingInterval. apply keeps_bind; [keeps|].
  intros [t|]; [apply clearInterval_keeps|keeps].
Qed.

Lemma clientKeepAlive_keeps : keepsState clientKeepAlive.
Proof.
  unfold clientKeepAlive. apply keeps_bind; [keeps|]. intros open.
  apply keeps_bind; [keeps|]. intros st.
  destruct open; [|keeps].
  destruct (NatsState_eqb st OPERATIONAL || NatsState_eqb st SUBSCRIBING
            || NatsState_eqb st CONNECTED_AWAITING_PONG); [|keeps].
  apply keeps_bind; [keeps|]. intros _. apply sendNatsCommand_keeps.
Qed.

Lemma stop_keeps_tail :
  keepsState
    (stopClientKeepAlive ;;
     clearPingInterval ;;
     current <- gets ws ;;
     match current with
     | Some id =>
         removeCloseAndErrorListeners id ;;
         sock <- gets (socket id) ;;
         match sock with
         | Some {| readyState := WS_OPEN |}
         | Some {| readyState := WS_CONNECTING |} => wsClose id
         | _ => ret tt
         end ;;
         modify (set_ws None)
     | None => ret tt
     end ;;
     log LInfo "PumpFunListener: Stopped.")%exec.
Proof.
  apply keeps_bind; [apply stopClientKeepAlive_keeps|]. intros _.
  apply keeps_bind; [apply clearPingInterval_keeps|]. intros _.
  apply keeps_bind; [keeps|]. intros current.
  apply keeps_bind; [|intros _; keeps].
  destruct current as [id|]; [|keeps].
  apply keeps_bind; [unfold removeCloseAndErrorListeners; keeps|]. intros _.
  apply keeps_bind; [keeps|]. intros sock.
  apply keeps_bind; [|intros _; keeps].
  destruct sock as [[[] cl el]|]; try solve [keeps];
    unfold wsClose; (apply keeps_bind; [keeps|]); intros _; apply setReadyState_keeps.
Qed.

(** [stop] always ends in DISCONNECTED. *)
Lemma stop_disconnects (s : Session) : natsState (snd (stop s)) = DISCONNECTED.
Proof.
  unfold stop. unfold bind at 1. cbn [log effect modify].
  apply ends_in. apply stop_keeps_tail.
Qed.

Lemma onClose_disconnects (s : Session) : natsState (snd (onClose s)) = DISCONNECTED.
Proof.
  unfold onClose. unfold bind at 1. cbn [log effect modify].
  apply ends_in.
  apply keeps_bind; [apply stopClientKeepAlive_keeps|]. intros _.
  apply keeps_bind; [apply clearPingInterval_keeps|]. intros _.
  apply keeps_bind; [keeps|]. intros _. apply setReconnectTimeout_keeps.
Qed.

Section SessionFacts.

Variable url : string.
Variable JSON_parse : string -> option JsValue.

Lemma onMessage_stays data : staysDisconnected (onMessage JSON_parse data).
Proof.
  unfold onMessage.
  apply stays_bind; [apply keeps_stays; keeps|]. intros _.
  destruct (startsWith (trim data) "INFO").
  { apply stays_bind; [apply keeps_stays; keeps|]. intros _.
    apply stays_on_state. cbn. apply keeps_stays; keeps. }
  destruct (trim data =? "PING")%string.
  { apply stays_bind; [apply keeps_stays; keeps|]. intros _.
    apply stays_bind; [apply keeps_stays; apply sendNatsCommand_keeps|]. intros _.
    apply stays_on_state. cbn. apply keeps_stays; keeps. }
  destruct (startsWith (trim data) "MSG").
  { apply keeps_stays, quiet_keeps, handleNatsMsg_quiet. }
  destruct (trim data =? "+OK")%string.
  { apply stays_bind; [apply keeps_stays; keeps|]. intros _.
    apply stays_on_state. cbn. apply keeps_stays; keeps. }
  destruct (trim data =? "PONG")%string; [apply keeps_stays; keeps|].
  destruct (startsWith (trim data) "-ERR"); apply keeps_stays; keeps.
Qed.

Lemma deliver_stays (i : Input) :
  match i with
  | CallStart | ReconnectTimeout | SocketOpen _ => False
  | _ => True
  end ->
  staysDisconnected (deliver url JSON_parse i).
Proof.
  destruct i; intros H; try contradiction; cbn [deliver].
  - intros s _. apply stop_disconnects.
  - apply keeps_stays. unfold addTokenCallback. keeps.
  - apply stays_bind; [apply keeps_stays; keeps|].
    intros [[[] cl el]|]; try (apply keeps_stays; keeps);
      apply onMessage_stays.
  - apply stays_bind; [apply keeps_stays; keeps|].
    intros [[[] cl el]|]; try (apply keeps_stays; keeps);
      (apply stays_bind; [apply keeps_stays, setReadyState_keeps|]); intros _;
      cbn [errorListener]; destruct el; try (apply keeps_stays; keeps);
      intros s _; reflexivity.
  - apply stays_bind; [apply keeps_stays; keeps|].
    intros [[[] cl el]|]; try (apply keeps_stays; keeps);
      (apply stays_bind; [apply keeps_stays, setReadyState_keeps|]); intros _;
      cbn [closeListener]; destruct cl; try (apply keeps_stays; keeps);
      intros s _; apply onClose_disconnects.
  - apply stays_bind; [apply keeps_stays; keeps|]. intros active.
    destruct (existsb (Nat.eqb timer) active); [|apply keeps_stays; keeps].
    apply keeps_stays, clientKeepAlive_keeps.
Qed.

(** From DISCONNECTED, no event but a call of [start], a reconnect
    timeout that fires, or the 'open' of a socket moves the state. *)
Lemma disconnected_stays (s : Session) (i : Input) :
  natsState s = DISCONNECTED ->
  natsState (step url JSON_parse s i) <> DISCONNECTED ->
  i = CallStart \/ i = ReconnectTimeout \/ exists id, i = SocketOpen id.
Proof.
  intros Hs Hmove.
  destruct i; eauto; exfalso; apply Hmove; unfold step;
    apply deliver_stays; auto.
Qed.

Lemma onClose_effects (s : Session) :
  let s' := snd (onClose s) in
  clientKeepAliveIntervalId s' = None
  /\ (forall t, clientKeepAliveIntervalId s = Some t ->
        ~ In t (intervals s') /\ In (ClearInterval t) (effects s'))
  /\ reconnectTimers s' = S (reconnectTimers s)
  /\ filter isSetTimeout (effects s')
     = filter isSetTimeout (effects s) ++ [SetTimeout reconnectInterval].
Proof.
  unfold onClose, stopClientKeepAlive, clearPingInterval, clearInterval,
    setReconnectTimeout.
  destruct s as [w st cbs ping keep socks ints pend next effs].
  l_unfold. cbn.
  destruct keep as [t|]; destruct ping as [p|]; cbn;
    (split; [reflexivity|]);
    (split; [|split; [reflexivity|]]);
    try (intros t' Ht'; discriminate);
    try (intros t' Ht'; inversion Ht'; subst t'; split;
         [ intros Hin; repeat (apply filter_In in Hin; destruct Hin as [Hin ?]);
           rewrite Nat.eqb_refl in *; discriminate
         | repeat (apply in_or_app; first [right; cbn; tauto | left]) ]);
    repeat rewrite filter_app; cbn; repeat rewrite app_nil_r; reflexivity.
Qed.


(** C4 (amended): a 'close' event of a socket whose listeners are
    attached moves the session to DISCONNECTED, stops the keep-alive
    timer and sets exactly one reconnect timeout of 5000 ms; an 'error'
    event only moves the session to DISCONNECTED, and leaves the timers
    to the 'close' that follows it; from DISCONNECTED the state is moved
    by a call of [start], by a reconnect timeout that fires (both go to
    CONNECTING) and by the 'open' of a socket, and by nothing else. *)
Theorem socket_close_and_error_transitions (s : Session) :
  (forall id sock,
     socket id s = Some sock ->
     readyState sock <> WS_CLOSED ->
     closeListener sock = true ->
     let s' := step url JSON_parse s (SocketClose id) in
     natsState s' = DISCONNECTED
     /\ clientKeepAliveIntervalId s' = None
     /\ (forall t, clientKeepAliveIntervalId s = Some t ->
           ~ In t (intervals s') /\ In (ClearInterval t) (effects s'))
     /\ reconnectTimers s' = S (reconnectTimers s)
     /\ filter isSetTimeout (effects s')
        = filter isSetTimeout (effects s) ++ [SetTimeout 5000])
  /\ (forall id sock,
        socket id s = Some sock ->
        readyState sock <> WS_CLOSED ->
        errorListener sock = true ->
        let s' := step url JSON_parse s (SocketError id) in
        natsState s' = DISCONNECTED
        /\ clientKeepAliveIntervalId s' = clientKeepAliveIntervalId s
        /\ intervals s' = intervals s
        /\ reconnectTimers s' = reconnectTimers s
        /\ filter isSetTimeout (effects s') = filter isSetTimeout (effects s))
  /\ (natsState s = DISCONNECTED ->
      (forall i, natsState (step url JSON_parse s i) <> DISCONNECTED ->
         i = CallStart \/ i = ReconnectTimeout \/ exists id, i = SocketOpen id)
      /\ (url <> "" -> natsState (step url JSON_parse s CallStart) = CONNECTING)
      /\ (url <> "" -> reconnectTimers s <> 0%nat ->
            natsState (step url JSON_parse s ReconnectTimeout) = CONNECTING)).
Proof.
  split; [|split].
  - intros id sock Hsock Hopen Hl s'.
    assert (Hstep : s' = snd (onClose (snd (setReadyState id WS_CLOSED s)))).
    { subst s'. unfold step. cbn [deliver]. unfold bind at 1. unfold gets at 1.
      rewrite Hsock. destruct sock as [rs cl el]. cbn in Hopen, Hl. subst cl.
      destruct rs; try congruence; reflexivity. }
    rewrite Hstep.
    split; [apply onClose_disconnects|].
    apply (onClose_effects (snd (setReadyState id WS_CLOSED s))).
  - intros id sock Hsock Hopen Hl s'.
    assert (Hstep : s' = snd (onError (snd (setReadyState id WS_CLOSING s)))).
    { subst s'. unfold step. cbn [deliver]. unfold bind at 1. unfold gets at 1.
      rewrite Hsock. destruct sock as [rs cl el]. cbn in Hopen, Hl. subst el.
      destruct rs; try congruence; reflexivity. }
    rewrite Hstep. cbn. rewrite filter_app. cbn. rewrite app_nil_r.
    repeat split.
  - intros Hs. split; [|split].
    + intros i. apply disconnected_stays. exact Hs.
    + intros Hurl. unfold step. cbn [deliver]. unfold start, connect.
      apply String.eqb_neq in Hurl. rewrite Hurl. l_unfold. rewrite Hs. reflexivity.
    + intros Hurl Hpending. unfold step. cbn [deliver]. unfold connect.
      apply String.eqb_neq in Hurl. rewrite Hurl. l_unfold.
      destruct (reconnectTimers s); [congruence|]. reflexivity.
Qed.

End SessionFacts.

(** ** [stop] *)

Lemma stop_result (s : Session) :
  ws (snd (stop s)) = None
  /\ clientKeepAliveIntervalId (snd (stop s)) = None
  /\ pingIntervalId (snd (stop s)) = pingIntervalId s
  /\ natsState (snd (stop s)) = DISCONNECTED
  /\ reconnectTimers (snd (stop s)) = reconnectTimers s
  /\ fst (stop s) = Returned tt.
Proof.
  destruct s as [w st cbs ping keep socks ints pend next effs].
  unfold stop, stopClientKeepAlive, clearPingInterval, clearInterval,
    removeCloseAndErrorListeners, wsClose, setReadyState, socket.
  l_unfold. cbn.
  destruct keep as [t|]; destruct ping as [p|]; destruct w as [id|]; cbn;
    try (repeat split; fail);
    match goal with
    | |- context [nth_error ?l ?n] =>
        destruct (nth_error l n) as [[[] cl el]|]; cbn; repeat split
    end.
Qed.

Lemma stop_when_stopped (s : Session) :
  ws s = None ->
  clientKeepAliveIntervalId s = None ->
  pingIntervalId s = None ->
  natsState s = DISCONNECTED ->
  stop s
  = (Returned tt,
     add_effect (Log LInfo "PumpFunListener: Stopped.")
       (add_effect (Log LInfo "PumpFunListener: Stopping WebSocket connection...") s)).
Proof.
  destruct s as [w st cbs ping keep socks ints pend next effs]. cbn.
  intros -> -> -> ->. reflexivity.
Qed.

(** A second [stop] (no code assigns [pingIntervalId]) closes no socket,
    clears and sets no timer, does not throw: it writes its two log lines
    and changes nothing else. *)
Lemma stop_idempotent (s : Session) :
  pingIntervalId s = None ->
  stop (snd (stop s))
  = (Returned tt,
     add_effect (Log LInfo "PumpFunListener: Stopped.")
       (add_effect (Log LInfo "PumpFunListener: Stopping WebSocket connection...")
          (snd (stop s)))).
Proof.
  intros Hping. destruct (stop_result s) as [Hw [Hk [Hp [Hst _]]]].
  apply stop_when_stopped; congruence.
Qed.

(** C3 fails on the reconnect timeout: the 'close' handler sets it and
    keeps no handle, [stop] cannot cancel it, and when it fires after the
    [stop] it calls [connect], which opens a new socket although [start]
    was not called again. *)
Lemma reconnect_fires_after_stop :
  let stopped :=
    run sampleUrl sampleParse [CallStart; SocketOpen 0; SocketClose 0; CallStop]
      newListener in
  let s' := step sampleUrl sampleParse stopped ReconnectTimeout in
  natsState stopped = DISCONNECTED
  /\ ws stopped = None
  /\ reconnectTimers stopped = 1%nat
  /\ natsState s' = CONNECTING
  /\ ws s' = Some 1%nat
  /\ last (effects s') (JsonParse "") = NewWebSocket 1 sampleUrl.
Proof. vm_compute. repeat split. Qed.

(** ** Closed instances *)

(** Witness of C4 (amended). *)
Lemma socket_close_and_error_transitions_witness :
  (natsState (step sampleUrl sampleParse operationalSession (SocketClose 0)) = DISCONNECTED
   /\ reconnectTimers (step sampleUrl sampleParse operationalSession (SocketClose 0))
      = 1%nat)
  /\ natsState (step sampleUrl sampleParse operationalSession (SocketError 0)) = DISCONNECTED
  /\ natsState (step sampleUrl sampleParse newListener CallStart) = CONNECTING.
Proof.
  destruct (socket_close_and_error_transitions sampleUrl sampleParse operationalSession)
    as [Hclose [Herror _]].
  destruct (socket_close_and_error_transitions sampleUrl sampleParse newListener)
    as [_ [_ Hdisc]].
  split; [|split].
  - assert (Hopen : WS_OPEN <> WS_CLOSED) by discriminate.
    destruct (Hclose 0%nat {| readyState := WS_OPEN; closeListener := true;
                              errorListener := true |} eq_refl Hopen eq_refl)
      as [Hst [_ [_ [Hre _]]]].
    split; [exact Hst | exact Hre].
  - assert (Hopen : WS_OPEN <> WS_CLOSED) by discriminate.
    destruct (Herror 0%nat {| readyState := WS_OPEN; closeListener := true;
                              errorListener := true |} eq_refl Hopen eq_refl)
      as [Hst _].
    exact Hst.
  - destruct (Hdisc eq_refl) as [_ [Hstart _]]. apply Hstart. discriminate.
Defined.

(** C4 as stated fails twice.  An 'error' event on an operational
    session moves it to DISCONNECTED but leaves the keep-alive timer
    running and sets no reconnect timeout; and a session that a 'close'
    event left DISCONNECTED is moved to CONNECTING by the reconnect
    timeout, without any call of [start]. *)
Lemma socket_error_counterexample :
  let errored := step sampleUrl sampleParse operationalSession (SocketError 0) in
  let closed := step sampleUrl sampleParse operationalSession (SocketClose 0) in
  natsState operationalSession = OPERATIONAL
  /\ natsState errored = DISCONNECTED
  /\ clientKeepAliveIntervalId errored = Some 0%nat
  /\ intervals errored = [0%nat]
  /\ reconnectTimers errored = 0%nat
  /\ filter isSetTimeout (effects errored) = []
  /\ natsState closed = DISCONNECTED
  /\ natsState (step sampleUrl sampleParse closed ReconnectTimeout) = CONNECTING.
Proof. vm_compute. repeat split. Qed.

(** C9 fails on a frame whose header has three fields only: the fields
    are counted over the whole message, the payload counts as the fourth,
    and the frame is decoded and handed to the consumer instead of being
    dropped as malformed. *)
Lemma handleNatsMsg_short_header_dispatched :
  let header := "MSG advancedCoinGraduated 2" in
  let data := (header ++ CRLF ++ mintPayload ++ CRLF)%string in
  let s' := step sampleUrl sampleParse operationalSession (SocketMessage 0 data) in
  List.length (splitWhiteSpace header) = 3%nat
  /\ List.length (parts (trim data)) = 4%nat
  /\ invocations operationalSession = []
  /\ invocations s' = [Invoke 0 (JsString "X") mintObject]
  /\ filter (fun e => match e with Log LWarn _ => true | _ => false end) (effects s')
     = filter (fun e => match e with Log LWarn _ => true | _ => false end)
         (effects operationalSession).
Proof. vm_compute. repeat split. Qed.

End PumpFunListenerProofs.

(** * More on the executor: bounds, provenance, the pool invariant *)

Module ExecutorBounds.
Import Js SolanaService PoolInvariant SolanaServiceProofs.

Section Bounds.

Variables T E W : Type.
Variable validEndpoint : string -> bool.
Variable appConfig : AppConfig.
Variable action : Connection -> W -> (T + E) * W.
Variable isFailoverErrorCheck : E -> bool.

Local Notation "'Mach'" := (Machine W).
Local Notation "'R'" := (rpcRetryAttempts appConfig).
Local Notation "'pool'" := (rpcEndpoints appConfig).

Lemma consistent_nonempty (r : RpcState) : consistent pool r -> pool <> [].
Proof. intros [Hlt _] Hnil. rewrite Hnil in Hlt. cbn in Hlt. lia. Qed.

Lemma rejected_in_pool (url : string) (i : nat) :
  nth_error pool i = Some url -> validEndpoint url = false ->
  exists u, In u pool /\ validEndpoint u = false.
Proof. intros Hn Hv. exists url. split; [eapply nth_error_In; exact Hn|exact Hv]. Qed.

(** [getSolanaConnection] from a consistent state: it returns the
    connection of the current endpoint, or the constructor throws and
    nothing has changed. *)
Lemma getSolanaConnection_cases (m : Mach) :
  consistent pool (rpc m) ->
  (exists conn m',
     getSolanaConnection (E:=E) validEndpoint appConfig m = (Returned conn, m')
     /\ consistent pool (rpc m')
     /\ currentConnection (rpc m') = Some conn
     /\ world m' = world m
     /\ totalAttemptsAcrossRpcs m' = totalAttemptsAcrossRpcs m
     /\ events m' = events m)
  \/ (getSolanaConnection (E:=E) validEndpoint appConfig m = (Threw JsTypeError, m)
      /\ exists u, In u pool /\ validEndpoint u = false).
Proof.
  intros Hc. pose proof (consistent_nonempty _ Hc) as Hne.
  destruct (currentEndpoint validEndpoint appConfig (rpc m)) as [conn|] eqn:Hcur.
  - left.
    destruct (getSolanaConnection_ok E W validEndpoint appConfig m conn Hne Hcur)
      as [m' [Hg [Hconn [Hidx [Hw [Ht He]]]]]].
    exists conn, m'. repeat split; auto.
    + destruct Hc as [Hlt _]. rewrite Hidx. exact Hlt.
    + rewrite Hconn, Hidx. destruct Hc as [Hlt Hc].
      unfold currentEndpoint in Hcur.
      destruct (currentConnection (rpc m)) as [c|].
      * inversion Hcur; subst. exact Hc.
      * destruct (nth_error pool (currentRpcIndex (rpc m))) as [u|]; [|discriminate].
        destruct (validEndpoint u); [|discriminate].
        inversion Hcur. reflexivity.
  - right. unfold currentEndpoint in Hcur. destruct Hc as [Hlt _].
    unfold getSolanaConnection. exec_unfold.
    destruct (currentConnection (rpc m)) as [c|]; [discriminate|].
    apply nth_error_Some in Hlt.
    destruct (nth_error pool (currentRpcIndex (rpc m))) as [u|] eqn:Hn; [|congruence].
    destruct (validEndpoint u) eqn:Hv; [discriminate|].
    replace (List.length pool =? 0)%nat with false
      by (symmetry; apply Nat.eqb_neq; destruct pool; [congruence|discriminate]).
    split; [reflexivity|]. eapply rejected_in_pool; eauto.
Qed.

(** [switchToNextRpc]: it returns the connection of the next endpoint,
    or the constructor throws, the index having moved already. *)
Lemma switchToNextRpc_cases (m : Mach) :
  pool <> [] ->
  (exists conn m',
     switchToNextRpc (E:=E) validEndpoint appConfig m = (Returned conn, m')
     /\ consistent pool (rpc m')
     /\ currentRpcIndex (rpc m') = ((currentRpcIndex (rpc m) + 1) mod List.length pool)%nat
     /\ world m' = world m
     /\ totalAttemptsAcrossRpcs m' = totalAttemptsAcrossRpcs m
     /\ events m' = events m ++ [EvSwitch (currentRpcIndex (rpc m'))])
  \/ (exists m' i,
        switchToNextRpc (E:=E) validEndpoint appConfig m = (Threw JsTypeError, m')
        /\ world m' = world m
        /\ totalAttemptsAcrossRpcs m' = totalAttemptsAcrossRpcs m
        /\ events m' = events m ++ [EvSwitch i]
        /\ exists u, In u pool /\ validEndpoint u = false).
Proof.
  intros Hne. unfold switchToNextRpc. exec_unfold.
  assert (Hpos : List.length pool <> 0%nat).
  { destruct pool; [congruence|discriminate]. }
  apply Nat.eqb_neq in Hpos as Hb. rewrite Hb.
  set (index := ((currentRpcIndex (rpc m) + 1) mod List.length pool)%nat).
  assert (Hlt : (index < List.length pool)%nat)
    by (apply Nat.mod_upper_bound; assumption).
  pose proof Hlt as Hsome. apply nth_error_Some in Hsome.
  destruct (nth_error pool index) as [url|] eqn:Hn; [|congruence].
  destruct (validEndpoint url) eqn:Hv.
  - left. eexists. eexists. split; [reflexivity|].
    cbn [rpc world events totalAttemptsAcrossRpcs currentRpcIndex currentConnection].
    repeat split; auto.
  - right. eexists. exists index. split; [reflexivity|].
    cbn [rpc world events totalAttemptsAcrossRpcs].
    repeat split; auto. eapply rejected_in_pool; eauto.
Qed.

Lemma consistent_currentEndpoint (r : RpcState) :
  consistent pool r ->
  poolAccepted validEndpoint appConfig ->
  exists conn, currentEndpoint validEndpoint appConfig r = Some conn.
Proof.
  intros [Hlt Hconn] Hok. unfold currentEndpoint.
  destruct (currentConnection r) as [c|]; [eauto|].
  apply nth_error_Some in Hlt.
  destruct (nth_error pool (currentRpcIndex r)) as [u|] eqn:Hn; [|congruence].
  unfold poolAccepted in Hok. rewrite Forall_forall in Hok.
  rewrite (Hok u (nth_error_In _ _ Hn)). eauto.
Qed.

Lemma switchToNextRpc_consistent (m : Mach) :
  pool <> [] ->
  poolAccepted validEndpoint appConfig ->
  exists conn m',
    switchToNextRpc (E:=E) validEndpoint appConfig m = (Returned conn, m')
    /\ consistent pool (rpc m')
    /\ currentRpcIndex (rpc m') = ((currentRpcIndex (rpc m) + 1) mod List.length pool)%nat
    /\ world m' = world m
    /\ totalAttemptsAcrossRpcs m' = totalAttemptsAcrossRpcs m
    /\ events m' = events m ++ [EvSwitch (currentRpcIndex (rpc m'))].
Proof.
  intros Hne Hok.
  destruct (switchToNextRpc_cases m Hne) as [H|[m' [i [_ [_ [_ [_ [u [Hin Hv]]]]]]]]].
  - exact H.
  - unfold poolAccepted in Hok. rewrite Forall_forall in Hok.
    rewrite (Hok u Hin) in Hv. discriminate.
Qed.

Ltac tally :=
  unfold attempts, rotations, sleeps in *;
  cbn [events rpc world totalAttemptsAcrossRpcs] in *;
  repeat rewrite ?filter_app, ?length_app in *;
  cbn [filter isAttempt isSwitch isSleep List.length app] in *.

(** What one run of the inner loop does, whatever the action does:
    [k] attempts, [k - 1] delays between them, no rotation, and an
    outcome that comes from the last attempt. *)
Lemma attemptLoop_general (n : nat) :
  forall (attempt cycle : Z) (conn : Connection) (m m' : Mach) o,
    n = Z.to_nat (R - attempt) ->
    attemptLoop appConfig action isFailoverErrorCheck n attempt cycle conn m = (o, m') ->
    exists k,
      (k <= n)%nat
      /\ rpc m' = rpc m
      /\ attempts m' = (attempts m + k)%nat
      /\ totalAttemptsAcrossRpcs m' = (totalAttemptsAcrossRpcs m + k)%nat
      /\ rotations m' = rotations m
      /\ sleeps m' = sleeps m ++ repeat (EvSleep (rpcRetryDelayMs appConfig)) (k - 1)
      /\ match o with
         | Returned (FlowReturn v) =>
             (1 <= k)%nat /\ exists w0, action conn w0 = (inl v, world m')
         | Returned FlowBreak => (1 <= k)%nat /\ (cycle < N appConfig - 1)%Z
         | Returned FlowDone => n = 0%nat /\ m' = m
         | Threw (ActionError e) =>
             (1 <= k)%nat /\ exists w0, action conn w0 = (inr e, world m')
         | Threw (JsError _) | Threw JsTypeError => False
         end.
Proof.
  induction n as [|n IH]; intros attempt cycle conn m m' o Hn Hrun.
  - cbn in Hrun. inversion Hrun; subst. exists 0%nat. cbn.
    rewrite !Nat.add_0_r, app_nil_r. repeat split; auto.
  - cbn [attemptLoop] in Hrun. unfold bind at 1 in Hrun. unfold attemptAction in Hrun.
    destruct (action conn (world m)) as [[v|e] w'] eqn:Ha.
    + inversion Hrun; subst. exists 1%nat. tally. cbn [Nat.sub repeat]. rewrite ?app_nil_r.
      repeat split; auto; try lia; eauto.
    + destruct (attempt <? R - 1)%Z eqn:Hlt.
      * destruct (isFailoverErrorCheck e) eqn:Hchk.
        -- unfold bind at 1 in Hrun. cbn [emit modify] in Hrun.
           apply Z.ltb_lt in Hlt.
           eapply IH in Hrun; [|lia].
           destruct Hrun as [k [Hk [Hrpc [Hat [Htot [Hrot [Hsl Hout]]]]]]].
           assert (Hk1 : (1 <= k)%nat).
           { destruct o as [[v| |]|[e'|msg|]]; try tauto. lia. }
           exists (S k). tally. rewrite ?app_nil_r in *.
           rewrite Hrpc, Hat, Htot, Hrot, Hsl.
           repeat split; auto; try lia.
           ++ rewrite <- app_assoc. cbn [app]. f_equal.
              replace (S k - 1)%nat with (S (k - 1)) by lia. reflexivity.
           ++ destruct o as [[v| |]|[e'|msg|]]; auto.
              ** destruct Hout as [H1 H2]. split; [lia|exact H2].
              ** destruct Hout as [H1 H2]. split; [lia|exact H2].
              ** lia.
              ** destruct Hout as [H1 H2]. split; [lia|exact H2].
        -- inversion Hrun; subst. exists 1%nat. tally. cbn [Nat.sub repeat]. rewrite ?app_nil_r.
           repeat split; auto; try lia; eauto.
      * destruct (isFailoverErrorCheck e && (cycle <? N appConfig - 1)%Z) eqn:Hbr.
        -- inversion Hrun; subst. exists 1%nat. tally. cbn [Nat.sub repeat]. rewrite ?app_nil_r.
           apply andb_true_iff in Hbr as [_ Hc]. apply Z.ltb_lt in Hc.
           repeat split; auto; lia.
        -- inversion Hrun; subst. exists 1%nat. tally. cbn [Nat.sub repeat]. rewrite ?app_nil_r.
           repeat split; auto; try lia; eauto.
Qed.

Lemma same_events (m1 m2 : Mach) :
  events m1 = events m2 ->
  attempts m1 = attempts m2 /\ rotations m1 = rotations m2 /\ sleeps m1 = sleeps m2.
Proof. intros H. unfold attempts, rotations, sleeps. rewrite H. auto. Qed.

Lemma switch_events (m1 m2 : Mach) (i : nat) :
  events m1 = events m2 ++ [EvSwitch i] ->
  attempts m1 = attempts m2
  /\ rotations m1 = S (rotations m2)
  /\ sleeps m1 = sleeps m2.
Proof.
  intros H. unfold attempts, rotations, sleeps. rewrite H.
  rewrite !filter_app, !length_app. cbn. rewrite !app_nil_r. repeat split; lia.
Qed.

(** What the outer loop does, whatever the action does and whatever the
    constructor accepts. *)
Lemma cycleLoop_general (n : nat) :
  forall (cycle : Z) (m m' : Mach) o,
    (cycle + Z.of_nat n = N appConfig)%Z ->
    consistent pool (rpc m) ->
    cycleLoop validEndpoint appConfig action isFailoverErrorCheck n cycle m = (o, m') ->
    (o <> Threw JsTypeError -> consistent pool (rpc m'))
    /\ (exists k,
          (k <= n * Z.to_nat R)%nat
          /\ attempts m' = (attempts m + k)%nat
          /\ totalAttemptsAcrossRpcs m' = (totalAttemptsAcrossRpcs m + k)%nat)
    /\ (rotations m' <= rotations m + (n - 1))%nat
    /\ (exists j,
          (j <= n * (Z.to_nat R - 1))%nat
          /\ sleeps m' = sleeps m ++ repeat (EvSleep (rpcRetryDelayMs appConfig)) j)
    /\ match o with
       | Returned v => exists c w0, action c w0 = (inl v, world m')
       | Threw (ActionError e) => exists c w0, action c w0 = (inr e, world m')
       | Threw (JsError msg) =>
           msg = "SolanaService: Exhausted all RPC failover attempts."
           /\ (n = 0%nat \/ (R <= 0)%Z)
       | Threw JsTypeError => exists u, In u pool /\ validEndpoint u = false
       end.
Proof.
  induction n as [|n IH]; intros cycle m m' o Hc Hcons Hrun.
  - cbn in Hrun. inversion Hrun; subst.
    split; [intros _; assumption|]. split; [exists 0%nat; repeat split; lia|].
    split; [lia|]. split; [exists 0%nat; rewrite app_nil_r; split; [lia|reflexivity]|].
    split; [reflexivity|]. left. reflexivity.
  - rewrite cycleLoop_unfold in Hrun.
    destruct (getSolanaConnection_cases m Hcons)
      as [[conn [m1 [Hg [Hcons1 [Hconn1 [Hw1 [Ht1 He1]]]]]]] | [Hg Hbad]].
    2:{ (* the constructor rejected the current endpoint *)
      unfold bind at 1 in Hrun. rewrite Hg in Hrun. inversion Hrun; subst o m'.
      split; [congruence|].
      split; [exists 0%nat; repeat split; try lia; apply Nat.le_0_l|].
      split; [lia|].
      split; [exists 0%nat; rewrite app_nil_r; split; [apply Nat.le_0_l|reflexivity]|].
      exact Hbad. }
    unfold bind at 1 in Hrun. rewrite Hg in Hrun.
    unfold bind at 1 in Hrun.
    destruct (attemptLoop appConfig action isFailoverErrorCheck (Z.to_nat R) 0 cycle conn m1)
      as [flow m2] eqn:Hloop.
    destruct (attemptLoop_general (Z.to_nat R) 0 cycle conn m1 m2 flow
                ltac:(rewrite Z.sub_0_r; reflexivity) Hloop)
      as [k [Hk [Hrpc [Hat [Htot [Hrot [Hsl Hout]]]]]]].
    destruct (same_events m1 m He1) as [Ea [Er Es]].
    rewrite Ea in Hat. rewrite Er in Hrot. rewrite Es in Hsl. rewrite Ht1 in Htot.
    assert (Hcons2 : consistent pool (rpc m2)) by (rewrite Hrpc; exact Hcons1).
    assert (Hj : (k - 1 <= Z.to_nat R - 1)%nat) by lia.
    destruct flow as [[v| |]|[e|msg|]].
    + (* the action returned *)
      inversion Hrun; subst o m'. destruct Hout as [_ [w0 Hact]].
      split; [intros _; assumption|].
      split; [exists k; repeat split; auto; nia|].
      split; [lia|].
      split; [exists (k - 1)%nat; split; [nia|exact Hsl]|].
      eauto.
    + (* break: switch and go on *)
      destruct Hout as [Hk1 Hlt].
      replace (cycle <? N appConfig - 1)%Z with true in Hrun
        by (symmetry; apply Z.ltb_lt; exact Hlt).
      destruct (switchToNextRpc_cases m2 (consistent_nonempty _ Hcons))
        as [[c3 [m3 [Hsw [Hcons3 [Hidx3 [Hw3 [Ht3 He3]]]]]]]
           | [m3 [i3 [Hsw [Hw3 [Ht3 [He3 Hbad]]]]]]].
      2:{ (* the constructor rejected the next endpoint *)
        unfold bind at 1 in Hrun. unfold bind at 1 in Hrun. rewrite Hsw in Hrun.
        inversion Hrun; subst o m'.
        destruct (switch_events m3 m2 _ He3) as [Ea3 [Er3 Es3]].
        split; [congruence|].
        split; [exists k; repeat split; try congruence; nia|].
        split; [lia|].
        split; [exists (k - 1)%nat; split; [nia|congruence]|].
        exact Hbad. }
      unfold bind at 1 in Hrun. unfold bind at 1 in Hrun. rewrite Hsw in Hrun.
      unfold ret at 1 in Hrun.
      destruct (switch_events m3 m2 _ He3) as [Ea3 [Er3 Es3]].
      destruct (IH (cycle + 1)%Z m3 m' o ltac:(lia) Hcons3 Hrun)
        as [Hcons' [[k' [Hk' [Hat' Htot']]] [Hrot' [[j' [Hj' Hsl']] Hout']]]].
      split; [assumption|].
      split; [exists (k + k')%nat; repeat split; nia|].
      split; [lia|].
      split.
      { exists ((k - 1) + j')%nat. split; [nia|].
        rewrite Hsl', Es3, Hsl, <- app_assoc, repeat_app. reflexivity. }
      destruct o as [v|[e|msg|]]; auto.
      destruct Hout' as [Hmsg [Hn0|HR]]; split; auto.
      right. destruct n; [lia|]. lia.
    + (* the inner loop did not run *)
      destruct Hout as [Hn0 Hm2]. subst m2.
      assert (HR : (R <= 0)%Z) by lia.
      assert (Hk0 : k = 0%nat) by lia. subst k.
      destruct (cycle <? N appConfig - 1)%Z eqn:Hlt.
      * apply Z.ltb_lt in Hlt.
        destruct (switchToNextRpc_cases m1 (consistent_nonempty _ Hcons))
          as [[c3 [m3 [Hsw [Hcons3 [Hidx3 [Hw3 [Ht3 He3]]]]]]]
             | [m3 [i3 [Hsw [Hw3 [Ht3 [He3 Hbad]]]]]]].
        2:{ unfold bind at 1 in Hrun. unfold bind at 1 in Hrun. rewrite Hsw in Hrun.
          inversion Hrun; subst o m'.
          destruct (switch_events m3 m1 _ He3) as [Ea3 [Er3 Es3]].
          split; [congruence|].
          split; [exists 0%nat; repeat split; try apply Nat.le_0_l; try lia; congruence|].
          split; [lia|].
          split; [exists 0%nat; rewrite app_nil_r; split; [apply Nat.le_0_l|congruence]|].
          exact Hbad. }
        unfold bind at 1 in Hrun. unfold bind at 1 in Hrun. rewrite Hsw in Hrun.
        unfold ret at 1 in Hrun.
        destruct (switch_events m3 m1 _ He3) as [Ea3 [Er3 Es3]].
        destruct (IH (cycle + 1)%Z m3 m' o ltac:(lia) Hcons3 Hrun)
          as [Hcons' [[k' [Hk' [Hat' Htot']]] [Hrot' [[j' [Hj' Hsl']] Hout']]]].
        split; [assumption|].
        split; [exists k'; repeat split; nia|].
        split; [lia|].
        split.
        { exists j'. split; [nia|]. rewrite Hsl', Es3, Es. reflexivity. }
        destruct o as [v|[e|msg|]]; auto.
        destruct Hout' as [Hmsg _]. split; auto.
      * unfold bind at 1 in Hrun. unfold ret at 1 in Hrun.
        apply Z.ltb_ge in Hlt.
        destruct (IH (cycle + 1)%Z m1 m' o ltac:(lia) Hcons1 Hrun)
          as [Hcons' [[k' [Hk' [Hat' Htot']]] [Hrot' [[j' [Hj' Hsl']] Hout']]]].
        split; [assumption|].
        split; [exists k'; repeat split; nia|].
        split; [lia|].
        split.
        { exists j'. split; [nia|]. rewrite Hsl', Es. reflexivity. }
        destruct o as [v|[e|msg|]]; auto.
        destruct Hout' as [Hmsg _]. split; auto.
    + (* the action threw and the loop rethrew *)
      inversion Hrun; subst o m'. destruct Hout as [_ [w0 Hact]].
      split; [intros _; assumption|].
      split; [exists k; repeat split; auto; nia|].
      split; [lia|].
      split; [exists (k - 1)%nat; split; [nia|exact Hsl]|].
      eauto.
    + contradiction.
    + contradiction.
Qed.

Lemma machine_consistent (r : RpcState) (w : W) :
  consistent pool r -> consistent pool (rpc (machine r w)).
Proof. intros H. exact H. Qed.

Lemma executeRpcCall_as_cycleLoop (r : RpcState) (w : W) :
  executeRpcCall validEndpoint appConfig action isFailoverErrorCheck (machine r w)
  = cycleLoop validEndpoint appConfig action isFailoverErrorCheck (List.length pool) 0 (machine r w).
Proof. reflexivity. Qed.

(** X1: whatever the action does, the executor calls it at most
    N * limit times, awaits at most N * (limit - 1) delays, all of the
    configured length, rotates the pool at most N - 1 times, and its
    counter of attempts agrees with the calls made. *)
Theorem executeRpcCall_bounded (r : RpcState) (w : W) :
  consistent pool r ->
  (attempts (snd (executeRpcCall validEndpoint appConfig action isFailoverErrorCheck (machine r w)))
   <= List.length pool * Z.to_nat R)%nat
  /\ totalAttemptsAcrossRpcs
       (snd (executeRpcCall validEndpoint appConfig action isFailoverErrorCheck (machine r w)))
     = attempts (snd (executeRpcCall validEndpoint appConfig action isFailoverErrorCheck (machine r w)))
  /\ (rotations (snd (executeRpcCall validEndpoint appConfig action isFailoverErrorCheck (machine r w)))
      <= List.length pool - 1)%nat
  /\ exists j,
       (j <= List.length pool * (Z.to_nat R - 1))%nat
       /\ sleeps (snd (executeRpcCall validEndpoint appConfig action isFailoverErrorCheck (machine r w)))
          = repeat (EvSleep (rpcRetryDelayMs appConfig)) j.
Proof.
  intros Hcons. rewrite executeRpcCall_as_cycleLoop.
  destruct (cycleLoop validEndpoint appConfig action isFailoverErrorCheck (List.length pool) 0 (machine r w))
    as [o m'] eqn:Hrun.
  destruct (cycleLoop_general (List.length pool) 0 (machine r w) m' o
              ltac:(unfold N; lia) Hcons Hrun)
    as [_ [[k [Hk [Hat Htot]]] [Hrot [[j [Hj Hsl]] _]]]].
  cbn [snd]. cbn in Hat, Htot, Hrot, Hsl.
  repeat split; try lia. exists j. split; [exact Hj|exact Hsl].
Qed.

Lemma accepted_not_rejected :
  poolAccepted validEndpoint appConfig ->
  ~ exists u, In u pool /\ validEndpoint u = false.
Proof.
  intros Hok [u [Hin Hv]]. unfold poolAccepted in Hok. rewrite Forall_forall in Hok.
  rewrite (Hok u Hin) in Hv. discriminate.
Qed.

(** X2: on a pool whose endpoints the constructor of [Connection] all
    accepts, the executor keeps the module state consistent: after any
    run the index points into the pool and the connection in use is the
    one of the endpoint at that index.  (On a pool with an endpoint the
    constructor rejects this fails: [switchToNextRpc] moves the index
    before the constructor throws.) *)
Theorem executeRpcCall_keeps_consistent (r : RpcState) (w : W) :
  consistent pool r ->
  poolAccepted validEndpoint appConfig ->
  consistent pool
    (rpc (snd (executeRpcCall validEndpoint appConfig action isFailoverErrorCheck
                 (machine r w)))).
Proof.
  intros Hcons Hok. rewrite executeRpcCall_as_cycleLoop.
  destruct (cycleLoop validEndpoint appConfig action isFailoverErrorCheck
              (List.length pool) 0 (machine r w))
    as [o m'] eqn:Hrun.
  destruct (cycleLoop_general (List.length pool) 0 (machine r w) m' o
              ltac:(unfold N; lia) Hcons Hrun)
    as [Hc [_ [_ [_ Hout]]]].
  cbn [snd]. apply Hc. intros Ho. subst o.
  exact (accepted_not_rejected Hok Hout).
Qed.

(** X3: where the outcome of a run comes from.  A returned value is the
    value the action returned at its last call; a thrown action error is
    the one the action threw at its last call; a [TypeError] comes from
    the constructor of [Connection], which has rejected an endpoint of
    the pool; the executor throws an error of its own, the exhaustion
    fallback, only when the attempt limit is zero or less, and then it
    has not called the action. *)
Theorem executeRpcCall_outcome (r : RpcState) (w : W) :
  consistent pool r ->
  match fst (executeRpcCall validEndpoint appConfig action isFailoverErrorCheck
               (machine r w)) with
  | Returned v =>
      exists c w0,
        action c w0
        = (inl v,
           world (snd (executeRpcCall validEndpoint appConfig action isFailoverErrorCheck
                         (machine r w))))
  | Threw (ActionError e) =>
      exists c w0,
        action c w0
        = (inr e,
           world (snd (executeRpcCall validEndpoint appConfig action isFailoverErrorCheck
                         (machine r w))))
  | Threw (JsError msg) =>
      msg = "SolanaService: Exhausted all RPC failover attempts."
      /\ (R <= 0)%Z
      /\ attempts (snd (executeRpcCall validEndpoint appConfig action isFailoverErrorCheck
                          (machine r w)))
         = 0%nat
  | Threw JsTypeError => exists url, In url pool /\ validEndpoint url = false
  end.
Proof.
  intros Hcons. rewrite executeRpcCall_as_cycleLoop.
  destruct (cycleLoop validEndpoint appConfig action isFailoverErrorCheck
              (List.length pool) 0 (machine r w))
    as [o m'] eqn:Hrun.
  destruct (cycleLoop_general (List.length pool) 0 (machine r w) m' o
              ltac:(unfold N; lia) Hcons Hrun)
    as [_ [[k [Hk [Hat Htot]]] [_ [_ Hout]]]].
  cbn [fst snd]. destruct o as [v|[e|msg|]]; auto.
  destruct Hout as [Hmsg [Hn|HR]].
  - pose proof (consistent_nonempty _ Hcons) as Hne.
    destruct pool; [congruence|discriminate].
  - repeat split; auto. cbn in Hat.
    replace (Z.to_nat R) with 0%nat in Hk by lia. lia.
Qed.

Lemma attemptLoop_success
    (n : nat) (attempt cycle : Z) (conn : Connection) (m : Mach) (v : T) :
  fst (action conn (world m)) = inl v ->
  attemptLoop appConfig action isFailoverErrorCheck (S n) attempt cycle conn m
  = (Returned (FlowReturn v),
     {| rpc := rpc m; world := snd (action conn (world m));
        totalAttemptsAcrossRpcs := S (totalAttemptsAcrossRpcs m);
        events := events m ++ [EvAttempt conn] |}).
Proof.
  intros Hact. cbn [attemptLoop]. unfold bind at 1. unfold attemptAction.
  destruct (action conn (world m)) as [res w'] eqn:Ha. cbn [fst] in Hact. subst res.
  reflexivity.
Qed.

(** X4: an action that succeeds at once is called once: no delay, no
    rotation, the pool index is left alone.  [currentEndpoint r = Some
    conn] says that the module holds [conn] or that the constructor of
    [Connection] accepts the endpoint at the index and returns it. *)
Theorem executeRpcCall_first_success (r : RpcState) (w : W) (conn : Connection) (v : T) :
  pool <> [] ->
  (1 <= R)%Z ->
  currentEndpoint validEndpoint appConfig r = Some conn ->
  fst (action conn w) = inl v ->
  exists m',
    executeRpcCall validEndpoint appConfig action isFailoverErrorCheck (machine r w) = (Returned v, m')
    /\ events m' = [EvAttempt conn]
    /\ currentRpcIndex (rpc m') = currentRpcIndex r
    /\ currentConnection (rpc m') = Some conn
    /\ world m' = snd (action conn w).
Proof.
  intros Hne HR Hcur Hact. rewrite executeRpcCall_as_cycleLoop.
  destruct (List.length pool) as [|k] eqn:Hlen.
  { destruct pool; [congruence|discriminate]. }
  rewrite cycleLoop_unfold.
  destruct (getSolanaConnection_ok E W validEndpoint appConfig (machine r w) conn Hne Hcur)
    as [m1 [Hg [Hc1 [Hi1 [Hw1 [Ht1 He1]]]]]].
  unfold bind at 1. rewrite Hg.
  destruct (Z.to_nat R) as [|n] eqn:Hn; [lia|].
  unfold bind at 1.
  rewrite (attemptLoop_success n 0 0 conn m1 v) by (rewrite Hw1; exact Hact).
  eexists. split; [reflexivity|].
  cbn [events rpc world]. rewrite He1, Hw1. cbn [machine events world app].
  repeat split; auto.
Qed.

End Bounds.

(** The index after [n] rotations. *)
Lemma switchTimes_index E W (validEndpoint : string -> bool) (appConfig : AppConfig)
    (n : nat) :
  poolAccepted validEndpoint appConfig ->
  forall m : Machine W,
    consistent (rpcEndpoints appConfig) (rpc m) ->
    exists m',
      switchTimes (E:=E) validEndpoint appConfig n m = (Returned tt, m')
      /\ consistent (rpcEndpoints appConfig) (rpc m')
      /\ currentRpcIndex (rpc m')
         = ((currentRpcIndex (rpc m) + n) mod List.length (rpcEndpoints appConfig))%nat
      /\ (n <> 0%nat -> currentConnection (rpc m') <> None)
      /\ world m' = world m
      /\ rotations m' = (rotations m + n)%nat.
Proof.
  intros Hok. induction n as [|n IH]; intros m Hcons.
  - exists m. split; [reflexivity|]. split; [assumption|].
    split; [|split; [|split]].
    + destruct Hcons as [Hlt _]. rewrite Nat.add_0_r, Nat.mod_small; auto.
    + intros H. congruence.
    + reflexivity.
    + lia.
  - cbn [switchTimes]. unfold bind at 1.
    destruct (switchToNextRpc_consistent E W validEndpoint appConfig m
                (consistent_nonempty appConfig _ Hcons) Hok)
      as [c [m1 [Hsw [Hcons1 [Hidx [Hw [_ Hev]]]]]]].
    rewrite Hsw.
    destruct (IH m1 Hcons1) as [m' [Hrun [Hcons' [Hidx' [Hconn' [Hw' Hrot']]]]]].
    exists m'. split; [exact Hrun|]. split; [exact Hcons'|].
    split; [|split; [|split]].
    + rewrite Hidx', Hidx, Nat.Div0.add_mod_idemp_l. f_equal. lia.
    + intros _. destruct n as [|n'].
      * cbn in Hrun. inversion Hrun; subst m'.
        destruct (switchToNextRpc_ok E W validEndpoint appConfig m
                    (consistent_nonempty appConfig _ Hcons) Hok)
          as [url [m2 [Hsw2 [_ [Hrpc2 _]]]]].
        rewrite Hsw in Hsw2. inversion Hsw2; subst. rewrite Hrpc2. discriminate.
      * apply Hconn'. discriminate.
    + congruence.
    + rewrite Hrot'. destruct (switch_events W m1 m _ Hev) as [_ [Hr _]]. lia.
Qed.

(** X5: on a pool whose endpoints the constructor of [Connection] all
    accepts, rotating as many times as the pool has endpoints comes back
    to the endpoint it started from: every call returns, the index is
    the same, and so is the connection [getSolanaConnection] hands
    out. *)
Theorem switchTimes_round_trip E W (validEndpoint : string -> bool)
    (appConfig : AppConfig) (m : Machine W) :
  consistent (rpcEndpoints appConfig) (rpc m) ->
  poolAccepted validEndpoint appConfig ->
  exists m',
    switchTimes (E:=E) validEndpoint appConfig (List.length (rpcEndpoints appConfig)) m
    = (Returned tt, m')
    /\ currentRpcIndex (rpc m') = currentRpcIndex (rpc m)
    /\ currentEndpoint validEndpoint appConfig (rpc m')
       = currentEndpoint validEndpoint appConfig (rpc m)
    /\ world m' = world m.
Proof.
  intros Hcons Hok.
  destruct (switchTimes_index E W validEndpoint appConfig
              (List.length (rpcEndpoints appConfig)) Hok m Hcons)
    as [m' [Hrun [Hcons' [Hidx [Hconn [Hw _]]]]]].
  assert (Hi : currentRpcIndex (rpc m') = currentRpcIndex (rpc m)).
  { rewrite Hidx. destruct Hcons as [Hlt _].
    rewrite <- Nat.Div0.add_mod_idemp_r, Nat.Div0.mod_same, Nat.add_0_r.
    apply Nat.mod_small. exact Hlt. }
  exists m'. repeat split; auto.
  assert (Hne : rpcEndpoints appConfig <> []).
  { destruct Hcons as [Hlt _]. intros Hnil. rewrite Hnil in Hlt. cbn in Hlt. lia. }
  assert (Hn0 : List.length (rpcEndpoints appConfig) <> 0%nat).
  { destruct (rpcEndpoints appConfig); [congruence|discriminate]. }
  specialize (Hconn Hn0).
  unfold currentEndpoint. rewrite Hi.
  destruct Hcons as [Hlt Hc]. destruct Hcons' as [_ Hc']. rewrite Hi in Hc'.
  destruct (currentConnection (rpc m')) as [[u']|]; [|congruence].
  destruct (currentConnection (rpc m)) as [[u]|]; cbn in *.
  - congruence.
  - rewrite Hc'. unfold poolAccepted in Hok. rewrite Forall_forall in Hok.
    rewrite (Hok u' (nth_error_In _ _ Hc')). reflexivity.
Qed.

Lemma executeRpcCall_bounded_witness :
  let m' := snd (executeRpcCall httpEndpoint (defaultConfig ["https://a"; "https://b"])
                   (answeredBy "https://b") isRpcFailoverError
                   (machine initialRpcState tt)) in
  (attempts m' <= 2 * 3)%nat
  /\ totalAttemptsAcrossRpcs m' = attempts m'
  /\ (rotations m' <= 2 - 1)%nat
  /\ exists j, (j <= 2 * (3 - 1))%nat /\ sleeps m' = repeat (EvSleep 1000) j.
Proof.
  apply (executeRpcCall_bounded nat RpcError unit httpEndpoint
           (defaultConfig ["https://a"; "https://b"]) (answeredBy "https://b")
           isRpcFailoverError initialRpcState tt).
  split; [cbn; lia|exact I].
Defined.

Lemma executeRpcCall_keeps_consistent_witness :
  consistent ["https://a"; "https://b"]
    (rpc (snd (executeRpcCall httpEndpoint (defaultConfig ["https://a"; "https://b"])
                 (answeredBy "https://b") isRpcFailoverError
                 (machine initialRpcState tt)))).
Proof.
  apply (executeRpcCall_keeps_consistent nat RpcError unit httpEndpoint
           (defaultConfig ["https://a"; "https://b"]) (answeredBy "https://b")
           isRpcFailoverError initialRpcState tt).
  - split; [cbn; lia|exact I].
  - repeat constructor.
Defined.

Lemma executeRpcCall_outcome_witness :
  (exists c w0,
     answeredBy "https://b" c w0
     = (inl 42%nat,
        world (snd (executeRpcCall httpEndpoint (defaultConfig ["https://a"; "https://b"])
                      (answeredBy "https://b") isRpcFailoverError
                      (machine initialRpcState tt)))))
  /\ (exists c w0,
        unreachable c w0
        = (inr timeoutError,
           world (snd (executeRpcCall httpEndpoint (defaultConfig ["https://a"; "https://b"])
                         unreachable isRpcFailoverError (machine initialRpcState tt)))))
  /\ attempts (snd (executeRpcCall
                      httpEndpoint {| rpcEndpoints := ["https://a"; "https://b"];
                         rpcRetryAttempts := 0; rpcRetryDelayMs := 1000 |}
                      unreachable isRpcFailoverError (machine initialRpcState tt)))
     = 0%nat
  /\ (fst (executeRpcCall httpEndpoint (defaultConfig ["https://a"; "ftp://b"])
             unreachable isRpcFailoverError (machine initialRpcState tt))
      = Threw JsTypeError
      /\ exists url, In url ["https://a"; "ftp://b"] /\ httpEndpoint url = false).
Proof.
  assert (Hcons : consistent ["https://a"; "https://b"] initialRpcState)
    by (split; [cbn; lia|exact I]).
  assert (Hcons' : consistent ["https://a"; "ftp://b"] initialRpcState)
    by (split; [cbn; lia|exact I]).
  split; [|split; [|split]]; [| | |split; [reflexivity|]].
  - exact (executeRpcCall_outcome nat RpcError unit httpEndpoint
             (defaultConfig ["https://a"; "https://b"]) (answeredBy "https://b")
             isRpcFailoverError initialRpcState tt Hcons).
  - exact (executeRpcCall_outcome nat RpcError unit httpEndpoint
             (defaultConfig ["https://a"; "https://b"]) unreachable
             isRpcFailoverError initialRpcState tt Hcons).
  - exact (proj2 (proj2
             (executeRpcCall_outcome nat RpcError unit httpEndpoint
                {| rpcEndpoints := ["https://a"; "https://b"];
                   rpcRetryAttempts := 0; rpcRetryDelayMs := 1000 |} unreachable
                isRpcFailoverError initialRpcState tt Hcons))).
  - exact (executeRpcCall_outcome nat RpcError unit httpEndpoint
             (defaultConfig ["https://a"; "ftp://b"]) unreachable
             isRpcFailoverError initialRpcState tt Hcons').
Defined.

Lemma executeRpcCall_first_success_witness :
  exists m',
    executeRpcCall httpEndpoint (defaultConfig ["https://a"; "https://b"]) (answeredBy "https://a")
      isRpcFailoverError (machine initialRpcState tt)
    = (Returned 42%nat, m')
    /\ events m' = [EvAttempt {| rpcEndpoint := "https://a" |}]
    /\ currentRpcIndex (rpc m') = 0%nat
    /\ currentConnection (rpc m') = Some {| rpcEndpoint := "https://a" |}
    /\ world m' = tt.
Proof.
  apply (executeRpcCall_first_success nat RpcError unit httpEndpoint
           (defaultConfig ["https://a"; "https://b"]) (answeredBy "https://a")
           isRpcFailoverError initialRpcState tt {| rpcEndpoint := "https://a" |} 42%nat).
  - discriminate.
  - simpl. lia.
  - reflexivity.
  - reflexivity.
Defined.

Lemma switchTimes_round_trip_witness :
  exists m' : Machine unit,
    switchTimes (E:=RpcError) httpEndpoint (defaultConfig ["https://a"; "https://b"; "https://c"]) 3
      (machine {| currentConnection := Some {| rpcEndpoint := "https://b" |};
                  currentRpcIndex := 1 |} tt)
    = (Returned tt, m')
    /\ currentRpcIndex (rpc m') = 1%nat
    /\ currentEndpoint httpEndpoint (defaultConfig ["https://a"; "https://b"; "https://c"]) (rpc m')
       = Some {| rpcEndpoint := "https://b" |}
    /\ world m' = tt.
Proof.
  apply (switchTimes_round_trip RpcError unit httpEndpoint
           (defaultConfig ["https://a"; "https://b"; "https://c"])
           (machine {| currentConnection := Some {| rpcEndpoint := "https://b" |};
                       currentRpcIndex := 1 |} tt)).
  - split; [cbn; lia|reflexivity].
  - repeat constructor.
Defined.

End ExecutorBounds.

(** * The queries: what callers get back *)

Module SolanaQueriesProofs.
Import Js SolanaService PoolInvariant SolanaQueries SolanaServiceProofs.

Lemma try_ret_returns {S X A} (m : Exec S X A) (d : A) (s : S) :
  exists a, fst (try m (fun _ => ret d) s) = Returned a.
Proof.
  unfold try. destruct (m s) as [[a|x] s']; cbn; eauto.
Qed.

Section QueriesFacts.

Variable W : Type.
Variable validEndpoint : string -> bool.
Variable appConfig : AppConfig.
Variables PublicKey AccountInfo ParsedAccountInfo : Type.
Variable newPublicKey : string -> option PublicKey.
Variable conn_getAccountInfo : PublicKey -> Remote W (option AccountInfo).
Variable conn_getParsedAccountInfo : PublicKey -> Remote W (option ParsedAccountInfo).
Variable conn_getTokenSupply : PublicKey -> Remote W TokenAmount.
Variable conn_getTokenAccountBalance : PublicKey -> Remote W TokenAmount.
Variable conn_getBalance : PublicKey -> Remote W float.
Variable conn_getParsedTokenAccountsByOwner :
  PublicKey -> Remote W (option (list (ParsedTokenAccount PublicKey))).

Local Notation "'Entry'" := (ParsedTokenAccount PublicKey).
Local Notation "'collect'" := (collectAccounts W PublicKey newPublicKey).
Local Notation "'convert'" := (toTokenAccount PublicKey newPublicKey).

(** The loop over the reply, in closed form. *)
Lemma collectAccounts_closed (entries : list Entry) :
  forall (accounts : list (TokenAccount PublicKey)) (m : Machine W),
    collect entries accounts m
    = match allSome (map convert (filter held entries)) with
      | Some more => (Returned (accounts ++ more), m)
      | None => (Threw (JsError "Invalid public key input"), m)
      end.
Proof.
  induction entries as [|acc rest IH]; intros accounts m.
  - cbn. rewrite app_nil_r. reflexivity.
  - cbn [collectAccounts filter]. fold (held acc).
    destruct (held acc) eqn:Hheld.
    + cbn [map allSome]. unfold toTokenAccount at 1.
      destruct (newPublicKey (entryMint acc)) as [key|];
        destruct (entryTokenAmount acc) as [amount|]; try reflexivity.
      rewrite IH.
      destruct (allSome (map convert (filter held rest))) as [more|]; cbn.
      * rewrite <- app_assoc. reflexivity.
      * reflexivity.
    + apply IH.
Qed.

Lemma allSome_Forall {A B} (f : A -> option B) (P : A -> Prop) (Q' : B -> Prop)
    (l : list A) (out : list B) :
  (forall a b, P a -> f a = Some b -> Q' b) ->
  Forall P l ->
  allSome (map f l) = Some out ->
  Forall Q' out /\ List.length out = List.length l.
Proof.
  intros Hf. revert out. induction l as [|a l IH]; intros out Hall Hsome.
  - cbn in Hsome. inversion Hsome. split; [constructor|reflexivity].
  - cbn in Hsome. inversion Hall as [|? ? Ha Hl]; subst.
    destruct (f a) as [b|] eqn:Hfa; [|discriminate].
    destruct (allSome (map f l)) as [out'|] eqn:Hrest; [|discriminate].
    cbn in Hsome. inversion Hsome; subst.
    destruct (IH out' Hl eq_refl) as [Hq Hlen].
    split; [constructor; eauto|cbn; congruence].
Qed.

(** X6: the token accounts a caller gets.  The query never throws.  When
    the executor returns the reply of the node, the result is, in the
    order of the reply, the entries with a positive [uiAmount], each with
    its mint made a key; but if one of those mints is not a valid key the
    result is empty, as it is when the executor fails or the reply has no
    value. *)
Theorem getTokenAccountsByOwner_result (owner : PublicKey) (m : Machine W) :
  getTokenAccountsByOwner W validEndpoint appConfig PublicKey newPublicKey
    conn_getParsedTokenAccountsByOwner owner m
  = (Returned
       match fst (executeRpcCall validEndpoint appConfig (conn_getParsedTokenAccountsByOwner owner)
                    isRpcFailoverError m) with
       | Returned (Some value) =>
           match allSome (map convert (filter held value)) with
           | Some accounts => accounts
           | None => []
           end
       | _ => []
       end,
     snd (executeRpcCall validEndpoint appConfig (conn_getParsedTokenAccountsByOwner owner)
            isRpcFailoverError m)).
Proof.
  unfold getTokenAccountsByOwner, try. unfold bind at 1.
  destruct (executeRpcCall validEndpoint appConfig (conn_getParsedTokenAccountsByOwner owner)
              isRpcFailoverError m) as [[[value|]|x] m'] eqn:Hrun; cbn [fst snd];
    try reflexivity.
  rewrite collectAccounts_closed.
  destruct (allSome (map convert (filter held value))); reflexivity.
Qed.

(** X7: every account the query reports has a positive [uiAmount], and
    there are no more of them than entries in the reply of the node. *)
Theorem getTokenAccountsByOwner_positive (owner : PublicKey) (m : Machine W)
    (accounts : list (TokenAccount PublicKey)) :
  fst (getTokenAccountsByOwner W validEndpoint appConfig PublicKey newPublicKey
         conn_getParsedTokenAccountsByOwner owner m) = Returned accounts ->
  Forall (fun a => positive (accountUiAmount a) = true) accounts
  /\ forall value,
       fst (executeRpcCall validEndpoint appConfig (conn_getParsedTokenAccountsByOwner owner)
              isRpcFailoverError m) = Returned (Some value) ->
       (List.length accounts <= List.length value)%nat.
Proof.
  clear conn_getAccountInfo conn_getParsedAccountInfo conn_getTokenSupply
    conn_getTokenAccountBalance conn_getBalance.
  unfold getTokenAccountsByOwner, try. unfold bind at 1.
  destruct (executeRpcCall validEndpoint appConfig (conn_getParsedTokenAccountsByOwner owner)
              isRpcFailoverError m) as [[[value|]|x] m'] eqn:Hrun; cbn [fst snd];
    try (intros Hres; inversion Hres; subst accounts;
         split; [constructor|intros; discriminate || (cbn; lia)]).
  rewrite collectAccounts_closed.
  destruct (allSome (map convert (filter held value))) as [out|] eqn:Hall;
    cbn [fst]; intros Hres; inversion Hres as [Hacc]; clear Hres.
  - subst out.
    destruct (allSome_Forall convert (fun e => held e = true)
                (fun a => positive (accountUiAmount a) = true)
                (filter held value) accounts) as [Hpos Hlen]; auto.
    + intros e a He Hconv. unfold toTokenAccount in Hconv. unfold held in He.
      destruct (newPublicKey (entryMint e)); [|discriminate].
      destruct (entryTokenAmount e) as [amount|]; [|discriminate].
      inversion Hconv; subst. exact He.
    + apply Forall_forall. intros e He. apply filter_In in He. tauto.
    + split; [exact Hpos|].
      intros value' Hv. inversion Hv; subst value'.
      rewrite Hlen. apply filter_length_le.
  - subst accounts. split; [constructor|]. intros. cbn. lia.
Qed.

Lemma executeRpcCall_all_down {T} (action : Remote W T) (m : Machine W) (conn : Connection) :
  alwaysFailsRetriable action isRpcFailoverError ->
  rpcEndpoints appConfig <> [] ->
  poolAccepted validEndpoint appConfig ->
  (1 <= rpcRetryAttempts appConfig)%Z ->
  currentEndpoint validEndpoint appConfig (rpc m) = Some conn ->
  exists e m',
    executeRpcCall validEndpoint appConfig action isRpcFailoverError m = (Threw e, m')
    /\ attempts m'
       = (attempts m
          + List.length (rpcEndpoints appConfig) * Z.to_nat (rpcRetryAttempts appConfig))%nat
    /\ rotations m' = (rotations m + (List.length (rpcEndpoints appConfig) - 1))%nat.
Proof.
  intros Hdown Hne Hok HR Hcur. unfold executeRpcCall.
  destruct (List.length (rpcEndpoints appConfig)) as [|k] eqn:Hlen.
  { destruct (rpcEndpoints appConfig); [congruence|discriminate]. }
  destruct (cycleLoop_always_failing T RpcError W validEndpoint appConfig action
              isRpcFailoverError k Hdown Hne Hok HR 0
              {| rpc := rpc m; world := world m; totalAttemptsAcrossRpcs := 0;
                 events := events m |} conn)
    as [e [m' [c0 [w0 [Hrun [_ [_ [Hat [_ Hrot]]]]]]]]].
  - unfold N. rewrite Hlen. lia.
  - exact Hcur.
  - rewrite Hrun. eexists. exists m'. split; [reflexivity|].
    split; [exact Hat|]. rewrite Hrot. unfold rotations. cbn [events]. lia.
Qed.

Ltac defaulted Hrun :=
  unfold gaveUp, try; unfold bind at 1; rewrite Hrun;
  eexists; split; [reflexivity|]; split; assumption.

(** X8: when the network is down the queries degrade, they do not throw.
    On a non-empty pool whose endpoints the constructor of [Connection]
    all accepts, if every endpoint fails every call with an error the
    default check accepts, each of the six queries makes one full pass
    over the pool,
    [limit] calls on each of the N endpoints and N - 1 rotations, and
    then returns its default: [null] for the account, supply and balance
    queries, the empty list for the token accounts of an owner. *)
Theorem queries_all_endpoints_down (key : PublicKey) (m : Machine W) (conn : Connection) :
  alwaysFailsRetriable (conn_getAccountInfo key) isRpcFailoverError ->
  alwaysFailsRetriable (conn_getParsedAccountInfo key) isRpcFailoverError ->
  alwaysFailsRetriable (conn_getTokenSupply key) isRpcFailoverError ->
  alwaysFailsRetriable (conn_getTokenAccountBalance key) isRpcFailoverError ->
  alwaysFailsRetriable (conn_getBalance key) isRpcFailoverError ->
  alwaysFailsRetriable (conn_getParsedTokenAccountsByOwner key) isRpcFailoverError ->
  rpcEndpoints appConfig <> [] ->
  poolAccepted validEndpoint appConfig ->
  (1 <= rpcRetryAttempts appConfig)%Z ->
  currentEndpoint validEndpoint appConfig (rpc m) = Some conn ->
  gaveUp appConfig (getAccountInfo W validEndpoint appConfig PublicKey AccountInfo conn_getAccountInfo key)
    None m
  /\ gaveUp appConfig
       (getParsedAccountInfo W validEndpoint appConfig PublicKey ParsedAccountInfo
          conn_getParsedAccountInfo key) None m
  /\ gaveUp appConfig (getTokenSupply W validEndpoint appConfig PublicKey conn_getTokenSupply key) None m
  /\ gaveUp appConfig
       (getTokenAccountBalance W validEndpoint appConfig PublicKey conn_getTokenAccountBalance key)
       None m
  /\ gaveUp appConfig (getSolBalance W validEndpoint appConfig PublicKey conn_getBalance key) None m
  /\ gaveUp appConfig
       (getTokenAccountsByOwner W validEndpoint appConfig PublicKey newPublicKey
          conn_getParsedTokenAccountsByOwner key) [] m.
Proof.
  intros H1 H2 H3 H4 H5 H6 Hne Hok HR Hcur.
  destruct (executeRpcCall_all_down _ m conn H1 Hne Hok HR Hcur) as [e1 [m1 [R1 [A1 O1]]]].
  destruct (executeRpcCall_all_down _ m conn H2 Hne Hok HR Hcur) as [e2 [m2 [R2 [A2 O2]]]].
  destruct (executeRpcCall_all_down _ m conn H3 Hne Hok HR Hcur) as [e3 [m3 [R3 [A3 O3]]]].
  destruct (executeRpcCall_all_down _ m conn H4 Hne Hok HR Hcur) as [e4 [m4 [R4 [A4 O4]]]].
  destruct (executeRpcCall_all_down _ m conn H5 Hne Hok HR Hcur) as [e5 [m5 [R5 [A5 O5]]]].
  destruct (executeRpcCall_all_down _ m conn H6 Hne Hok HR Hcur) as [e6 [m6 [R6 [A6 O6]]]].
  split.
  { unfold gaveUp, getAccountInfo, try. rewrite R1.
    eexists; split; [reflexivity|]; split; assumption. }
  split; [unfold getParsedAccountInfo; defaulted R2|].
  split; [unfold getTokenSupply; defaulted R3|].
  split; [unfold getTokenAccountBalance; defaulted R4|].
  split; [unfold getSolBalance; defaulted R5|].
  unfold getTokenAccountsByOwner; defaulted R6.
Qed.

End QueriesFacts.

Lemma getTokenAccountsByOwner_positive_witness :
  Forall (fun a => positive (accountUiAmount a) = true)
    [ {| pubkey := "acc1"; mint := "mnt1"; accountUiAmount := Some 2.5%float;
         accountDecimals := 6 |};
      {| pubkey := "acc4"; mint := "mnt4"; accountUiAmount := Some 7%float;
         accountDecimals := 9 |} ]
  /\ forall value,
       fst (executeRpcCall httpEndpoint (defaultConfig ["https://a"; "https://b"])
              (sampleRemote (Some sampleEntries)) isRpcFailoverError
              (machine initialRpcState tt)) = Returned (Some value) ->
       (2 <= List.length value)%nat.
Proof.
  apply (getTokenAccountsByOwner_positive unit httpEndpoint (defaultConfig ["https://a"; "https://b"])
           string sampleKey (fun _ => sampleRemote (Some sampleEntries)) "ownr"
           (machine initialRpcState tt)).
  reflexivity.
Defined.

Lemma queries_all_endpoints_down_witness :
  let appConfig := defaultConfig ["https://a"; "https://b"] in
  let m := machine initialRpcState tt in
  gaveUp appConfig
    (getAccountInfo unit httpEndpoint appConfig string nat (fun _ => downRemote) "acc1") None m
  /\ gaveUp appConfig
       (getParsedAccountInfo unit httpEndpoint appConfig string nat (fun _ => downRemote) "acc1") None m
  /\ gaveUp appConfig (getTokenSupply unit httpEndpoint appConfig string (fun _ => downRemote) "acc1")
       None m
  /\ gaveUp appConfig
       (getTokenAccountBalance unit httpEndpoint appConfig string (fun _ => downRemote) "acc1") None m
  /\ gaveUp appConfig (getSolBalance unit httpEndpoint appConfig string (fun _ => downRemote) "acc1")
       None m
  /\ gaveUp appConfig
       (getTokenAccountsByOwner unit httpEndpoint appConfig string sampleKey (fun _ => downRemote) "acc1")
       [] m.
Proof.
  assert (Hdown : forall A, alwaysFailsRetriable (W:=unit) (@downRemote A) isRpcFailoverError).
  { intros A conn w. exists timeoutError. split; reflexivity. }
  apply (queries_all_endpoints_down unit httpEndpoint (defaultConfig ["https://a"; "https://b"])
           string nat nat sampleKey
           (fun _ => downRemote) (fun _ => downRemote) (fun _ => downRemote)
           (fun _ => downRemote) (fun _ => downRemote) (fun _ => downRemote)
           "acc1" (machine initialRpcState tt) {| rpcEndpoint := "https://a" |}).
  - apply Hdown.
  - apply Hdown.
  - apply Hdown.
  - apply Hdown.
  - apply Hdown.
  - apply Hdown.
  - discriminate.
  - repeat constructor.
  - simpl. lia.
  - reflexivity.
Defined.

End SolanaQueriesProofs.

(** * The configured pool *)

Module ConfigProofs.
Import Js Config SolanaService PoolInvariant.

(** ** [trim] *)

Lemma trimStart_clean (s : string) : startsClean (trimStart s).
Proof.
  induction s as [|c s IH]; cbn; [exact I|].
  destruct (isWhiteSpace c) eqn:Hc; [exact IH|exact Hc].
Qed.

Lemma trimStart_of_clean (s : string) : startsClean s -> trimStart s = s.
Proof. destruct s as [|c s]; cbn; [reflexivity|]. intros ->. reflexivity. Qed.

Lemma trimEnd_clean (s : string) : startsClean s -> startsClean (trimEnd s).
Proof.
  destruct s as [|c s]; cbn; [auto|]. intros Hc.
  destruct (trimEnd s); cbn; [rewrite Hc; cbn|]; exact Hc.
Qed.

Lemma trimEnd_cons (c : ascii) (s : string) :
  trimEnd (String c s)
  = match trimEnd s with
    | EmptyString => if isWhiteSpace c then EmptyString else String c EmptyString
    | rest => String c rest
    end.
Proof. reflexivity. Qed.

Lemma trimEnd_idempotent (s : string) : trimEnd (trimEnd s) = trimEnd s.
Proof.
  induction s as [|c s IH]; [reflexivity|].
  rewrite trimEnd_cons. destruct (trimEnd s) as [|d rest] eqn:Hs.
  - destruct (isWhiteSpace c) eqn:Hc; [reflexivity|].
    cbn. rewrite Hc. reflexivity.
  - rewrite trimEnd_cons, IH. reflexivity.
Qed.

Lemma trim_idempotent (s : string) : trim (trim s) = trim s.
Proof.
  unfold trim.
  rewrite (trimStart_of_clean (trimEnd (trimStart s)))
    by (apply trimEnd_clean, trimStart_clean).
  apply trimEnd_idempotent.
Qed.

Lemma trimStart_length (s : string) : (String.length (trimStart s) <= String.length s)%nat.
Proof.
  induction s as [|c s IH]; cbn; [lia|].
  destruct (isWhiteSpace c); cbn; lia.
Qed.

Lemma trimEnd_length (s : string) : (String.length (trimEnd s) <= String.length s)%nat.
Proof.
  induction s as [|c s IH]; cbn; [lia|].
  destruct (trimEnd s); [destruct (isWhiteSpace c)|]; cbn in *; lia.
Qed.

Lemma trimmed_clean (url : string) : trimmed url -> startsClean url.
Proof.
  intros [Hne Htrim]. destruct url as [|c s]; [exact I|]. cbn.
  destruct (isWhiteSpace c) eqn:Hc; [|reflexivity]. exfalso.
  assert (Hlen : (String.length (trim (String c s)) <= String.length s)%nat).
  { unfold trim. cbn [trimStart]. rewrite Hc.
    etransitivity; [apply trimEnd_length|apply trimStart_length]. }
  rewrite Htrim in Hlen. cbn in Hlen. lia.
Qed.

Lemma trimEnd_nonempty (c : ascii) (s : string) :
  isWhiteSpace c = false -> trimEnd (String c s) <> "".
Proof.
  intros Hc. rewrite trimEnd_cons.
  destruct (trimEnd s); [rewrite Hc|]; discriminate.
Qed.

Lemma nonEmpty_true (s : string) : nonEmpty s = true <-> s <> "".
Proof.
  unfold nonEmpty. rewrite negb_true_iff. split.
  - intros H. apply String.eqb_neq. exact H.
  - intros H. apply String.eqb_neq. exact H.
Qed.

Lemma primaryRpc_trimmed : trimmed primaryRpc.
Proof. split; [discriminate|reflexivity]. Qed.

(** X9: whatever SOLANA_RPC_ENDPOINTS holds, the configured pool is not
    empty, none of its endpoints is empty or has white space around it,
    and the fresh module state is consistent with it. *)
Theorem rpcEndpointsList_well_formed (rpcEndpointsEnv : option string) :
  rpcEndpointsList rpcEndpointsEnv <> []
  /\ Forall trimmed (rpcEndpointsList rpcEndpointsEnv)
  /\ consistent (rpcEndpointsList rpcEndpointsEnv) initialRpcState.
Proof.
  assert (Hparsed : forall env,
            Forall trimmed (filter nonEmpty (map trim (splitOn ","%char env)))).
  { intros env. apply Forall_forall. intros u Hu.
    apply filter_In in Hu as [Hin Hne]. apply in_map_iff in Hin as [x [Hx _]].
    subst u. split; [apply nonEmpty_true; exact Hne|apply trim_idempotent]. }
  assert (Hall : rpcEndpointsList rpcEndpointsEnv <> []
                 /\ Forall trimmed (rpcEndpointsList rpcEndpointsEnv)).
  { unfold rpcEndpointsList.
    destruct rpcEndpointsEnv as [env|].
    - destruct (nonEmpty env && negb (trim env =? "")%string).
      + destruct (filter nonEmpty (map trim (splitOn ","%char env))) as [|u us] eqn:Hf.
        * cbn. split; [discriminate|]. constructor; [apply primaryRpc_trimmed|constructor].
        * cbn [List.length Nat.eqb]. split; [discriminate|].
          rewrite <- Hf. apply Hparsed.
      + cbn. split; [discriminate|]. constructor; [apply primaryRpc_trimmed|constructor].
    - cbn. split; [discriminate|]. constructor; [apply primaryRpc_trimmed|constructor]. }
  destruct Hall as [Hne Htrim]. repeat split; auto.
  cbn. destruct (rpcEndpointsList rpcEndpointsEnv); [congruence|cbn; lia].
Qed.

(** ** Reading back a list that was written with [join(', ')] *)

Lemma append_assoc (a b c : string) : ((a ++ b) ++ c = a ++ (b ++ c))%string.
Proof. induction a as [|x a IH]; cbn; [reflexivity|rewrite IH; reflexivity]. Qed.

Lemma splitOnFrom_append (u rest cur : string) :
  hasChar ","%char u = false ->
  splitOnFrom ","%char (u ++ rest) cur = splitOnFrom ","%char rest (cur ++ u).
Proof.
  revert cur. induction u as [|c u IH]; intros cur Hno.
  - cbn. f_equal. clear. induction cur as [|x cur IH]; cbn; [reflexivity|].
    rewrite <- IH. reflexivity.
  - cbn in Hno. apply orb_false_iff in Hno as [Hc Hu].
    cbn [String.append splitOnFrom]. rewrite Hc, (IH _ Hu).
    rewrite append_assoc. reflexivity.
Qed.

Lemma splitOnFrom_join (l : list string) :
  forall (a cur : string),
    Forall (fun u => hasChar ","%char u = false) (a :: l) ->
    splitOnFrom ","%char (join ", " (a :: l)) cur
    = (cur ++ a)%string :: map (String " "%char) l.
Proof.
  induction l as [|b rest IH]; intros a cur Hall.
  - cbn [join map]. inversion Hall; subst.
    replace a with (a ++ "")%string at 1
      by (clear; induction a as [|x a IH]; cbn; [reflexivity|rewrite IH; reflexivity]).
    rewrite splitOnFrom_append by assumption. reflexivity.
  - inversion Hall as [|? ? Ha Hrest]; subst.
    change (join ", " (a :: b :: rest)) with (a ++ ", " ++ join ", " (b :: rest))%string.
    rewrite splitOnFrom_append by assumption.
    cbn [String.append splitOnFrom]. cbn [Ascii.eqb Bool.eqb].
    rewrite (IH b " "%string Hrest). reflexivity.
Qed.

(** X10: a pool written as its endpoints joined by a comma and a space
    (the form in which the configuration prints it) is read back as the
    same pool, provided no endpoint is empty, has white space around it
    or holds a comma. *)
Theorem rpcEndpointsList_join (pool : list string) :
  pool <> [] ->
  Forall writable pool ->
  rpcEndpointsList (Some (join ", " pool)) = pool.
Proof.
  intros Hne Hall. destruct pool as [|a rest]; [congruence|]. clear Hne.
  assert (Hcomma : Forall (fun u => hasChar ","%char u = false) (a :: rest)).
  { eapply Forall_impl; [|exact Hall]. intros u [_ Hu]. exact Hu. }
  assert (Ha : trimmed a) by (inversion Hall as [|? ? [Ht _] _]; exact Ht).
  assert (Hrest : Forall trimmed rest).
  { inversion Hall as [|? ? _ Hr]; subst.
    eapply Forall_impl; [|exact Hr]. intros u [Hu _]. exact Hu. }
  assert (Hsplit : filter nonEmpty (map trim (splitOn ","%char (join ", " (a :: rest))))
                   = a :: rest).
  { unfold splitOn. rewrite splitOnFrom_join by assumption.
    cbn [String.append map filter].
    destruct Ha as [Hane Hat]. rewrite Hat.
    replace (nonEmpty a) with true by (symmetry; apply nonEmpty_true; exact Hane).
    f_equal. clear - Hrest. induction rest as [|b rest IH]; [reflexivity|].
    inversion Hrest as [|? ? [Hbne Hbt] Hr]; subst.
    cbn [map filter].
    change (trim (String " "%char b)) with (trim b). rewrite Hbt.
    replace (nonEmpty b) with true by (symmetry; apply nonEmpty_true; exact Hbne).
    f_equal. apply IH. exact Hr. }
  unfold rpcEndpointsList.
  assert (Hguard : nonEmpty (join ", " (a :: rest))
                   && negb (trim (join ", " (a :: rest)) =? "")%string = true).
  { pose proof (trimmed_clean a Ha) as Hclean. destruct Ha as [Hane _].
    destruct a as [|c a']; [congruence|]. cbn in Hclean.
    assert (Hj : exists x, join ", " (String c a' :: rest) = String c x).
    { destruct rest; cbn; eauto. }
    destruct Hj as [x Hx]. rewrite Hx. cbn [nonEmpty String.eqb negb andb].
    apply negb_true_iff. apply String.eqb_neq.
    unfold trim. cbn [trimStart]. rewrite Hclean. apply trimEnd_nonempty. exact Hclean. }
  rewrite Hguard, Hsplit. reflexivity.
Qed.

Lemma rpcEndpointsList_join_witness :
  rpcEndpointsList (Some (join ", " ["https://a.example"; "https://b.example/?key=1"]))
  = ["https://a.example"; "https://b.example/?key=1"].
Proof.
  apply (rpcEndpointsList_join ["https://a.example"; "https://b.example/?key=1"]).
  - discriminate.
  - repeat constructor; discriminate.
Defined.

End ConfigProofs.

(** * More on the session *)

Module SessionProofs.
Import Js PumpFunListener SessionInvariant PumpFunListenerProofs.

(** ** No event makes the listener throw *)

Lemma succeeds_ret {A} (a : A) : succeeds (ret a).
Proof. intros s. eexists. reflexivity. Qed.

Lemma succeeds_gets {A} (f : Session -> A) : succeeds (gets f).
Proof. intros s. eexists. reflexivity. Qed.

Lemma succeeds_modify (f : Session -> Session) : succeeds (modify f).
Proof. intros s. eexists. reflexivity. Qed.

Lemma succeeds_effect (e : Effect) : succeeds (effect e).
Proof. intros s. eexists. reflexivity. Qed.

Lemma succeeds_log level text : succeeds (log level text).
Proof. intros s. eexists. reflexivity. Qed.

Lemma succeeds_bind {A B} (m : L A) (k : A -> L B) :
  succeeds m -> (forall a, succeeds (k a)) -> succeeds (bind m k).
Proof.
  intros Hm Hk s. unfold bind. destruct (Hm s) as [a Ha].
  destruct (m s) as [o s1]. cbn in Ha. subst o. apply Hk.
Qed.

Create HintDb succeeds.

#[local] Hint Resolve succeeds_ret succeeds_gets succeeds_modify succeeds_effect
  succeeds_log : succeeds.

Ltac succeeds :=
  solve [ repeat first
            [ apply succeeds_bind; [|intro]
            | solve [auto with succeeds] ] ].

Lemma sendNatsCommand_succeeds command : succeeds (sendNatsCommand command).
Proof.
  unfold sendNatsCommand. apply succeeds_bind; [succeeds|]. intros [id|]; succeeds.
Qed.

Lemma clearInterval_succeeds t : succeeds (clearInterval t).
Proof. unfold clearInterval. succeeds. Qed.

Lemma stopClientKeepAlive_succeeds : succeeds stopClientKeepAlive.
Proof.
  unfold stopClientKeepAlive. apply succeeds_bind; [succeeds|].
  intros [t|]; [|succeeds].
  apply succeeds_bind; [apply clearInterval_succeeds|]. intros _. succeeds.
Qed.

Lemma clearPingInterval_succeeds : succeeds clearPingInterval.
Proof.
  unfold clearPingInterval. apply succeeds_bind; [succeeds|].
  intros [t|]; [apply clearInterval_succeeds|succeeds].
Qed.

Lemma subscribeToTopics_succeeds : succeeds subscribeToTopics.
Proof.
  unfold subscribeToTopics.
  repeat first [ apply sendNatsCommand_succeeds
               | solve [auto with succeeds]
               | apply succeeds_bind; [|intro] ].
Qed.

Lemma startClientKeepAlive_succeeds : succeeds startClientKeepAlive.
Proof.
  unfold startClientKeepAlive, setInterval.
  apply succeeds_bind; [apply stopClientKeepAlive_succeeds|]. intros _. succeeds.
Qed.

Lemma connect_succeeds url : succeeds (connect url).
Proof.
  unfold connect, newWebSocket. destruct (url =? "")%string; succeeds.
Qed.

Lemma setReadyState_succeeds id r : succeeds (setReadyState id r).
Proof. unfold setReadyState. succeeds. Qed.

Lemma onClose_succeeds : succeeds onClose.
Proof.
  unfold onClose, setReconnectTimeout.
  repeat first [ apply stopClientKeepAlive_succeeds
               | apply clearPingInterval_succeeds
               | solve [auto with succeeds]
               | apply succeeds_bind; [|intro] ].
Qed.

Lemma stop_succeeds : succeeds stop.
Proof.
  unfold stop, removeCloseAndErrorListeners, wsClose.
  apply succeeds_bind; [succeeds|]. intros _.
  apply succeeds_bind; [succeeds|]. intros _.
  apply succeeds_bind; [apply stopClientKeepAlive_succeeds|]. intros _.
  apply succeeds_bind; [apply clearPingInterval_succeeds|]. intros _.
  apply succeeds_bind; [succeeds|]. intros current.
  apply succeeds_bind; [|intros _; succeeds].
  destruct current as [id|]; [|succeeds].
  apply succeeds_bind; [succeeds|]. intros _.
  apply succeeds_bind; [succeeds|]. intros sock.
  apply succeeds_bind; [|intros _; succeeds].
  destruct sock as [[[] cl el]|]; try succeeds;
    (apply succeeds_bind; [succeeds|]); intros _; apply setReadyState_succeeds.
Qed.

Section Events.

Variable url : string.
Variable JSON_parse : string -> option JsValue.

Lemma handleNatsMsg_succeeds messageStr : succeeds (handleNatsMsg JSON_parse messageStr).
Proof. intros s. exists tt. apply handleNatsMsg_returns. Qed.

Lemma onMessage_succeeds data : succeeds (onMessage JSON_parse data).
Proof.
  unfold onMessage.
  apply succeeds_bind; [succeeds|]. intros _.
  destruct (startsWith (trim data) "INFO").
  { apply succeeds_bind; [succeeds|]. intros _.
    apply succeeds_bind; [succeeds|]. intros st.
    destruct (NatsState_eqb st CONNECTED_WAITING_FOR_INFO_OR_PING);
      [apply subscribeToTopics_succeeds|succeeds]. }
  destruct (trim data =? "PING")%string.
  { apply succeeds_bind; [succeeds|]. intros _.
    apply succeeds_bind; [apply sendNatsCommand_succeeds|]. intros _.
    apply succeeds_bind; [succeeds|]. intros st.
    destruct (NatsState_eqb st CONNECTED_WAITING_FOR_INFO_OR_PING); [|succeeds].
    apply succeeds_bind; [succeeds|]. intros _. apply subscribeToTopics_succeeds. }
  destruct (startsWith (trim data) "MSG"); [apply handleNatsMsg_succeeds|].
  destruct (trim data =? "+OK")%string.
  { apply succeeds_bind; [succeeds|]. intros _.
    apply succeeds_bind; [succeeds|]. intros st.
    destruct (NatsState_eqb st SUBSCRIBING); succeeds. }
  destruct (trim data =? "PONG")%string; [succeeds|].
  destruct (startsWith (trim data) "-ERR"); succeeds.
Qed.

(** X11: the one event that makes the listener throw is an 'error' of a
    socket whose 'error' listener [stop] has removed, which the emitter
    throws.  Every other event returns: every call of a public method,
    every 'open', 'message' and 'close', every 'error' of a socket that
    has its listener, every timer callback; not a frame that does not
    parse, not a payload that is not JSON, not an identifier that cannot
    be printed, not a consumer that throws makes a handler throw.  (The
    calls that leave the module, to the socket, the timers and the
    logger, return in this model; in particular the listener's URL is
    one that the constructor of the socket accepts.) *)
Theorem deliver_throws_only_unhandled (i : Input) (s : Session) :
  fst (deliver url JSON_parse i s) = Returned tt
  \/ exists id sock,
       i = SocketError id
       /\ socket id s = Some sock
       /\ readyState sock <> WS_CLOSED
       /\ errorListener sock = false
       /\ fst (deliver url JSON_parse i s) = Threw UnhandledError.
Proof.
  assert (Hret : succeeds (deliver url JSON_parse i) ->
                 fst (deliver url JSON_parse i s) = Returned tt).
  { intros H. destruct (H s) as [[] Ha]. exact Ha. }
  destruct i; cbn [deliver] in *.
  - left. apply Hret.
    unfold start. destruct (url =? "")%string; [succeeds|].
    apply succeeds_bind; [succeeds|]. intros st.
    destruct (negb (NatsState_eqb st DISCONNECTED)); [succeeds|apply connect_succeeds].
  - left. apply Hret. apply stop_succeeds.
  - left. apply Hret. unfold addTokenCallback. succeeds.
  - left. apply Hret.
    apply succeeds_bind; [succeeds|].
    intros [[[] cl el]|]; try succeeds.
    apply succeeds_bind; [apply setReadyState_succeeds|]. intros _.
    unfold onOpen.
    apply succeeds_bind; [succeeds|]. intros _.
    apply succeeds_bind; [succeeds|]. intros _.
    apply succeeds_bind; [apply sendNatsCommand_succeeds|]. intros _.
    apply startClientKeepAlive_succeeds.
  - left. apply Hret.
    apply succeeds_bind; [succeeds|].
    intros [[[] cl el]|]; try succeeds; apply onMessage_succeeds.
  - clear Hret. unfold bind, gets.
    destruct (socket id s) as [[r cl el]|] eqn:Hsock; [|left; reflexivity].
    destruct el.
    + left. destruct r; reflexivity.
    + destruct r; try (left; reflexivity);
        right; eexists; eexists;
        (split; [reflexivity|]); (split; [exact Hsock|]);
        (split; [cbn; discriminate|]); (split; [reflexivity|]); reflexivity.
  - left. apply Hret.
    apply succeeds_bind; [succeeds|].
    intros [[[] cl el]|]; try succeeds;
      (apply succeeds_bind; [apply setReadyState_succeeds|]); intros _;
      cbn [closeListener]; destruct cl; try succeeds; apply onClose_succeeds.
  - left. apply Hret.
    apply succeeds_bind; [succeeds|]. intros [|pending]; [succeeds|].
    apply succeeds_bind; [succeeds|]. intros _. apply connect_succeeds.
  - left. apply Hret.
    apply succeeds_bind; [succeeds|]. intros active.
    destruct (existsb (Nat.eqb timer) active); [|succeeds].
    unfold clientKeepAlive.
    apply succeeds_bind; [succeeds|]. intros open.
    apply succeeds_bind; [succeeds|]. intros st.
    destruct open; [|succeeds].
    destruct (NatsState_eqb st OPERATIONAL || NatsState_eqb st SUBSCRIBING
              || NatsState_eqb st CONNECTED_AWAITING_PONG); [|succeeds].
    apply succeeds_bind; [succeeds|]. intros _. apply sendNatsCommand_succeeds.
Qed.

(** ** Consumers *)

Lemma invocations_fold (address data : JsValue) (l : list nat) :
  forall s,
    invocations (fold_left (fun acc i => add_effect (Invoke i address data) acc) l s)
    = invocations s ++ map (fun i => Invoke i address data) l.
Proof.
  induction l as [|i l IH]; intros s; cbn [fold_left map].
  - rewrite app_nil_r. reflexivity.
  - rewrite IH. unfold invocations at 1. cbn. rewrite filter_app. cbn.
    rewrite <- app_assoc. reflexivity.
Qed.

Lemma forEachCallback_throws before cb after (what : JsValue) :
  forall index address data s,
    (forall c, In c before -> c address data = CbReturned) ->
    cb address data = CbThrew what ->
    forEachCallback (before ++ cb :: after) index address data s
    = (Threw (Raised what),
       fold_left (fun acc i => add_effect (Invoke i address data) acc)
         (seq index (S (List.length before))) s).
Proof.
  induction before as [|c before IH]; intros index address data s Hall Hcb.
  - cbn [app forEachCallback]. l_unfold. rewrite Hcb. reflexivity.
  - cbn [app forEachCallback]. l_unfold.
    rewrite (Hall c) by (left; reflexivity).
    rewrite IH; auto. intros c' Hin. apply Hall. right. exact Hin.
Qed.

(** The dispatch of a frame that decodes to an object with an
    identifier, up to the calls of the consumers. *)
Lemma handleNatsMsg_reaches_consumers messageStr tokenData address s :
  ofInterest messageStr = true ->
  fst (parsedPayload JSON_parse (payloadStr messageStr)
         (add_effect (Log LDebug "PumpFunListener: NATS MSG") s)) = Returned tokenData ->
  fst (tokenAddress tokenData s) = Returned address ->
  truthy address = true ->
  stringifies address = true ->
  exists s1,
    invocations s1 = invocations s
    /\ handleNatsMsg JSON_parse messageStr s
       = try (forEachCallback (newTokenCallbacks s) 0 address tokenData)
           (fun _ => log LError
              "PumpFunListener: Error parsing JSON payload for advancedCoinGraduated:")
           s1.
Proof.
  intros Hint Hdec Haddr Htruthy Hstr.
  rewrite handleNatsMsg_ofInterest by assumption.
  pose proof (parsedPayload_silent JSON_parse (payloadStr messageStr)
                (add_effect (Log LDebug "PumpFunListener: NATS MSG") s)) as Hsil.
  pose proof (parsedPayload_quiet JSON_parse (payloadStr messageStr)
                (add_effect (Log LDebug "PumpFunListener: NATS MSG") s)) as Hq.
  unfold try at 1, decodeAndDispatch. unfold bind at 1.
  destruct (parsedPayload JSON_parse (payloadStr messageStr) _) as [[d|x] s1];
    cbn [fst snd] in *; [|discriminate].
  inversion Hdec; subst d.
  unfold bind at 1.
  pose proof (tokenAddress_pure tokenData s1) as Hp.
  pose proof (tokenAddress_state_independent tokenData s1 s) as Hi.
  destruct (tokenAddress tokenData s1) as [[v|x] s2]; cbn [fst snd] in *; subst s2;
    [|congruence].
  assert (v = address) by congruence. subst v. rewrite Htruthy.
  unfold bind at 1. unfold interpolate. rewrite Hstr. unfold ret at 1.
  unfold bind at 1. cbn [log effect modify].
  unfold bind at 1. unfold gets at 1. cbn [add_effect newTokenCallbacks].
  replace (newTokenCallbacks s1) with (newTokenCallbacks s)
    by (symmetry; exact (f_equal newTokenCallbacks Hq)).
  exists (add_effect (Log LInfo "PumpFunListener: New 'advancedCoinGraduated' token") s1).
  split; [|reflexivity].
  rewrite invocations_add_effect, Hsil by reflexivity.
  apply invocations_add_effect. reflexivity.
Qed.

(** X12: when a frame carries an identifier that can be printed in the
    log line (a string, for one; not an object with an own [toString])
    and every registered consumer returns, each consumer is called
    exactly once, in the order of registration, with the identifier and
    the decoded object. *)
Theorem consumers_called_in_order messageStr tokenData address s :
  ofInterest messageStr = true ->
  fst (parsedPayload JSON_parse (payloadStr messageStr)
         (add_effect (Log LDebug "PumpFunListener: NATS MSG") s)) = Returned tokenData ->
  fst (tokenAddress tokenData s) = Returned address ->
  truthy address = true ->
  stringifies address = true ->
  (forall cb, In cb (newTokenCallbacks s) -> cb address tokenData = CbReturned) ->
  invocations (snd (handleNatsMsg JSON_parse messageStr s))
  = invocations s
    ++ map (fun i => Invoke i address tokenData)
         (seq 0 (List.length (newTokenCallbacks s))).
Proof.
  intros Hint Hdec Haddr Htruthy Hstr Hall.
  destruct (handleNatsMsg_reaches_consumers messageStr tokenData address s)
    as [s1 [Hinv Hrun]]; auto.
  rewrite Hrun. unfold try.
  rewrite forEachCallback_all_return by assumption. cbn [snd].
  rewrite invocations_fold, Hinv. reflexivity.
Qed.

(** X13: a consumer that throws ends the dispatch of the frame (a frame
    whose identifier can be printed in the log line, so that the dispatch
    starts): the consumers registered before it and the consumer itself
    have been called, those registered after it are not; the error is
    caught and logged, and the handler returns. *)
Theorem throwing_consumer_stops_dispatch
    messageStr tokenData address s before cb after (what : JsValue) :
  ofInterest messageStr = true ->
  fst (parsedPayload JSON_parse (payloadStr messageStr)
         (add_effect (Log LDebug "PumpFunListener: NATS MSG") s)) = Returned tokenData ->
  fst (tokenAddress tokenData s) = Returned address ->
  truthy address = true ->
  stringifies address = true ->
  newTokenCallbacks s = before ++ cb :: after ->
  (forall c, In c before -> c address tokenData = CbReturned) ->
  cb address tokenData = CbThrew what ->
  fst (handleNatsMsg JSON_parse messageStr s) = Returned tt
  /\ invocations (snd (handleNatsMsg JSON_parse messageStr s))
     = invocations s
       ++ map (fun i => Invoke i address tokenData) (seq 0 (S (List.length before)))
  /\ last (effects (snd (handleNatsMsg JSON_parse messageStr s))) (JsonParse "")
     = Log LError "PumpFunListener: Error parsing JSON payload for advancedCoinGraduated:".
Proof.
  intros Hint Hdec Haddr Htruthy Hstr Hcbs Hbefore Hcb.
  split; [apply handleNatsMsg_returns|].
  destruct (handleNatsMsg_reaches_consumers messageStr tokenData address s)
    as [s1 [Hinv Hrun]]; auto.
  rewrite Hrun, Hcbs. unfold try.
  rewrite (forEachCallback_throws before cb after what) by assumption.
  cbn [log effect modify snd]. split.
  - rewrite invocations_add_effect by reflexivity.
    rewrite invocations_fold, Hinv. reflexivity.
  - cbn [add_effect effects]. apply last_last.
Qed.

Lemma silent_modify (f : Session -> Session) :
  (forall s, effects (f s) = effects s) -> silent (modify f).
Proof. intros Hf s. unfold invocations. cbn. rewrite Hf. reflexivity. Qed.

Lemma silent_effect' (e : Effect) : isInvoke e = false -> silent (effect e).
Proof. apply silent_effect. Qed.

Ltac silence :=
  solve [ repeat first
            [ apply silent_ret | apply silent_gets | apply silent_log
            | apply silent_throw
            | apply silent_effect'; reflexivity
            | apply silent_modify; intros; reflexivity
            | apply silent_bind; [|intro] ] ].

Lemma sendNatsCommand_silent command : silent (sendNatsCommand command).
Proof.
  unfold sendNatsCommand. apply silent_bind; [silence|]. intros [id|]; silence.
Qed.

Lemma clearInterval_silent t : silent (clearInterval t).
Proof. unfold clearInterval. silence. Qed.

Lemma stopClientKeepAlive_silent : silent stopClientKeepAlive.
Proof.
  unfold stopClientKeepAlive. apply silent_bind; [silence|].
  intros [t|]; [|silence].
  apply silent_bind; [apply clearInterval_silent|]. intros _. silence.
Qed.

Lemma clearPingInterval_silent : silent clearPingInterval.
Proof.
  unfold clearPingInterval. apply silent_bind; [silence|].
  intros [t|]; [apply clearInterval_silent|silence].
Qed.

Lemma subscribeToTopics_silent : silent subscribeToTopics.
Proof.
  unfold subscribeToTopics.
  repeat first [ apply sendNatsCommand_silent
               | apply silent_log
               | apply silent_modify; intros; reflexivity
               | apply silent_bind; [|intro] ].
Qed.

Lemma connect_silent : silent (connect url).
Proof. unfold connect, newWebSocket. destruct (url =? "")%string; silence. Qed.

Lemma setReadyState_silent id r : silent (setReadyState id r).
Proof. unfold setReadyState. silence. Qed.

Lemma stop_silent : silent stop.
Proof.
  unfold stop, removeCloseAndErrorListeners, wsClose.
  apply silent_bind; [silence|]. intros _.
  apply silent_bind; [silence|]. intros _.
  apply silent_bind; [apply stopClientKeepAlive_silent|]. intros _.
  apply silent_bind; [apply clearPingInterval_silent|]. intros _.
  apply silent_bind; [silence|]. intros current.
  apply silent_bind; [|intros _; silence].
  destruct current as [id|]; [|silence].
  apply silent_bind; [silence|]. intros _.
  apply silent_bind; [silence|]. intros sock.
  apply silent_bind; [|intros _; silence].
  destruct sock as [[[] cl el]|]; try silence;
    (apply silent_bind; [silence|]); intros _; apply setReadyState_silent.
Qed.

Lemma onClose_silent : silent onClose.
Proof.
  unfold onClose, setReconnectTimeout.
  repeat first [ apply stopClientKeepAlive_silent
               | apply clearPingInterval_silent
               | apply silent_log
               | apply silent_effect'; reflexivity
               | apply silent_modify; intros; reflexivity
               | apply silent_bind; [|intro] ].
Qed.

Lemma handleNatsMsg_silent_unless messageStr :
  ofInterest messageStr = false -> silent (handleNatsMsg JSON_parse messageStr).
Proof.
  unfold ofInterest, handleNatsMsg. intros Hno.
  destruct (List.length (parts messageStr) <? 4)%nat eqn:Hlen; [silence|].
  destruct (payloadIndex messageStr =? -1)%Z eqn:Hidx; [silence|].
  apply silent_bind; [silence|]. intros _.
  destruct ((nth 2 (parts messageStr) "" =? SID_ADVANCED_COIN_GRADUATED)%string
            && (nth 1 (parts messageStr) "" =? "advancedCoinGraduated")%string) eqn:Hc;
    [|silence].
  exfalso. apply andb_true_iff in Hc as [Hsid Hsubj].
  apply Nat.ltb_ge in Hlen. apply Nat.leb_le in Hlen.
  rewrite ?Hlen, ?Hidx, ?Hsid, ?Hsubj in Hno. cbn in Hno. discriminate.
Qed.

Lemma onMessage_silent_unless data :
  startsWith (trim data) "MSG" && ofInterest (trim data) = false ->
  silent (onMessage JSON_parse data).
Proof.
  intros Hno. unfold onMessage.
  apply silent_bind; [silence|]. intros _.
  destruct (startsWith (trim data) "INFO").
  { apply silent_bind; [silence|]. intros _.
    apply silent_bind; [silence|]. intros st.
    destruct (NatsState_eqb st CONNECTED_WAITING_FOR_INFO_OR_PING);
      [apply subscribeToTopics_silent|silence]. }
  destruct (trim data =? "PING")%string.
  { apply silent_bind; [silence|]. intros _.
    apply silent_bind; [apply sendNatsCommand_silent|]. intros _.
    apply silent_bind; [silence|]. intros st.
    destruct (NatsState_eqb st CONNECTED_WAITING_FOR_INFO_OR_PING); [|silence].
    apply silent_bind; [silence|]. intros _. apply subscribeToTopics_silent. }
  destruct (startsWith (trim data) "MSG").
  { cbn in Hno. apply handleNatsMsg_silent_unless. exact Hno. }
  destruct (trim data =? "+OK")%string.
  { apply silent_bind; [silence|]. intros _.
    apply silent_bind; [silence|]. intros st.
    destruct (NatsState_eqb st SUBSCRIBING); silence. }
  destruct (trim data =? "PONG")%string; [silence|].
  destruct (startsWith (trim data) "-ERR"); silence.
Qed.

(** X14: consumers are called for nothing but a MSG frame of subscription
    2 on the subject advancedCoinGraduated that reaches the 'message'
    listener of a socket, which it does while the socket is open or
    closing (also after [stop], which leaves that listener attached): no
    other frame, no frame of the two other subscriptions, no call and no
    timer ever invokes one. *)
Theorem consumers_only_on_graduated_frames (i : Input) (s : Session) :
  invocations (step url JSON_parse s i) <> invocations s ->
  exists id data,
    i = SocketMessage id data
    /\ startsWith (trim data) "MSG" = true
    /\ ofInterest (trim data) = true
    /\ exists sock,
         socket id s = Some sock
         /\ (readyState sock = WS_OPEN \/ readyState sock = WS_CLOSING).
Proof.
  intros Hchange.
  destruct i as [| |cb|id|id data|id|id| |timer];
    match type of Hchange with
    | context [SocketMessage] => idtac
    | _ => exfalso; apply Hchange; unfold step; cbn [deliver]
    end.
  - unfold start. destruct (url =? "")%string; [apply silent_log|].
    apply silent_bind; [silence|]. intros st.
    destruct (negb (NatsState_eqb st DISCONNECTED)); [silence|apply connect_silent].
  - apply stop_silent.
  - unfold addTokenCallback. apply silent_modify. intros; reflexivity.
  - apply silent_bind; [silence|].
    intros [[[] cl el]|]; try silence.
    apply silent_bind; [apply setReadyState_silent|]. intros _.
    unfold onOpen, startClientKeepAlive, setInterval.
    repeat first [ apply sendNatsCommand_silent
                 | apply stopClientKeepAlive_silent
                 | apply silent_log | apply silent_gets
                 | apply silent_effect'; reflexivity
                 | apply silent_modify; intros; reflexivity
                 | apply silent_bind; [|intro] ].
  - destruct (startsWith (trim data) "MSG" && ofInterest (trim data)) eqn:Hmsg.
    + apply andb_true_iff in Hmsg as [Hm Ho].
      destruct (socket id s) as [[[] cl el]|] eqn:Hsock;
        try (exfalso; apply Hchange; unfold step; cbn [deliver];
             unfold bind, gets; rewrite Hsock; reflexivity);
        exists id, data; (split; [reflexivity|]); (split; [exact Hm|]);
        (split; [exact Ho|]); eexists; (split; [exact Hsock|]); cbn; auto.
    + exfalso. apply Hchange. unfold step. cbn [deliver].
      apply silent_bind; [silence|].
      intros [[[] cl el]|]; try silence; apply onMessage_silent_unless; exact Hmsg.
  - apply silent_bind; [silence|].
    intros [[[] cl el]|]; try silence;
      (apply silent_bind; [apply setReadyState_silent|]); intros _;
      cbn [errorListener]; destruct el; try silence; unfold onError; silence.
  - apply silent_bind; [silence|].
    intros [[[] cl el]|]; try silence;
      (apply silent_bind; [apply setReadyState_silent|]); intros _;
      cbn [closeListener]; destruct cl; try silence; apply onClose_silent.
  - apply silent_bind; [silence|]. intros [|pending]; [silence|].
    apply silent_bind; [silence|]. intros _. apply connect_silent.
  - apply silent_bind; [silence|]. intros active.
    destruct (existsb (Nat.eqb timer) active); [|silence].
    unfold clientKeepAlive.
    apply silent_bind; [silence|]. intros open.
    apply silent_bind; [silence|]. intros st.
    destruct open; [|silence].
    destruct (NatsState_eqb st OPERATIONAL || NatsState_eqb st SUBSCRIBING
              || NatsState_eqb st CONNECTED_AWAITING_PONG); [|silence].
    apply silent_bind; [silence|]. intros _. apply sendNatsCommand_silent.
Qed.

(** ** The handshake *)

Lemma sent_add_effect (e : Effect) (s : Session) :
  sent (add_effect e s) = sent s ++ (if isSend e then [e] else []).
Proof. unfold sent. cbn. rewrite filter_app. cbn. destruct (isSend e); reflexivity. Qed.

Lemma sent_set_natsState (st : NatsState) (s : Session) :
  sent (set_natsState st s) = sent s.
Proof. reflexivity. Qed.

Ltac sent_steps :=
  repeat (rewrite sent_add_effect || rewrite sent_set_natsState);
  cbn [isSend]; rewrite ?app_nil_r.

Lemma sendNatsCommand_open command (s : Session) (id : nat) :
  wsIsOpen s = Some id ->
  sendNatsCommand command s
  = (Returned tt,
     add_effect (Send id (command ++ CRLF)%string)
       (add_effect (Log LDebug "PumpFunListener: Sending NATS command") s)).
Proof. intros H. unfold sendNatsCommand. l_unfold. rewrite H. reflexivity. Qed.

Lemma subscribeToTopics_open (s : Session) (id : nat) :
  wsIsOpen s = Some id ->
  exists s',
    subscribeToTopics s = (Returned tt, s')
    /\ natsState s' = SUBSCRIBING
    /\ wsIsOpen s' = Some id
    /\ sent s' = sent s ++ subscriptions id.
Proof.
  intros H. unfold subscribeToTopics.
  unfold bind. cbn [log effect modify].
  rewrite (sendNatsCommand_open _ _ id) by exact H.
  rewrite (sendNatsCommand_open _ _ id) by exact H.
  rewrite (sendNatsCommand_open _ _ id) by exact H.
  eexists. split; [reflexivity|]. split; [reflexivity|]. split; [exact H|].
  sent_steps. unfold subscriptions. rewrite <- !app_assoc. reflexivity.
Qed.

(** X15: the handshake.  While the session waits for the server after
    CONNECT, on an open socket, an INFO frame makes it send its three SUB
    commands, in order, and move to SUBSCRIBING; a PING that comes
    before any INFO is answered with PONG first, then the same three SUB
    commands are sent and the session moves to SUBSCRIBING as well. *)
Theorem handshake_starts_subscriptions (data : string) (s : Session) (id : nat) :
  natsState s = CONNECTED_WAITING_FOR_INFO_OR_PING ->
  wsIsOpen s = Some id ->
  (startsWith (trim data) "INFO" = true ->
   natsState (snd (onMessage JSON_parse data s)) = SUBSCRIBING
   /\ sent (snd (onMessage JSON_parse data s)) = sent s ++ subscriptions id)
  /\ (trim data = "PING" ->
      natsState (snd (onMessage JSON_parse data s)) = SUBSCRIBING
      /\ sent (snd (onMessage JSON_parse data s))
         = sent s ++ Send id ("PONG" ++ CRLF)%string :: subscriptions id).
Proof.
  intros Hst Hopen. split.
  - intros Hinfo. unfold onMessage. rewrite Hinfo.
    unfold bind, gets. cbn [log effect modify add_effect natsState].
    rewrite Hst. cbn [NatsState_eqb].
    match goal with
    | |- context [subscribeToTopics ?s0] =>
        destruct (subscribeToTopics_open s0 id Hopen) as [s' [Hrun [Hs [_ Hsent]]]]
    end.
    rewrite Hrun. cbn [snd]. split; [exact Hs|].
    rewrite Hsent. sent_steps. reflexivity.
  - intros Hping. unfold onMessage. rewrite Hping.
    change (startsWith "PING" "INFO") with false.
    change ("PING" =? "PING")%string with true. cbv iota.
    unfold bind, gets. cbn [log effect modify].
    rewrite (sendNatsCommand_open _ _ id) by exact Hopen.
    cbn [add_effect natsState]. rewrite Hst. cbn [NatsState_eqb].
    match goal with
    | |- context [subscribeToTopics ?s0] =>
        destruct (subscribeToTopics_open s0 id Hopen) as [s' [Hrun [Hs [_ Hsent]]]]
    end.
    rewrite Hrun. cbn [snd]. split; [exact Hs|].
    rewrite Hsent. sent_steps. rewrite <- app_assoc. reflexivity.
Qed.

(** ** Which frames move the protocol state *)

Lemma subscribeToTopics_state (s : Session) :
  natsState (snd (subscribeToTopics s)) = SUBSCRIBING.
Proof.
  unfold subscribeToTopics. unfold bind at 1. cbn [log effect modify].
  apply ends_in.
  apply keeps_bind; [apply sendNatsCommand_keeps|]. intros _.
  apply keeps_bind; [apply sendNatsCommand_keeps|]. intros _.
  apply keeps_bind; [apply sendNatsCommand_keeps|]. intros _. keeps.
Qed.

Lemma NatsState_eqb_eq (a b : NatsState) : NatsState_eqb a b = true -> a = b.
Proof. destruct a, b; cbn; intros H; try discriminate; reflexivity. Qed.

(** X16: frames move the protocol state along two edges only.  Whatever
    the frame and whatever the session, when the message handler changes
    the state, either the session was waiting for the server and the
    frame is INFO or PING, and the state is now SUBSCRIBING, or the
    session was SUBSCRIBING and the frame is +OK, and the state is now
    OPERATIONAL.  In particular MSG, PONG, -ERR and unknown frames never
    change it, and the handler never moves a session to
    CONNECTED_AWAITING_PONG. *)
Theorem onMessage_transitions (data : string) (s : Session) :
  natsState (snd (onMessage JSON_parse data s)) <> natsState s ->
  (natsState s = CONNECTED_WAITING_FOR_INFO_OR_PING
   /\ (startsWith (trim data) "INFO" = true \/ trim data = "PING")
   /\ natsState (snd (onMessage JSON_parse data s)) = SUBSCRIBING)
  \/ (natsState s = SUBSCRIBING
      /\ trim data = "+OK"
      /\ natsState (snd (onMessage JSON_parse data s)) = OPERATIONAL).
Proof.
  unfold onMessage.
  destruct (startsWith (trim data) "INFO") eqn:Hinfo.
  { unfold bind, gets. cbn [log effect modify add_effect natsState].
    destruct (NatsState_eqb (natsState s) CONNECTED_WAITING_FOR_INFO_OR_PING) eqn:Hw.
    - intros _. left. apply NatsState_eqb_eq in Hw.
      split; [exact Hw|]. split; [left; reflexivity|].
      apply subscribeToTopics_state.
    - intros H. exfalso. apply H. reflexivity. }
  destruct (trim data =? "PING")%string eqn:Hping.
  { apply String.eqb_eq in Hping.
    unfold bind, gets. cbn [log effect modify].
    match goal with
    | |- context [sendNatsCommand "PONG" ?s1] =>
        pose proof (sendNatsCommand_keeps "PONG" s1) as Hk;
        destruct (sendNatsCommand "PONG" s1) as [[[]|x] s2]
    end; cbn [snd add_effect natsState] in Hk.
    - rewrite Hk.
      destruct (NatsState_eqb (natsState s) CONNECTED_WAITING_FOR_INFO_OR_PING) eqn:Hw.
      + intros _. left. apply NatsState_eqb_eq in Hw.
        split; [exact Hw|]. split; [right; exact Hping|].
        apply subscribeToTopics_state.
      + intros H. exfalso. apply H. exact Hk.
    - intros H. exfalso. apply H. exact Hk. }
  destruct (startsWith (trim data) "MSG").
  { intros H. exfalso. apply H. unfold bind. cbn [log effect modify].
    rewrite (quiet_keeps _ (handleNatsMsg_quiet JSON_parse (trim data)) _).
    reflexivity. }
  destruct (trim data =? "+OK")%string eqn:Hok.
  { apply String.eqb_eq in Hok.
    unfold bind, gets. cbn [log effect modify add_effect natsState].
    destruct (NatsState_eqb (natsState s) SUBSCRIBING) eqn:Hw.
    - intros _. right. apply NatsState_eqb_eq in Hw.
      split; [exact Hw|]. split; [exact Hok|]. reflexivity.
    - intros H. exfalso. apply H. reflexivity. }
  destruct (trim data =? "PONG")%string; [intros H; exfalso; apply H; reflexivity|].
  destruct (startsWith (trim data) "-ERR"); intros H; exfalso; apply H; reflexivity.
Qed.

(** ** After [stop] *)

Lemma nth_error_updateSocket (f : WebSocket -> WebSocket) (l : list WebSocket) :
  forall id, nth_error (updateSocket id f l) id = option_map f (nth_error l id).
Proof.
  induction l as [|sock rest IH]; intros [|id]; cbn; auto.
Qed.

Lemma length_updateSocket (f : WebSocket -> WebSocket) (l : list WebSocket) :
  forall id, List.length (updateSocket id f l) = List.length l.
Proof.
  induction l as [|sock rest IH]; intros [|id]; cbn; auto.
Qed.

Lemma stop_socket (s : Session) (id : nat) (sock : WebSocket) :
  ws s = Some id ->
  socket id (snd (stop s)) = Some sock ->
  closeListener sock = false /\ errorListener sock = false.
Proof.
  destruct s as [w st cbs ping keep socks ints pend next effs]. cbn [ws].
  intros ->.
  unfold stop, stopClientKeepAlive, clearPingInterval, clearInterval,
    removeCloseAndErrorListeners, wsClose, setReadyState, socket.
  l_unfold. cbn.
  destruct keep as [t|]; destruct ping as [p|]; cbn;
    rewrite !nth_error_updateSocket;
    destruct (nth_error socks id) as [[[] cl el]|]; cbn;
    rewrite ?nth_error_updateSocket; cbn;
    try rewrite ?nth_error_updateSocket;
    intros H; try discriminate.
  all: try (destruct (nth_error socks id) as [[r cl' el']|]; cbn in H; try discriminate).
  all: inversion H; subst; cbn; auto.
Qed.

(** X17: [stop] detaches the socket.  The socket the listener holds when
    [stop] is called has lost its 'close' and 'error' listeners.  When it
    later closes, the session does not notice: the event returns with no
    log line, no timer and no reconnect, and the session stays
    DISCONNECTED without a socket.  When it later fails, no handler of
    the session runs either and the session is left the same, but the
    'error' event has no listener and the emitter throws it. *)
Theorem stop_detaches_socket (s : Session) (id : nat) :
  ws s = Some id ->
  let stopped := step url JSON_parse s CallStop in
  let unnoticed (later : Session) : Prop :=
    effects later = effects stopped
    /\ natsState later = DISCONNECTED
    /\ ws later = None
    /\ reconnectTimers later = reconnectTimers s
    /\ clientKeepAliveIntervalId later = None in
  (fst (deliver url JSON_parse (SocketClose id) stopped) = Returned tt
   /\ unnoticed (step url JSON_parse stopped (SocketClose id)))
  /\ (unnoticed (step url JSON_parse stopped (SocketError id))
      /\ forall sock,
           socket id stopped = Some sock ->
           readyState sock <> WS_CLOSED ->
           fst (deliver url JSON_parse (SocketError id) stopped) = Threw UnhandledError).
Proof.
  intros Hws. cbn zeta.
  replace (step url JSON_parse s CallStop) with (snd (stop s)) by reflexivity.
  destruct (stop_result s) as [Hw [Hk [_ [Hst [Hre _]]]]].
  pose proof (fun sock => stop_socket s id sock Hws) as Hsock.
  set (s1 := snd (stop s)) in *.
  assert (Hsame : effects s1 = effects s1 /\ natsState s1 = DISCONNECTED /\ ws s1 = None
            /\ reconnectTimers s1 = reconnectTimers s
            /\ clientKeepAliveIntervalId s1 = None) by auto.
  assert (Hquiet : forall r, let s2 := snd (setReadyState id r s1) in
            effects s2 = effects s1 /\ natsState s2 = DISCONNECTED /\ ws s2 = None
            /\ reconnectTimers s2 = reconnectTimers s
            /\ clientKeepAliveIntervalId s2 = None).
  { intros r. cbn. auto. }
  unfold step; cbn [deliver]; unfold bind, gets.
  destruct (socket id s1) as [[r cl el]|] eqn:Hs1.
  - destruct (Hsock _ eq_refl) as [Hcl Hel]. cbn in Hcl, Hel. subst cl el.
    split; [split|split].
    + destruct r; reflexivity.
    + destruct r; try exact Hsame; apply Hquiet.
    + destruct r; try exact Hsame; apply Hquiet.
    + intros sock Hs Hopen. inversion Hs; subst sock. cbn in Hopen.
      destruct r; try reflexivity. congruence.
  - split; [split; [reflexivity|exact Hsame]|].
    split; [exact Hsame|]. intros sock Hs. discriminate.
Qed.

(** ** Reconnection *)

(** X18: the listener heals itself.  When a socket that still has its
    'close' listener closes, and the reconnect timeout set by the handler
    then fires, the session is CONNECTING on a fresh socket, the one the
    listener now holds, with its listeners registered; the old socket is
    CLOSED, the keep-alive interval is cleared, and no reconnect timeout
    is left over from the cycle. *)
Theorem reconnect_cycle (s : Session) (id : nat) (sock : WebSocket) :
  url <> "" ->
  socket id s = Some sock ->
  readyState sock <> WS_CLOSED ->
  closeListener sock = true ->
  let s' := run url JSON_parse [SocketClose id; ReconnectTimeout] s in
  let fresh := List.length (sockets s) in
  natsState s' = CONNECTING
  /\ ws s' = Some fresh
  /\ socket fresh s'
     = Some {| readyState := WS_CONNECTING; closeListener := true; errorListener := true |}
  /\ option_map readyState (socket id s') = Some WS_CLOSED
  /\ reconnectTimers s' = reconnectTimers s
  /\ clientKeepAliveIntervalId s' = None
  /\ (forall t, clientKeepAliveIntervalId s = Some t -> ~ In t (intervals s')).
Proof.
  intros Hurl Hsock Hopen Hcl. apply String.eqb_neq in Hurl.
  destruct s as [w st cbs ping keep socks ints pend next effs].
  unfold socket in Hsock. cbn [sockets] in Hsock.
  assert (Hid : (id < List.length socks)%nat).
  { apply nth_error_Some. rewrite Hsock. discriminate. }
  destruct sock as [r cl el]. cbn in Hopen, Hcl. subst cl.
  cbn zeta. unfold run. cbn [fold_left]. unfold step. cbn [deliver].
  unfold connect, newWebSocket, onClose, setReconnectTimeout, stopClientKeepAlive,
    clearPingInterval, clearInterval, setReadyState, socket.
  l_unfold. cbn [sockets]. rewrite Hsock.
  destruct r; try congruence; destruct keep as [t|]; destruct ping as [p|];
    cbn; rewrite Hurl; cbn.
  all: rewrite length_updateSocket.
  all: split; [reflexivity|]; split; [reflexivity|].
  all: split;
    [rewrite nth_error_app2 by (rewrite length_updateSocket; lia);
     rewrite length_updateSocket, Nat.sub_diag; reflexivity|].
  all: split;
    [rewrite nth_error_app1 by (rewrite length_updateSocket; exact Hid);
     rewrite nth_error_updateSocket, Hsock; reflexivity|].
  all: split; [reflexivity|]; split; [reflexivity|].
  all: intros t0 Ht0; try discriminate; inversion Ht0; subst.
  all: rewrite ?filter_In; intros Hin; repeat (destruct Hin as [Hin ?]);
    match goal with
    | H : negb (?x =? ?x)%nat = true |- _ => rewrite Nat.eqb_refl in H; discriminate
    end.
Qed.

(** ** The timers *)

Lemma timers_ret {A} (a : A) : keepsTimers (ret a).
Proof. intros s. reflexivity. Qed.

Lemma timers_throw {A} (x : JsException) : keepsTimers (throw (A:=A) x).
Proof. intros s. reflexivity. Qed.

Lemma timers_gets {A} (f : Session -> A) : keepsTimers (gets f).
Proof. intros s. reflexivity. Qed.

Lemma timers_effect (e : Effect) : keepsTimers (effect e).
Proof. intros s. reflexivity. Qed.

Lemma timers_log level text : keepsTimers (log level text).
Proof. intros s. reflexivity. Qed.

Lemma timers_modify (f : Session -> Session) :
  (forall s, timerFields (f s) = timerFields s) -> keepsTimers (modify f).
Proof. intros Hf s. apply Hf. Qed.

Lemma timers_bind {A B} (m : L A) (k : A -> L B) :
  keepsTimers m -> (forall a, keepsTimers (k a)) -> keepsTimers (bind m k).
Proof.
  intros Hm Hk s. unfold bind. specialize (Hm s).
  destruct (m s) as [[a|x] s1]; cbn [snd] in *.
  - rewrite (Hk a s1). exact Hm.
  - exact Hm.
Qed.

Lemma quiet_timers {A} (m : L A) : quiet m -> keepsTimers m.
Proof. intros Hq s. exact (f_equal timerFields (Hq s)). Qed.

Lemma timers_tidy {A} (m : L A) : keepsTimers m -> staysTidy m.
Proof.
  intros Hk s [Hp Hi]. specialize (Hk s). unfold timerFields in Hk.
  inversion Hk as [[H1 H2 H3 H4]]. unfold tidyTimers. rewrite H1, H2, H3. auto.
Qed.

Lemma tidy_bind {A B} (m : L A) (k : A -> L B) :
  staysTidy m -> (forall a, staysTidy (k a)) -> staysTidy (bind m k).
Proof.
  intros Hm Hk s Hs. unfold bind. specialize (Hm s Hs).
  destruct (m s) as [[a|x] s1]; cbn [snd] in *.
  - apply (Hk a s1). exact Hm.
  - exact Hm.
Qed.

Create HintDb timers.

#[local] Hint Resolve timers_ret timers_throw timers_gets timers_effect timers_log
  : timers.

Ltac timers :=
  solve [ repeat first
            [ apply timers_bind; [|intro]
            | apply timers_modify; intros; reflexivity
            | solve [auto with timers] ] ].

Lemma sendNatsCommand_timers command : keepsTimers (sendNatsCommand command).
Proof.
  unfold sendNatsCommand. apply timers_bind; [timers|]. intros [id|]; timers.
Qed.

Lemma subscribeToTopics_timers : keepsTimers subscribeToTopics.
Proof.
  unfold subscribeToTopics.
  apply timers_bind; [timers|]. intros _.
  apply timers_bind; [timers|]. intros _.
  apply timers_bind; [apply sendNatsCommand_timers|]. intros _.
  apply timers_bind; [apply sendNatsCommand_timers|]. intros _.
  apply timers_bind; [apply sendNatsCommand_timers|]. intros _. timers.
Qed.

Lemma onMessage_timers data : keepsTimers (onMessage JSON_parse data).
Proof.
  unfold onMessage.
  apply timers_bind; [timers|]. intros _.
  destruct (startsWith (trim data) "INFO").
  { apply timers_bind; [timers|]. intros _.
    apply timers_bind; [timers|]. intros st.
    destruct (NatsState_eqb st _); [apply subscribeToTopics_timers|timers]. }
  destruct (trim data =? "PING")%string.
  { apply timers_bind; [timers|]. intros _.
    apply timers_bind; [apply sendNatsCommand_timers|]. intros _.
    apply timers_bind; [timers|]. intros st.
    destruct (NatsState_eqb st _); [|timers].
    apply timers_bind; [timers|]. intros _. apply subscribeToTopics_timers. }
  destruct (startsWith (trim data) "MSG").
  { apply quiet_timers, handleNatsMsg_quiet. }
  destruct (trim data =? "+OK")%string.
  { apply timers_bind; [timers|]. intros _.
    apply timers_bind; [timers|]. intros st.
    destruct (NatsState_eqb st _); timers. }
  destruct (trim data =? "PONG")%string; [timers|].
  destruct (startsWith (trim data) "-ERR"); timers.
Qed.

Lemma clientKeepAlive_timers : keepsTimers clientKeepAlive.
Proof.
  unfold clientKeepAlive. apply timers_bind; [timers|]. intros open.
  apply timers_bind; [timers|]. intros st.
  destruct open; [|timers].
  destruct (NatsState_eqb st OPERATIONAL || NatsState_eqb st SUBSCRIBING
            || NatsState_eqb st CONNECTED_AWAITING_PONG); [|timers].
  apply timers_bind; [timers|]. intros _. apply sendNatsCommand_timers.
Qed.

Lemma setReadyState_timers id r : keepsTimers (setReadyState id r).
Proof. unfold setReadyState. timers. Qed.

Lemma connect_timers : keepsTimers (connect url).
Proof.
  unfold connect, newWebSocket. destruct (url =? "")%string; timers.
Qed.

Lemma start_timers : keepsTimers (start url).
Proof.
  unfold start. destruct (url =? "")%string; [timers|].
  apply timers_bind; [timers|]. intros st.
  destruct (negb (NatsState_eqb st DISCONNECTED)); [timers|apply connect_timers].
Qed.

Lemma stopClientKeepAlive_tidy : staysTidy stopClientKeepAlive.
Proof.
  intros s [Hp Hi]. destruct s as [w st cbs ping keep socks ints pend next effs].
  cbn in Hp, Hi. subst ping ints.
  destruct keep as [t|]; cbn; unfold tidyTimers; cbn; [|auto].
  rewrite Nat.eqb_refl. cbn. auto.
Qed.

Lemma clearPingInterval_tidy : staysTidy clearPingInterval.
Proof.
  intros s [Hp Hi]. destruct s as [w st cbs ping keep socks ints pend next effs].
  cbn in Hp, Hi. subst ping ints. cbn. unfold tidyTimers. cbn. auto.
Qed.

Lemma startClientKeepAlive_tidy : staysTidy startClientKeepAlive.
Proof.
  intros s [Hp Hi]. destruct s as [w st cbs ping keep socks ints pend next effs].
  cbn in Hp, Hi. subst ping ints.
  destruct keep as [t|]; cbn; unfold tidyTimers; cbn; [|auto].
  rewrite Nat.eqb_refl. cbn. auto.
Qed.

Lemma onOpen_tidy : staysTidy onOpen.
Proof.
  unfold onOpen.
  apply tidy_bind; [apply timers_tidy; timers|]. intros _.
  apply tidy_bind; [apply timers_tidy; timers|]. intros _.
  apply tidy_bind; [apply timers_tidy, sendNatsCommand_timers|]. intros _.
  apply startClientKeepAlive_tidy.
Qed.

Lemma onClose_tidy : staysTidy onClose.
Proof.
  unfold onClose.
  apply tidy_bind; [apply timers_tidy; timers|]. intros _.
  apply tidy_bind; [apply timers_tidy; timers|]. intros _.
  apply tidy_bind; [apply stopClientKeepAlive_tidy|]. intros _.
  apply tidy_bind; [apply clearPingInterval_tidy|]. intros _.
  apply tidy_bind; [apply timers_tidy; timers|]. intros _.
  apply timers_tidy. unfold setReconnectTimeout. timers.
Qed.

Lemma stop_tidy : staysTidy stop.
Proof.
  unfold stop, removeCloseAndErrorListeners, wsClose.
  apply tidy_bind; [apply timers_tidy; timers|]. intros _.
  apply tidy_bind; [apply timers_tidy; timers|]. intros _.
  apply tidy_bind; [apply stopClientKeepAlive_tidy|]. intros _.
  apply tidy_bind; [apply clearPingInterval_tidy|]. intros _.
  apply timers_tidy.
  apply timers_bind; [timers|]. intros current.
  apply timers_bind; [|intros _; timers].
  destruct current as [id|]; [|timers].
  apply timers_bind; [timers|]. intros _.
  apply timers_bind; [timers|]. intros sock.
  apply timers_bind; [|intros _; timers].
  destruct sock as [[[] cl el]|]; try solve [timers];
    (apply timers_bind; [timers|]); intros _; apply setReadyState_timers.
Qed.

Lemma deliver_tidy (i : Input) : staysTidy (deliver url JSON_parse i).
Proof.
  destruct i; cbn [deliver].
  - apply timers_tidy, start_timers.
  - apply stop_tidy.
  - apply timers_tidy. unfold addTokenCallback. timers.
  - apply tidy_bind; [apply timers_tidy; timers|].
    intros [[[] cl el]|]; try (apply timers_tidy; timers).
    apply tidy_bind; [apply timers_tidy, setReadyState_timers|]. intros _.
    apply onOpen_tidy.
  - apply tidy_bind; [apply timers_tidy; timers|].
    intros [[[] cl el]|]; try (apply timers_tidy; timers);
      apply timers_tidy, onMessage_timers.
  - apply timers_tidy. apply timers_bind; [timers|].
    intros [[[] cl el]|]; try timers;
      (apply timers_bind; [apply setReadyState_timers|]); intros _;
      cbn [errorListener]; destruct el; unfold onError; timers.
  - apply tidy_bind; [apply timers_tidy; timers|].
    intros [[[] cl el]|]; try (apply timers_tidy; timers);
      (apply tidy_bind; [apply timers_tidy, setReadyState_timers|]); intros _;
      cbn [closeListener]; destruct cl; try (apply timers_tidy; timers);
      apply onClose_tidy.
  - apply timers_tidy. apply timers_bind; [timers|]. intros [|pending]; [timers|].
    apply timers_bind; [timers|]. intros _. apply connect_timers.
  - apply timers_tidy. apply timers_bind; [timers|]. intros active.
    destruct (existsb (Nat.eqb timer) active); [apply clientKeepAlive_timers|timers].
Qed.

Lemma run_tidy (inputs : list Input) :
  forall s, tidyTimers s -> tidyTimers (run url JSON_parse inputs s).
Proof.
  induction inputs as [|i rest IH]; intros s Hs; [exact Hs|].
  cbn [run fold_left]. apply IH. apply deliver_tidy. exact Hs.
Qed.

(** X19: the keep-alive interval does not leak.  Whatever happens to a
    new listener (calls, socket events, timers, in any order), at most
    one interval is running, and it is the one whose handle the listener
    holds: a new keep-alive is started only after the previous one was
    cleared, and a stopped or closed session has none. *)
Theorem one_keep_alive_interval (inputs : list Input) :
  let s := run url JSON_parse inputs newListener in
  intervals s
  = match clientKeepAliveIntervalId s with
    | Some t => [t]
    | None => []
    end.
Proof.
  cbn zeta.
  assert (Hnew : tidyTimers newListener) by (split; reflexivity).
  exact (proj2 (run_tidy inputs newListener Hnew)).
Qed.

(** ** Starting twice *)

(** X20: [start] is idempotent but for its log lines.  Whatever the
    state the first call found, a second call of [start] right after it
    creates no socket and changes nothing of the session; it only writes
    a warning. *)
Theorem start_twice (s : Session) :
  let once := step url JSON_parse s CallStart in
  let twice := step url JSON_parse once CallStart in
  forget twice = forget once
  /\ exists text, effects twice = effects once ++ [Log LWarn text].
Proof.
  cbn zeta. unfold step. cbn [deliver].
  destruct s as [w st cbs ping keep socks ints pend next effs].
  unfold start, connect, newWebSocket. l_unfold.
  destruct (url =? "")%string eqn:Hurl; cbn; rewrite ?Hurl; cbn.
  - split; [reflexivity|]. eexists. reflexivity.
  - destruct st; cbn; rewrite ?Hurl; cbn; (split; [reflexivity|]); eexists; reflexivity.
Qed.

End Events.

Lemma consumers_called_in_order_witness :
  invocations (snd (handleNatsMsg sampleParse (graduatedFrame "26" mintPayload)
                      operationalSession))
  = invocations operationalSession ++ [Invoke 0 (JsString "X") mintObject].
Proof.
  apply (consumers_called_in_order sampleParse (graduatedFrame "26" mintPayload)
           mintObject (JsString "X") operationalSession).
  - reflexivity.
  - reflexivity.
  - reflexivity.
  - reflexivity.
  - reflexivity.
  - intros cb [<-|[]]. reflexivity.
Defined.

Lemma throwing_consumer_stops_dispatch_witness :
  fst (handleNatsMsg sampleParse (graduatedFrame "26" mintPayload) crowdedSession)
  = Returned tt
  /\ invocations (snd (handleNatsMsg sampleParse (graduatedFrame "26" mintPayload)
                         crowdedSession))
     = invocations crowdedSession
       ++ [Invoke 0 (JsString "X") mintObject; Invoke 1 (JsString "X") mintObject]
  /\ last (effects (snd (handleNatsMsg sampleParse (graduatedFrame "26" mintPayload)
                           crowdedSession))) (JsonParse "")
     = Log LError "PumpFunListener: Error parsing JSON payload for advancedCoinGraduated:".
Proof.
  apply (throwing_consumer_stops_dispatch sampleParse (graduatedFrame "26" mintPayload)
           mintObject (JsString "X") crowdedSession
           [consumer] failingConsumer [consumer] (JsString "consumer failed")).
  - reflexivity.
  - reflexivity.
  - reflexivity.
  - reflexivity.
  - reflexivity.
  - reflexivity.
  - intros c [<-|[]]. reflexivity.
  - reflexivity.
Defined.

Lemma consumers_only_on_graduated_frames_witness :
  exists id data,
    SocketMessage 0 (graduatedFrame "26" mintPayload) = SocketMessage id data
    /\ startsWith (trim data) "MSG" = true
    /\ ofInterest (trim data) = true
    /\ exists sock,
         socket id operationalSession = Some sock
         /\ (readyState sock = WS_OPEN \/ readyState sock = WS_CLOSING).
Proof.
  apply (consumers_only_on_graduated_frames sampleUrl sampleParse
           (SocketMessage 0 (graduatedFrame "26" mintPayload)) operationalSession).
  vm_compute. discriminate.
Defined.

Lemma handshake_starts_subscriptions_witness :
  (natsState (snd (onMessage sampleParse ("INFO {}" ++ CRLF) waitingSession)) = SUBSCRIBING
   /\ sent (snd (onMessage sampleParse ("INFO {}" ++ CRLF) waitingSession))
      = sent waitingSession ++ subscriptions 0)
  /\ (natsState (snd (onMessage sampleParse ("PING" ++ CRLF) waitingSession)) = SUBSCRIBING
      /\ sent (snd (onMessage sampleParse ("PING" ++ CRLF) waitingSession))
         = sent waitingSession ++ Send 0 ("PONG" ++ CRLF) :: subscriptions 0).
Proof.
  split.
  - apply (proj1 (handshake_starts_subscriptions sampleParse ("INFO {}" ++ CRLF)
                    waitingSession 0 eq_refl eq_refl)).
    reflexivity.
  - apply (proj2 (handshake_starts_subscriptions sampleParse ("PING" ++ CRLF)
                    waitingSession 0 eq_refl eq_refl)).
    reflexivity.
Defined.

Lemma onMessage_transitions_witness :
  (natsState waitingSession = CONNECTED_WAITING_FOR_INFO_OR_PING
   /\ (startsWith (trim ("INFO {}" ++ CRLF)) "INFO" = true
       \/ trim ("INFO {}" ++ CRLF) = "PING")
   /\ natsState (snd (onMessage sampleParse ("INFO {}" ++ CRLF) waitingSession))
      = SUBSCRIBING)
  \/ (natsState waitingSession = SUBSCRIBING
      /\ trim ("INFO {}" ++ CRLF) = "+OK"
      /\ natsState (snd (onMessage sampleParse ("INFO {}" ++ CRLF) waitingSession))
         = OPERATIONAL).
Proof.
  apply (onMessage_transitions sampleParse ("INFO {}" ++ CRLF) waitingSession).
  vm_compute. discriminate.
Defined.

Lemma stop_detaches_socket_witness :
  let stopped := step sampleUrl sampleParse operationalSession CallStop in
  let unnoticed (later : Session) : Prop :=
    effects later = effects stopped
    /\ natsState later = DISCONNECTED
    /\ ws later = None
    /\ reconnectTimers later = reconnectTimers operationalSession
    /\ clientKeepAliveIntervalId later = None in
  (fst (deliver sampleUrl sampleParse (SocketClose 0) stopped) = Returned tt
   /\ unnoticed (step sampleUrl sampleParse stopped (SocketClose 0)))
  /\ (unnoticed (step sampleUrl sampleParse stopped (SocketError 0))
      /\ forall sock,
           socket 0 stopped = Some sock ->
           readyState sock <> WS_CLOSED ->
           fst (deliver sampleUrl sampleParse (SocketError 0) stopped)
           = Threw UnhandledError).
Proof.
  apply (stop_detaches_socket sampleUrl sampleParse operationalSession 0).
  reflexivity.
Defined.

Lemma reconnect_cycle_witness :
  let s' := run sampleUrl sampleParse [SocketClose 0; ReconnectTimeout] operationalSession in
  let fresh := List.length (sockets operationalSession) in
  natsState s' = CONNECTING
  /\ ws s' = Some fresh
  /\ socket fresh s'
     = Some {| readyState := WS_CONNECTING; closeListener := true; errorListener := true |}
  /\ option_map readyState (socket 0 s') = Some WS_CLOSED
  /\ reconnectTimers s' = reconnectTimers operationalSession
  /\ clientKeepAliveIntervalId s' = None
  /\ (forall t, clientKeepAliveIntervalId operationalSession = Some t ->
        ~ In t (intervals s')).
Proof.
  apply (reconnect_cycle sampleUrl sampleParse operationalSession 0
           {| readyState := WS_OPEN; closeListener := true; errorListener := true |}).
  - discriminate.
  - reflexivity.
  - discriminate.
  - reflexivity.
Defined.

End SessionProofs.

(** * The default failover check *)

Module FailoverCheckProofs.
Import Js SolanaService.

Lemma toLowerCase_app (a b : string) :
  toLowerCase (a ++ b) = (toLowerCase a ++ toLowerCase b)%string.
Proof. induction a as [|c a IH]; cbn; [reflexivity|rewrite IH; reflexivity]. Qed.

Lemma startsWith_app (sub s post : string) :
  startsWith s sub = true -> startsWith (s ++ post) sub = true.
Proof.
  revert s. induction sub as [|p sub IH]; intros s H; [reflexivity|].
  destruct s as [|c s]; cbn in *; [discriminate|].
  apply andb_true_iff in H. destruct H as [Hc Hs].
  rewrite Hc. cbn. apply IH. exact Hs.
Qed.

Lemma includes_unfold (s sub : string) :
  includes s sub
  = startsWith s sub
    || match s with
       | EmptyString => false
       | String _ s' => includes s' sub
       end.
Proof. destruct s; reflexivity. Qed.

Lemma includes_app_right (s sub post : string) :
  includes s sub = true -> includes (s ++ post) sub = true.
Proof.
  induction s as [|c s IH]; rewrite includes_unfold; intros H.
  - rewrite orb_false_r in H. rewrite includes_unfold.
    rewrite (startsWith_app sub "" post H). reflexivity.
  - apply orb_true_iff in H. cbn [String.append]. rewrite includes_unfold.
    destruct H as [H|H].
    + change (String c (s ++ post)) with (String c s ++ post)%string.
      rewrite (startsWith_app sub (String c s) post H). reflexivity.
    + rewrite (IH H). apply orb_true_r.
Qed.

Lemma includes_app_left (pre s sub : string) :
  includes s sub = true -> includes (pre ++ s) sub = true.
Proof.
  intros H. induction pre as [|c pre IH]; [exact H|].
  cbn [String.append]. rewrite includes_unfold, IH. apply orb_true_r.
Qed.

Lemma includes_wrapped (pre s post sub : string) :
  includes (toLowerCase s) sub = true ->
  includes (toLowerCase (pre ++ s ++ post)) sub = true.
Proof.
  intros H. rewrite !toLowerCase_app.
  apply includes_app_left, includes_app_right, H.
Qed.

(** X21: the default check looks for its markers anywhere in the
    message.  An error it accepts is still accepted when its message is
    wrapped in more text, before and after, whatever the case of the
    letters of that text; the code is left as it is. *)
Theorem isRpcFailoverError_wrapped (pre msg post : string) (c : option string) :
  isRpcFailoverError {| message := Some msg; code := c |} = true ->
  isRpcFailoverError {| message := Some (pre ++ msg ++ post)%string; code := c |} = true.
Proof.
  unfold isRpcFailoverError. cbn [message code]. intros H.
  repeat (apply orb_true_iff in H; destruct H as [H|H]);
    try (rewrite (includes_wrapped pre msg post _ H); rewrite ?orb_true_r; reflexivity).
  rewrite H. rewrite ?orb_true_r. reflexivity.
Qed.

Lemma isRpcFailoverError_wrapped_witness :
  isRpcFailoverError
    {| message := Some ("Error: " ++ "Request Timeout" ++ " (attempt 2)")%string;
       code := None |} = true.
Proof.
  apply (isRpcFailoverError_wrapped "Error: " "Request Timeout" " (attempt 2)" None).
  reflexivity.
Defined.

End FailoverCheckProofs.

(** * Frames, from the socket to the consumers *)

Module FrameProofs.
Import Js PumpFunListener SessionInvariant PumpFunListenerProofs ConfigProofs SessionProofs.

(** ** Strings *)

Lemma trimEnd_app (a b : string) :
  trimEnd b <> "" -> trimEnd (a ++ b) = (a ++ trimEnd b)%string.
Proof.
  intros Hb. induction a as [|c a IH]; [reflexivity|].
  cbn [String.append]. rewrite trimEnd_cons, IH.
  destruct (a ++ trimEnd b)%string as [|d rest] eqn:Hab; [|reflexivity].
  destruct a; cbn in Hab; [contradiction|discriminate].
Qed.

Lemma startsWith_MSG (m : string) :
  startsWith m "MSG" = true ->
  exists rest, m = String "M"%char rest.
Proof.
  destruct m as [|c rest]; cbn [startsWith]; [discriminate|].
  intros H. apply andb_true_iff in H as [Hc _].
  apply Ascii.eqb_eq in Hc. subst c. eauto.
Qed.

(** A message that starts with MSG is trimmed at its end only. *)
Lemma trim_frame (header payload : string) :
  startsWith header "MSG" = true ->
  trimEnd payload <> "" ->
  trim (header ++ CRLF ++ payload) = (header ++ CRLF ++ trimEnd payload)%string.
Proof.
  intros Hh Hp. destruct (startsWith_MSG header Hh) as [rest ->].
  assert (Hcr : trimEnd (CRLF ++ payload) = (CRLF ++ trimEnd payload)%string)
    by (apply trimEnd_app; exact Hp).
  unfold trim. cbn [String.append trimStart].
  change (isWhiteSpace "M") with false. cbv iota.
  change (String "M" (rest ++ CRLF ++ payload))
    with (String "M" rest ++ (CRLF ++ payload))%string.
  rewrite trimEnd_app; rewrite Hcr; [reflexivity|discriminate].
Qed.

Lemma take_length (n : nat) (s : string) :
  (n <= String.length s)%nat -> String.length (take n s) = n.
Proof.
  revert s. induction n as [|n IH]; intros s Hn; [reflexivity|].
  destruct s as [|c s]; cbn in *; [lia|]. rewrite IH; lia.
Qed.

Lemma take_all (s : string) : take (String.length s) s = s.
Proof. induction s as [|c s IH]; cbn; [reflexivity|rewrite IH; reflexivity]. Qed.

(** ** Which texts are decoded *)

Lemma decoded_add_effect (e : Effect) (s : Session) :
  decoded (add_effect e s) = decoded s ++ (if isJsonParse e then [e] else []).
Proof.
  unfold decoded. cbn. rewrite filter_app. cbn. destruct (isJsonParse e); reflexivity.
Qed.

Lemma parseFree_ret {A} (a : A) : parseFree (ret a).
Proof. intros s. reflexivity. Qed.

Lemma parseFree_throw {A} (x : JsException) : parseFree (throw (A:=A) x).
Proof. intros s. reflexivity. Qed.

Lemma parseFree_gets {A} (f : Session -> A) : parseFree (gets f).
Proof. intros s. reflexivity. Qed.

Lemma parseFree_effect (e : Effect) : isJsonParse e = false -> parseFree (effect e).
Proof.
  intros He s. change (decoded (add_effect e s) = decoded s).
  rewrite decoded_add_effect, He. apply app_nil_r.
Qed.

Lemma parseFree_log level text : parseFree (log level text).
Proof. apply parseFree_effect. reflexivity. Qed.

Lemma parseFree_bind {A B} (m : L A) (k : A -> L B) :
  parseFree m -> (forall a, parseFree (k a)) -> parseFree (bind m k).
Proof.
  intros Hm Hk s. unfold bind. specialize (Hm s).
  destruct (m s) as [[a|x] s1]; cbn [snd] in *.
  - rewrite (Hk a s1). exact Hm.
  - exact Hm.
Qed.

Lemma parseFree_try {A} (m : L A) (h : JsException -> L A) :
  parseFree m -> (forall x, parseFree (h x)) -> parseFree (try m h).
Proof.
  intros Hm Hh s. unfold try. specialize (Hm s).
  destruct (m s) as [[a|x] s1]; cbn [snd] in *.
  - exact Hm.
  - rewrite (Hh x s1). exact Hm.
Qed.

Lemma forEachCallback_parseFree callbacks index address data :
  parseFree (forEachCallback callbacks index address data).
Proof.
  revert index. induction callbacks as [|cb rest IH]; intros index; cbn [forEachCallback].
  - apply parseFree_ret.
  - apply parseFree_bind; [apply parseFree_effect; reflexivity|]. intros _.
    destruct (cb address data); [apply IH|apply parseFree_throw].
Qed.

(** What follows the decoding in the [try] block. *)
Lemma dispatch_parseFree (tokenData : JsValue) :
  parseFree
    (address <- tokenAddress tokenData ;;
     if truthy address then
       interpolate address ;;
       log LInfo "PumpFunListener: New 'advancedCoinGraduated' token" ;;
       callbacks <- gets newTokenCallbacks ;;
       forEachCallback callbacks 0 address tokenData
     else
       log LWarn
         "PumpFunListener: 'advancedCoinGraduated' message missing token address.")%exec.
Proof.
  apply parseFree_bind.
  - intros s. rewrite tokenAddress_pure. reflexivity.
  - intros address. destruct (truthy address); [|apply parseFree_log].
    apply parseFree_bind.
    { unfold interpolate. destruct (stringifies address);
        [apply parseFree_ret|apply parseFree_throw]. }
    intros _. apply parseFree_bind; [apply parseFree_log|]. intros _.
    apply parseFree_bind; [apply parseFree_gets|]. intros callbacks.
    apply forEachCallback_parseFree.
Qed.

Section Frames.

Variable JSON_parse : string -> option JsValue.

(** A message that starts with MSG goes to the frame handler, trimmed. *)
Lemma onMessage_frame (data : string) (s : Session) :
  startsWith (trim data) "MSG" = true ->
  onMessage JSON_parse data s
  = handleNatsMsg JSON_parse (trim data)
      (add_effect (Log LDebug "PumpFunListener: Received raw NATS message") s).
Proof.
  intros H. destruct (startsWith_MSG _ H) as [rest Hm].
  unfold onMessage. rewrite Hm in *.
  replace (startsWith (String "M" rest) "INFO") with false by reflexivity.
  replace (String "M" rest =? "PING")%string with false by reflexivity.
  rewrite H. unfold bind. cbn [log effect modify]. reflexivity.
Qed.

Lemma parsedPayload_result (payload : string) (s : Session) :
  fst (parsedPayload JSON_parse payload s)
  = match JSON_parse payload with
    | Some (JsString inner) =>
        match JSON_parse inner with
        | Some v => Returned v
        | None => Threw SyntaxError
        end
    | Some v => Returned v
    | None => Threw SyntaxError
    end
  /\ decoded (snd (parsedPayload JSON_parse payload s))
     = decoded s ++ passes JSON_parse payload.
Proof.
  unfold parsedPayload, jsonParse, passes. l_unfold.
  destruct (JSON_parse payload) as [first|]; [|split; [reflexivity|]].
  - destruct first; try (split; [reflexivity|]; cbn [snd]; apply decoded_add_effect).
    destruct (JSON_parse s0); (split; [reflexivity|]); cbn [snd];
      rewrite !decoded_add_effect; cbn [isJsonParse];
      rewrite app_nil_r, <- app_assoc; reflexivity.
  - cbn [snd]. apply decoded_add_effect.
Qed.

Lemma parsedPayload_state_independent (payload : string) (s s' : Session) :
  fst (parsedPayload JSON_parse payload s) = fst (parsedPayload JSON_parse payload s').
Proof.
  rewrite (proj1 (parsedPayload_result payload s)).
  rewrite (proj1 (parsedPayload_result payload s')). reflexivity.
Qed.

(** The texts a frame of the subscription gives to [JSON.parse]. *)
Lemma frame_decoded (data : string) (s : Session) :
  startsWith (trim data) "MSG" = true ->
  ofInterest (trim data) = true ->
  decoded (snd (onMessage JSON_parse data s))
  = decoded s ++ passes JSON_parse (payloadStr (trim data)).
Proof.
  intros Hmsg Hint. rewrite onMessage_frame by assumption.
  rewrite handleNatsMsg_ofInterest by assumption.
  set (s0 := add_effect (Log LDebug "PumpFunListener: NATS MSG")
               (add_effect (Log LDebug "PumpFunListener: Received raw NATS message") s)).
  assert (H0 : decoded s0 = decoded s).
  { unfold s0. rewrite !decoded_add_effect. cbn [isJsonParse]. rewrite !app_nil_r.
    reflexivity. }
  destruct (parsedPayload_result (payloadStr (trim data)) s0) as [_ Hdec].
  rewrite H0 in Hdec. rewrite <- Hdec.
  unfold try, decodeAndDispatch. unfold bind at 1.
  destruct (parsedPayload JSON_parse (payloadStr (trim data)) s0) as [[d|x] s1];
    cbn [snd].
  - pose proof (dispatch_parseFree d s1) as Hfree.
    match goal with
    | |- context [let (o, s') := ?run in _] => destruct run as [[a|x] s2]
    end; cbn [snd] in *.
    + exact Hfree.
    + cbn [log effect modify snd]. rewrite decoded_add_effect. cbn [isJsonParse].
      rewrite app_nil_r. exact Hfree.
  - cbn [log effect modify snd]. rewrite decoded_add_effect. cbn [isJsonParse].
    apply app_nil_r.
Qed.

(** A frame whose payload decodes to a value with an identifier. *)
Lemma frame_with_identifier (data : string) (s : Session) (tokenData address : JsValue) :
  startsWith (trim data) "MSG" = true ->
  ofInterest (trim data) = true ->
  fst (parsedPayload JSON_parse (payloadStr (trim data)) s) = Returned tokenData ->
  fst (tokenAddress tokenData s) = Returned address ->
  truthy address = true ->
  stringifies address = true ->
  (forall cb, In cb (newTokenCallbacks s) -> cb address tokenData = CbReturned) ->
  fst (onMessage JSON_parse data s) = Returned tt
  /\ invocations (snd (onMessage JSON_parse data s))
     = invocations s
       ++ map (fun i => Invoke i address tokenData)
            (seq 0 (List.length (newTokenCallbacks s))).
Proof.
  intros Hmsg Hint Hdec Haddr Htruthy Hstr Hall.
  rewrite onMessage_frame by assumption.
  set (s0 := add_effect (Log LDebug "PumpFunListener: Received raw NATS message") s).
  split; [apply handleNatsMsg_returns|].
  destruct (handleNatsMsg_reaches_consumers JSON_parse (trim data) tokenData address s0)
    as [s1 [Hinv Hrun]]; auto.
  - rewrite <- Hdec. apply parsedPayload_state_independent.
  - rewrite <- Haddr. apply tokenAddress_state_independent.
  - rewrite Hrun. unfold try.
    change (newTokenCallbacks s0) with (newTokenCallbacks s).
    rewrite forEachCallback_all_return by assumption. cbn [snd].
    rewrite invocations_fold, Hinv. unfold s0.
    rewrite invocations_add_effect by reflexivity. reflexivity.
Qed.

(** A frame whose payload decodes to a value without identifier. *)
Lemma frame_without_identifier (data : string) (s : Session) (tokenData v : JsValue) :
  startsWith (trim data) "MSG" = true ->
  ofInterest (trim data) = true ->
  fst (parsedPayload JSON_parse (payloadStr (trim data)) s) = Returned tokenData ->
  fst (tokenAddress tokenData s) = Returned v ->
  truthy v = false ->
  fst (onMessage JSON_parse data s) = Returned tt
  /\ invocations (snd (onMessage JSON_parse data s)) = invocations s
  /\ last (effects (snd (onMessage JSON_parse data s))) (JsonParse "")
     = Log LWarn
         "PumpFunListener: 'advancedCoinGraduated' message missing token address."
  /\ forget (snd (onMessage JSON_parse data s)) = forget s.
Proof.
  intros Hmsg Hint Hdec Haddr Hfalsy.
  rewrite onMessage_frame by assumption.
  set (s0 := add_effect (Log LDebug "PumpFunListener: Received raw NATS message") s).
  assert (Hdec0 : fst (parsedPayload JSON_parse (payloadStr (trim data))
                         (add_effect (Log LDebug "PumpFunListener: NATS MSG") s0))
                  = Returned tokenData).
  { rewrite <- Hdec. apply parsedPayload_state_independent. }
  assert (Haddr0 : forall s', fst (tokenAddress tokenData s') = Returned v).
  { intros s'. rewrite <- Haddr. apply tokenAddress_state_independent. }
  destruct (handleNatsMsg_without_identifier JSON_parse (trim data) tokenData s0 Hint Hdec0)
    as [Hret [Hinv [_ Hforget]]].
  { intros v' Hv'. rewrite Haddr0 in Hv'. inversion Hv'. subst v'. exact Hfalsy. }
  split; [exact Hret|]. split; [|split].
  - rewrite Hinv. unfold s0. apply invocations_add_effect. reflexivity.
  - rewrite handleNatsMsg_ofInterest by assumption.
    unfold try, decodeAndDispatch. unfold bind at 1.
    destruct (parsedPayload JSON_parse (payloadStr (trim data))
                (add_effect (Log LDebug "PumpFunListener: NATS MSG") s0))
      as [[d|x] s1]; cbn [fst snd] in *; [|discriminate].
    injection Hdec0 as Hd. rewrite Hd.
    unfold bind at 1.
    pose proof (tokenAddress_pure tokenData s1) as Hp.
    pose proof (Haddr0 s1) as Hi.
    destruct (tokenAddress tokenData s1) as [[v'|x] s2]; cbn [fst snd] in *; subst s2;
      [|discriminate].
    injection Hi as Hv. rewrite Hv, Hfalsy.
    cbn [log effect modify snd add_effect effects]. apply last_last.
  - rewrite Hforget. reflexivity.
Qed.


(** C7: for every message that the 'message' handler gives to the frame
    handler as a frame of the subscription, and whose payload
    [JSON.parse] accepts: when the first result is a string, the handler
    gives that string to [JSON.parse] once more, and nothing else, and
    the consumers receive the result of this second pass; when the first
    result is not a string there is no second pass and the consumers
    receive the first result. *)
Theorem frame_decode_passes (data : string) (s : Session) (first : JsValue) :
  startsWith (trim data) "MSG" = true ->
  ofInterest (trim data) = true ->
  JSON_parse (payloadStr (trim data)) = Some first ->
  let payload := payloadStr (trim data) in
  let s' := snd (onMessage JSON_parse data s) in
  let uses (tokenData : JsValue) : Prop :=
    forall address,
      fst (tokenAddress tokenData s) = Returned address ->
      truthy address = true ->
      stringifies address = true ->
      (forall cb, In cb (newTokenCallbacks s) -> cb address tokenData = CbReturned) ->
      invocations s'
      = invocations s
        ++ map (fun i => Invoke i address tokenData)
             (seq 0 (List.length (newTokenCallbacks s))) in
  match first with
  | JsString inner =>
      decoded s' = decoded s ++ [JsonParse payload; JsonParse inner]
      /\ decodePasses s' = (decodePasses s + 2)%nat
      /\ forall second, JSON_parse inner = Some second -> uses second
  | _ =>
      decoded s' = decoded s ++ [JsonParse payload]
      /\ decodePasses s' = (decodePasses s + 1)%nat
      /\ uses first
  end.
Proof.
  intros Hmsg Hint Hfirst payload s' uses.
  assert (Hdec : decoded s' = decoded s ++ passes JSON_parse payload)
    by (apply frame_decoded; assumption).
  assert (Hcount : decodePasses s'
                   = (decodePasses s + List.length (passes JSON_parse payload))%nat).
  { unfold decodePasses. fold (decoded s') (decoded s).
    rewrite Hdec, length_app. reflexivity. }
  assert (Huses : forall tokenData,
            fst (parsedPayload JSON_parse payload s) = Returned tokenData ->
            uses tokenData).
  { intros tokenData Hp address Haddr Htruthy Hstr Hall.
    apply (frame_with_identifier data s tokenData address); assumption. }
  pose proof (proj1 (parsedPayload_result payload s)) as Hres.
  unfold passes in Hdec, Hcount. fold payload in Hfirst.
  rewrite Hfirst in Hdec, Hcount, Hres.
  destruct first;
    try (split; [exact Hdec|]; split; [exact Hcount|]; apply Huses; exact Hres).
  split; [exact Hdec|]. split; [exact Hcount|].
  intros second Hsecond. apply Huses. rewrite Hres, Hsecond. reflexivity.
Qed.

(** C8: for every frame of the subscription whose payload decodes to an
    object, the identifier is the value of the first of the aliases
    coinMint, mint, token_address, address, in that order, that the
    object has, the aliases before it being absent: when that value is
    truthy and prints as a string, every registered consumer is called
    once, in order of registration, with that value and the decoded
    object.  When the object has none of the aliases the frame is
    dropped: the handler returns, records the warning that the token
    address is missing, calls no consumer and leaves the session as it
    was. *)
Theorem frame_identifier_alias_order
    (data : string) (s : Session) (fields : list (string * JsValue)) :
  startsWith (trim data) "MSG" = true ->
  ofInterest (trim data) = true ->
  fst (parsedPayload JSON_parse (payloadStr (trim data)) s)
  = Returned (JsObject fields) ->
  let s' := snd (onMessage JSON_parse data s) in
  (forall before a after v,
     aliases = before ++ a :: after ->
     (forall b, In b before -> lookup fields b = None) ->
     lookup fields a = Some v ->
     truthy v = true ->
     stringifies v = true ->
     (forall cb, In cb (newTokenCallbacks s) -> cb v (JsObject fields) = CbReturned) ->
     fst (tokenAddress (JsObject fields) s) = Returned v
     /\ invocations s'
        = invocations s
          ++ map (fun i => Invoke i v (JsObject fields))
               (seq 0 (List.length (newTokenCallbacks s))))
  /\ ((forall a, In a aliases -> lookup fields a = None) ->
      fst (onMessage JSON_parse data s) = Returned tt
      /\ invocations s' = invocations s
      /\ last (effects s') (JsonParse "")
         = Log LWarn
             "PumpFunListener: 'advancedCoinGraduated' message missing token address."
      /\ forget s' = forget s).
Proof.
  intros Hmsg Hint Hdec s'. split.
  - intros before a after v Hal Hbefore Ha Htruthy Hstr Hall.
    assert (Haddr : fst (tokenAddress (JsObject fields) s) = Returned v).
    { rewrite (tokenAddress_first_truthy fields before a after v s); auto.
      intros b x Hb Hx. rewrite (Hbefore b Hb) in Hx. discriminate. }
    split; [exact Haddr|].
    apply (frame_with_identifier data s (JsObject fields) v); assumption.
  - intros Hnone.
    destruct (tokenAddress_none_truthy fields s) as [v [Hv Hfalsy]].
    { intros a x Ha Hx. rewrite (Hnone a Ha) in Hx. discriminate. }
    apply (frame_without_identifier data s (JsObject fields) v); auto.
    rewrite Hv. reflexivity.
Qed.

(** C10: the aliases are chained on truthiness.  For every frame of the
    subscription whose payload decodes to an object, an alias that the
    object has with a falsy value (the empty string, null, 0, false) is
    passed over like an absent one: the identifier is the value of the
    first alias that holds a truthy value, and the consumers are called
    with it.  When every alias is absent or holds a falsy value the
    identifier is missing: the handler returns, records the warning that
    the token address is missing, calls no consumer and leaves the
    session as it was. *)
Theorem frame_identifier_skips_falsy
    (data : string) (s : Session) (fields : list (string * JsValue)) :
  startsWith (trim data) "MSG" = true ->
  ofInterest (trim data) = true ->
  fst (parsedPayload JSON_parse (payloadStr (trim data)) s)
  = Returned (JsObject fields) ->
  let s' := snd (onMessage JSON_parse data s) in
  let passedOver (a : string) : Prop :=
    lookup fields a = None
    \/ exists x, lookup fields a = Some x /\ truthy x = false in
  (forall before a after v,
     aliases = before ++ a :: after ->
     (forall b, In b before -> passedOver b) ->
     lookup fields a = Some v ->
     truthy v = true ->
     stringifies v = true ->
     (forall cb, In cb (newTokenCallbacks s) -> cb v (JsObject fields) = CbReturned) ->
     fst (tokenAddress (JsObject fields) s) = Returned v
     /\ invocations s'
        = invocations s
          ++ map (fun i => Invoke i v (JsObject fields))
               (seq 0 (List.length (newTokenCallbacks s))))
  /\ ((forall a, In a aliases -> passedOver a) ->
      fst (onMessage JSON_parse data s) = Returned tt
      /\ invocations s' = invocations s
      /\ last (effects s') (JsonParse "")
         = Log LWarn
             "PumpFunListener: 'advancedCoinGraduated' message missing token address."
      /\ forget s' = forget s).
Proof.
  intros Hmsg Hint Hdec s' passedOver.
  assert (Hfalsy : forall a x, passedOver a -> lookup fields a = Some x ->
                               truthy x = false).
  { intros a x [Hnone|[y [Hy Hf]]] Hx; rewrite Hx in *; [discriminate|].
    injection Hy as Hy. subst y. exact Hf. }
  split.
  - intros before a after v Hal Hbefore Ha Htruthy Hstr Hall.
    assert (Haddr : fst (tokenAddress (JsObject fields) s) = Returned v).
    { rewrite (tokenAddress_first_truthy fields before a after v s); auto.
      intros b x Hb Hx. exact (Hfalsy b x (Hbefore b Hb) Hx). }
    split; [exact Haddr|].
    apply (frame_with_identifier data s (JsObject fields) v); assumption.
  - intros Hnone.
    destruct (tokenAddress_none_truthy fields s) as [v [Hv Hf]].
    { intros a x Ha Hx. exact (Hfalsy a x (Hnone a Ha) Hx). }
    apply (frame_without_identifier data s (JsObject fields) v); auto.
    rewrite Hv. reflexivity.
Qed.

End Frames.


(** A payload that is the JSON text of a JSON text: two passes, and the
    consumer receives the object of the second. *)
Lemma frame_decode_passes_witness :
  let data := graduatedFrame "36" doubleEncodedPayload in
  let s' := snd (onMessage sampleParse data operationalSession) in
  decoded s'
  = decoded operationalSession ++ [JsonParse doubleEncodedPayload; JsonParse mintPayload]
  /\ decodePasses s' = (decodePasses operationalSession + 2)%nat
  /\ invocations s'
     = invocations operationalSession ++ [Invoke 0 (JsString "X") mintObject].
Proof.
  intros data s'.
  pose proof (frame_decode_passes sampleParse data operationalSession
                (JsString mintPayload) eq_refl eq_refl eq_refl)
    as [Hdecoded [Hcount Huses]].
  split; [exact Hdecoded|]. split; [exact Hcount|].
  apply (Huses mintObject eq_refl (JsString "X")).
  - reflexivity.
  - reflexivity.
  - reflexivity.
  - intros cb [<-|[]]. reflexivity.
Defined.

(** {"mint":"X","address":"Y"} yields the identifier X; {} is dropped. *)
Lemma frame_identifier_alias_order_witness :
  (let s' := snd (onMessage sampleParse (graduatedFrame "26" mintPayload)
                    operationalSession) in
   fst (tokenAddress mintObject operationalSession) = Returned (JsString "X")
   /\ invocations s'
      = invocations operationalSession ++ [Invoke 0 (JsString "X") mintObject])
  /\ (let s' := snd (onMessage sampleParse (graduatedFrame "2" "{}")
                       operationalSession) in
      fst (onMessage sampleParse (graduatedFrame "2" "{}") operationalSession)
      = Returned tt
      /\ invocations s' = invocations operationalSession
      /\ last (effects s') (JsonParse "")
         = Log LWarn
             "PumpFunListener: 'advancedCoinGraduated' message missing token address."
      /\ forget s' = forget operationalSession).
Proof.
  split.
  - apply (proj1 (frame_identifier_alias_order sampleParse
                    (graduatedFrame "26" mintPayload) operationalSession
                    [("mint", JsString "X"); ("address", JsString "Y")]
                    eq_refl eq_refl eq_refl)
             ["coinMint"] "mint" ["token_address"; "address"] (JsString "X")).
    + reflexivity.
    + intros b [<-|[]]. reflexivity.
    + reflexivity.
    + reflexivity.
    + reflexivity.
    + intros cb [<-|[]]. reflexivity.
  - apply (proj2 (frame_identifier_alias_order sampleParse
                    (graduatedFrame "2" "{}") operationalSession []
                    eq_refl eq_refl eq_refl)).
    intros a _. reflexivity.
Defined.

(** {"coinMint":"","mint":"X"} yields the identifier X;
    {"name":"pump","address":""} is dropped. *)
Lemma frame_identifier_skips_falsy_witness :
  (let s' := snd (onMessage sampleParse (graduatedFrame "26" emptyCoinMintPayload)
                    operationalSession) in
   fst (tokenAddress emptyCoinMintObject operationalSession) = Returned (JsString "X")
   /\ invocations s'
      = invocations operationalSession ++ [Invoke 0 (JsString "X") emptyCoinMintObject])
  /\ (let s' := snd (onMessage sampleParse (graduatedFrame "28" noAliasPayload)
                       operationalSession) in
      fst (onMessage sampleParse (graduatedFrame "28" noAliasPayload) operationalSession)
      = Returned tt
      /\ invocations s' = invocations operationalSession
      /\ last (effects s') (JsonParse "")
         = Log LWarn
             "PumpFunListener: 'advancedCoinGraduated' message missing token address."
      /\ forget s' = forget operationalSession).
Proof.
  split.
  - apply (proj1 (frame_identifier_skips_falsy sampleParse
                    (graduatedFrame "26" emptyCoinMintPayload) operationalSession
                    [("coinMint", JsString ""); ("mint", JsString "X")]
                    eq_refl eq_refl eq_refl)
             ["coinMint"] "mint" ["token_address"; "address"] (JsString "X")).
    + reflexivity.
    + intros b [<-|[]]. right. exists (JsString ""). split; reflexivity.
    + reflexivity.
    + reflexivity.
    + reflexivity.
    + intros cb [<-|[]]. reflexivity.
  - apply (proj2 (frame_identifier_skips_falsy sampleParse
                    (graduatedFrame "28" noAliasPayload) operationalSession
                    [("name", JsString "pump"); ("address", JsString "")]
                    eq_refl eq_refl eq_refl)).
    intros a [<-|[<-|[<-|[<-|[]]]]].
    + left. reflexivity.
    + left. reflexivity.
    + left. reflexivity.
    + right. exists (JsString ""). split; reflexivity.
Defined.

End FrameProofs.
